(** * github_stats.c: the JSON engine and the report

    A shallow embedding of the recursive-descent JSON parser and of the
    accessor functions found in [src/c/src/github_stats.c], and of the
    functions around them that build the request, read the answer of the
    API into the lists of the report and escape its text, followed by the
    properties the design document states about the parser and by further
    properties of the code.

    Modelling conventions.
    - A [char] is an [ascii]; a C string ([char *] that is not NULL) is the
      list of characters stored in front of its terminating NUL, so reading
      at the end of the list yields NUL. A nullable [char *] is an
      [option chars].
    - A pointer into the input buffer ([parser->cur]) is the suffix of the
      buffer that starts at that pointer; [cur++] drops the head.
    - [JsonValue *] is [option JsonValue], [None] being NULL.
    - The capacity fields of the growable lists only drive [realloc]; the
      containers are lists and an allocation failure (which ends the process)
      is outside the model. Where a function indexes a buffer of its own,
      the buffer is modelled with its capacity and every store is checked.
    - A [double] is an IEEE 754 binary64 number, represented by the
      [spec_float] type of the standard library.
    - Signed integers are [Z]; an overflow, an out-of-range conversion and a
      read through NULL are undefined behaviour, the [UB] of [behaviour].
    - [qsort], the HTTP transfer, the output to files and the floating-point
      arithmetic of [compute_language_shares] are not modelled. *)

From Stdlib Require Import Ascii String.
From Stdlib Require Import List ZArith NArith Bool Arith Lia.
From Stdlib Require Import Floats.SpecFloat.
Import ListNotations.

Set Implicit Arguments.

Local Open Scope char_scope.
Local Open Scope list_scope.

(** ** Characters and C strings *)

Definition chars := list ascii.

(** A string literal of the C source, as a list of characters. *)
Definition lit (s : string) : chars := list_ascii_of_string s.

Definition NUL : ascii := "000".
Definition DQUOTE : ascii := "034".
Definition BACKSLASH : ascii := "\".
Definition LF : ascii := "010".
Definition CR : ascii := "013".
Definition TAB : ascii := "009".
Definition BS : ascii := "008".
Definition FF : ascii := "012".

(** [*p] for a pointer into a NUL-terminated buffer. *)
Definition deref (p : chars) : ascii :=
  match p with
  | [] => NUL
  | c :: _ => c
  end.

(** [p + 1]. The code only advances a pointer that does not point at the
    terminator. *)
Definition advance (p : chars) : chars := tl p.

(** The characters a C string function sees: everything in front of the
    first NUL. *)
Fixpoint c_str (s : chars) : chars :=
  match s with
  | [] => []
  | c :: s' => if Ascii.eqb c NUL then [] else c :: c_str s'
  end.

Definition is_digit (c : ascii) : bool :=
  (("0" <=? c)%char && (c <=? "9")%char)%bool.

Definition is_ws (c : ascii) : bool :=
  (Ascii.eqb c " " || Ascii.eqb c LF || Ascii.eqb c CR || Ascii.eqb c TAB)%bool.

(** [strcmp] of libc: the difference of the first pair of differing
    characters (as unsigned char), [0] when both strings end together. *)
Fixpoint strcmp (a b : chars) : Z :=
  let ca := deref a in
  let cb := deref b in
  if negb (Ascii.eqb ca cb) then
    (Z.of_N (N_of_ascii ca) - Z.of_N (N_of_ascii cb))%Z
  else if Ascii.eqb ca NUL then 0%Z
  else match a with
       | [] => 0%Z
       | _ :: a' => strcmp a' (tl b)
       end.

(** [strncmp (cur, literal, strlen literal) == 0], for a literal without
    NUL: the buffer starts with the literal. *)
Fixpoint strncmp_eq0 (cur literal : chars) {struct literal} : bool :=
  match literal with
  | [] => true
  | l :: literal' =>
      match cur with
      | [] => false
      | c :: cur' => (Ascii.eqb c l && strncmp_eq0 cur' literal')%bool
      end
  end.

(** ** Doubles and [strtod] *)

Definition double := spec_float.

Definition prec : Z := 53.
Definition emax : Z := 1024.

Definition digit_val (c : ascii) : Z :=
  (Z.of_N (N_of_ascii c) - 48)%Z.

(** Value of a run of decimal digits, most significant first. *)
Definition digits_val (ds : chars) : Z :=
  fold_left (fun acc c => (10 * acc + digit_val c)%Z) ds 0%Z.

(** Longest prefix of digits, and what follows it. *)
Fixpoint span_digits (s : chars) : chars * chars :=
  match s with
  | [] => ([], [])
  | c :: s' =>
      if is_digit c then
        let '(ds, r) := span_digits s' in (c :: ds, r)
      else ([], s)
  end.

(** The binary64 number nearest to [(-1)^neg * m * 10^e10] (ties to even,
    overflow to an infinity, underflow to a subnormal or a zero), for
    [0 <= m]. A negative exponent is a division: the quotient is computed
    with at least 64 significant bits and the position of the exact value
    between two consecutive quotients is handed to the rounding of
    [SpecFloat]. *)
Definition round_decimal (neg : bool) (m e10 : Z) : double :=
  if (m =? 0)%Z then S754_zero neg
  else if (0 <=? e10)%Z then
    binary_normalize prec emax (cond_Zopp neg (m * 10 ^ e10)) 0 neg
  else
    let den := (10 ^ (- e10))%Z in
    let k := Z.max 0 (64 + Z.log2 den - Z.log2 m) in
    let num := (m * 2 ^ k)%Z in
    let q := (num / den)%Z in
    let r := (num mod den)%Z in
    let loc := if (r =? 0)%Z then loc_Exact
               else loc_Inexact (Z.compare (2 * r) den) in
    binary_round_aux prec emax neg q (- k) loc.

(** [strtod (nptr, NULL)] of libc on the decimal form of its subject
    sequence: optional sign, digits with an optional radix point, optional
    exponent. The longest prefix of that shape is converted; when there is
    none (no digit at all) no conversion is performed and the result is
    zero. An exponent marker that is not followed by a digit is not part of
    the number. The hexadecimal, infinity and NaN forms start with
    characters [json_parse_number] never copies into its buffer. *)
Definition strtod (nptr : chars) : double :=
  let s := nptr in
  let '(neg, s) :=
    if Ascii.eqb (deref s) "-" then (true, advance s)
    else if Ascii.eqb (deref s) "+" then (false, advance s)
    else (false, s) in
  let '(ip, s) := span_digits s in
  let '(fp, s) :=
    if Ascii.eqb (deref s) "." then span_digits (advance s) else ([], s) in
  match ip ++ fp with
  | [] => S754_zero false
  | _ =>
      let e :=
        if (Ascii.eqb (deref s) "e" || Ascii.eqb (deref s) "E")%bool then
          let s := advance s in
          let '(eneg, s) :=
            if Ascii.eqb (deref s) "-" then (true, advance s)
            else if Ascii.eqb (deref s) "+" then (false, advance s)
            else (false, s) in
          let '(ed, _) := span_digits s in
          match ed with
          | [] => 0%Z
          | _ => cond_Zopp eneg (digits_val ed)
          end
        else 0%Z in
      round_decimal neg (digits_val (ip ++ fp)) (e - Z.of_nat (length fp))
  end.

(** The rational number a finite double stands for, as numerator and
    denominator; [None] for infinities and NaN. *)
Definition double_value (d : double) : option (Z * Z) :=
  match d with
  | S754_zero _ => Some (0, 1)%Z
  | S754_finite s m e =>
      if (0 <=? e)%Z then Some (cond_Zopp s (Zpos m * 2 ^ e), 1)%Z
      else
        let g := Z.gcd (Zpos m) (2 ^ (- e)) in
        Some (cond_Zopp s (Zpos m / g), 2 ^ (- e) / g)%Z
  | _ => None
  end.

(** ** The value model *)

Inductive JsonType :=
| JSON_NULL
| JSON_BOOL
| JSON_NUMBER
| JSON_STRING
| JSON_ARRAY
| JSON_OBJECT.

Definition JsonType_eqb (a b : JsonType) : bool :=
  match a, b with
  | JSON_NULL, JSON_NULL | JSON_BOOL, JSON_BOOL | JSON_NUMBER, JSON_NUMBER
  | JSON_STRING, JSON_STRING | JSON_ARRAY, JSON_ARRAY
  | JSON_OBJECT, JSON_OBJECT => true
  | _, _ => false
  end.

(** [struct JsonValue]: the tag and the member of the union that is active
    for it. [boolean] is a C [int], [string] a nullable [char *]; the
    parallel arrays [keys] and [values] of a [JsonObject] are one list of
    pairs, a key being a nullable [char *] as well. *)
#[local] Unset Elimination Schemes.
Inductive JsonValue :=
| JNull
| JBool (boolean : Z)
| JNumber (number : double)
| JString (string : option chars)
| JArray (items : list JsonValue)
| JObject (entries : list (option chars * JsonValue)).
#[local] Set Elimination Schemes.

Definition type (v : JsonValue) : JsonType :=
  match v with
  | JNull => JSON_NULL
  | JBool _ => JSON_BOOL
  | JNumber _ => JSON_NUMBER
  | JString _ => JSON_STRING
  | JArray _ => JSON_ARRAY
  | JObject _ => JSON_OBJECT
  end.

(** What reading a nullable pointer's target gives: a value, or undefined
    behaviour when the pointer is NULL. *)
Inductive behaviour (A : Type) :=
| Ok (a : A)
| UB.

Arguments UB {A}.

(** [json_make_value]: a fresh value of the given type. Containers start
    empty; the payload of the other types is left as [malloc] returned it
    and every caller stores into it before anything reads it, so the
    model's choice of a payload there is never observed. *)
Definition json_make_value (t : JsonType) : JsonValue :=
  match t with
  | JSON_NULL => JNull
  | JSON_BOOL => JBool 0
  | JSON_NUMBER => JNumber (S754_zero false)
  | JSON_STRING => JString None
  | JSON_ARRAY => JArray []
  | JSON_OBJECT => JObject []
  end.

(** Stores into the union: [value->as.boolean = b] and the like. *)
Definition set_boolean (v : JsonValue) (b : Z) : JsonValue :=
  match v with JBool _ => JBool b | _ => v end.

Definition set_number (v : JsonValue) (d : double) : JsonValue :=
  match v with JNumber _ => JNumber d | _ => v end.

Definition set_string (v : JsonValue) (s : option chars) : JsonValue :=
  match v with JString _ => JString s | _ => v end.

(** [json_array_push]: [array->items[array->size++] = item]. The parser
    only calls it on the array it has just made. *)
Definition json_array_push (arrayValue item : JsonValue) : JsonValue :=
  match arrayValue with
  | JArray items => JArray (items ++ [item])
  | _ => arrayValue
  end.

(** [json_object_put]: writes [key] and [value] at index [size] and
    increments [size]; nothing is compared with [key]. *)
Definition json_object_put (objectValue : JsonValue) (key : option chars)
    (value : JsonValue) : JsonValue :=
  match objectValue with
  | JObject entries => JObject (entries ++ [(key, value)])
  | _ => objectValue
  end.

(** ** The parser state *)

Record JsonParser := mkParser {
  start : chars;
  cur : chars;
  error : chars   (* the contents of [char error[128]] up to its NUL *)
}.

Definition set_cur (p : JsonParser) (c : chars) : JsonParser :=
  mkParser (start p) c (error p).

Definition set_error (p : JsonParser) (e : chars) : JsonParser :=
  mkParser (start p) (cur p) e.

(** [snprintf (parser->error, 128, "%s near %.32s", message, parser->cur)],
    done only while [error[0]] is NUL. *)
Definition json_error (p : JsonParser) (message : chars) : JsonParser :=
  if Ascii.eqb (deref (error p)) NUL then
    set_error p
      (firstn 127 (c_str message ++ lit " near " ++ firstn 32 (c_str (cur p))))
  else p.

Definition json_peek (p : JsonParser) : ascii := deref (cur p).

Definition json_next (p : JsonParser) : ascii * JsonParser :=
  if Ascii.eqb (deref (cur p)) NUL then (NUL, p)
  else (deref (cur p), set_cur p (advance (cur p))).

(** [snprintf (msg, 64, "Expected '%c'", ch)] followed by [json_error]. *)
Definition json_expect (p : JsonParser) (ch : ascii) : JsonParser :=
  let '(c, p) := json_next p in
  if negb (Ascii.eqb c ch) then
    json_error p (lit "Expected '" ++ [ch] ++ lit "'")
  else p.

Fixpoint skip_ws (s : chars) : chars :=
  match s with
  | [] => []
  | c :: s' => if is_ws c then skip_ws s' else s
  end.

Definition json_skip_ws (p : JsonParser) : JsonParser :=
  set_cur p (skip_ws (cur p)).

(** ** String literals *)

(** The [for] loop of the [u] case: [n] times
    [buffer[length++] = json_next (parser)]. *)
Fixpoint copy_next (n : nat) (buffer : chars) (p : JsonParser)
  : chars * JsonParser :=
  match n with
  | O => (buffer, p)
  | S n' =>
      let '(c, p) := json_next p in
      copy_next n' (buffer ++ [c]) p
  end.

(** The [while] loop of [json_parse_string_literal]. The result is
    [Some buffer] when the loop condition ends it and [None] when the body
    returns NULL; the outer [option] is [None] when [fuel] iterations did
    not suffice. *)
Fixpoint json_string_loop (fuel : nat) (buffer : chars) (p : JsonParser)
  : option (option chars * JsonParser) :=
  if (negb (Ascii.eqb (deref (cur p)) NUL)
      && negb (Ascii.eqb (deref (cur p)) DQUOTE))%bool then
    match fuel with
    | O => None
    | S fuel' =>
        let '(ch, p) := json_next p in
        if Ascii.eqb ch BACKSLASH then
          let '(ch, p) := json_next p in
          if Ascii.eqb ch NUL then
            Some (None, json_error p (lit "Unterminated escape sequence"))
          else if (Ascii.eqb ch DQUOTE || Ascii.eqb ch BACKSLASH
                   || Ascii.eqb ch "/")%bool
          then json_string_loop fuel' (buffer ++ [ch]) p
          else if Ascii.eqb ch "b" then
            json_string_loop fuel' (buffer ++ [BS]) p
          else if Ascii.eqb ch "f" then
            json_string_loop fuel' (buffer ++ [FF]) p
          else if Ascii.eqb ch "n" then
            json_string_loop fuel' (buffer ++ [LF]) p
          else if Ascii.eqb ch "r" then
            json_string_loop fuel' (buffer ++ [CR]) p
          else if Ascii.eqb ch "t" then
            json_string_loop fuel' (buffer ++ [TAB]) p
          else if Ascii.eqb ch "u" then
            let '(buffer, p) := copy_next 4 (buffer ++ [BACKSLASH; "u"]) p in
            json_string_loop fuel' buffer p
          else Some (None, json_error p (lit "Invalid escape sequence"))
        else json_string_loop fuel' (buffer ++ [ch]) p
    end
  else Some (Some buffer, p).

Definition json_parse_string_literal (fuel : nat) (p : JsonParser)
  : option (option chars * JsonParser) :=
  let p := json_expect p DQUOTE in
  match json_string_loop fuel [] p with
  | None => None
  | Some (None, p) => Some (None, p)
  | Some (Some buffer, p) =>
      if negb (Ascii.eqb (json_peek p) DQUOTE) then
        Some (None, json_error p (lit "Unterminated string literal"))
      else
        let p := json_expect p DQUOTE in
        Some (Some buffer, p)
  end.

(** ** Numbers and literals *)

Fixpoint skip_digits (s : chars) : chars :=
  match s with
  | [] => []
  | c :: s' => if is_digit c then skip_digits s' else s
  end.

(** Where [json_parse_number] leaves the cursor. *)
Definition number_end (s : chars) : chars :=
  let s := if Ascii.eqb (deref s) "-" then advance s else s in
  let s := skip_digits s in
  let s := if Ascii.eqb (deref s) "." then skip_digits (advance s) else s in
  if (Ascii.eqb (deref s) "e" || Ascii.eqb (deref s) "E")%bool then
    let s := advance s in
    let s :=
      if (Ascii.eqb (deref s) "+" || Ascii.eqb (deref s) "-")%bool
      then advance s else s in
    skip_digits s
  else s.

Definition json_parse_number (p : JsonParser) : option JsonValue * JsonParser :=
  let start := cur p in
  let p := set_cur p (number_end (cur p)) in
  let length := (List.length start - List.length (cur p))%nat in
  let buffer := firstn length start in
  let number := strtod buffer in
  let value := json_make_value JSON_NUMBER in
  (Some (set_number value number), p).

Definition json_parse_literal (p : JsonParser) (literal : chars)
    (t : JsonType) (boolValue : Z) : option JsonValue * JsonParser :=
  let len := List.length literal in
  if negb (strncmp_eq0 (cur p) literal) then
    (None, json_error p (lit "Unexpected literal"))
  else
    let p := set_cur p (skipn len (cur p)) in
    let value := json_make_value t in
    let value := if JsonType_eqb t JSON_BOOL then set_boolean value boolValue
                 else value in
    (Some value, p).

(** ** Arrays, objects and values *)

Section Containers.

(** [json_parse_value] at the recursion depth left to the callers. *)
Variable parse_value : JsonParser -> option (option JsonValue * JsonParser).

(** The [while (1)] loop of [json_parse_array] together with the three
    statements that follow its [break]. *)
Fixpoint json_array_loop (fuel : nat) (array : JsonValue) (p : JsonParser)
  : option (option JsonValue * JsonParser) :=
  match fuel with
  | O => None
  | S fuel' =>
      let p := json_skip_ws p in
      match parse_value p with
      | None => None
      | Some (None, p) =>
          Some (Some array, json_error p (lit "Invalid array item"))
      | Some (Some item, p) =>
          let array := json_array_push array item in
          let p := json_skip_ws p in
          if Ascii.eqb (json_peek p) "," then
            json_array_loop fuel' array (json_expect p ",")
          else
            let p := if negb (Ascii.eqb (json_peek p) "]")
                     then json_error p (lit "Unterminated array") else p in
            let p := json_expect p "]" in
            Some (Some array, p)
      end
  end.

Definition json_parse_array (fuel : nat) (p : JsonParser)
  : option (option JsonValue * JsonParser) :=
  let p := json_expect p "[" in
  let array := json_make_value JSON_ARRAY in
  let p := json_skip_ws p in
  if Ascii.eqb (json_peek p) "]" then
    let p := json_expect p "]" in
    Some (Some array, p)
  else json_array_loop fuel array p.

(** The [while (1)] loop of [json_parse_object] together with the
    statements that follow its [break]. *)
Fixpoint json_object_loop (fuel : nat) (object : JsonValue) (p : JsonParser)
  : option (option JsonValue * JsonParser) :=
  match fuel with
  | O => None
  | S fuel' =>
      let p := json_skip_ws p in
      if negb (Ascii.eqb (json_peek p) DQUOTE) then
        Some (Some object, json_error p (lit "Expected string key"))
      else
        match json_parse_string_literal fuel' p with
        | None => None
        | Some (key, p) =>
            let p := json_skip_ws p in
            let p := json_expect p ":" in
            let p := json_skip_ws p in
            match parse_value p with
            | None => None
            | Some (None, p) =>
                Some (Some object, json_error p (lit "Invalid object value"))
            | Some (Some value, p) =>
                let object := json_object_put object key value in
                let p := json_skip_ws p in
                if Ascii.eqb (json_peek p) "," then
                  json_object_loop fuel' object (json_expect p ",")
                else
                  let p := if negb (Ascii.eqb (json_peek p) "}")
                           then json_error p (lit "Unterminated object")
                           else p in
                  let p := json_expect p "}" in
                  Some (Some object, p)
            end
        end
  end.

Definition json_parse_object (fuel : nat) (p : JsonParser)
  : option (option JsonValue * JsonParser) :=
  let p := json_expect p "{" in
  let object := json_make_value JSON_OBJECT in
  let p := json_skip_ws p in
  if Ascii.eqb (json_peek p) "}" then
    let p := json_expect p "}" in
    Some (Some object, p)
  else json_object_loop fuel object p.

End Containers.

(** [json_parse_value]. [fuel] bounds the nesting depth and the number of
    iterations of every loop below; the outer [option] is [None] only when
    it runs out, which [fuel > length (cur p)] excludes
    (see [json_parse_value_total]). *)
Fixpoint json_parse_value (fuel : nat) (p : JsonParser)
  : option (option JsonValue * JsonParser) :=
  match fuel with
  | O => None
  | S fuel' =>
      let p := json_skip_ws p in
      let ch := json_peek p in
      if Ascii.eqb ch DQUOTE then
        match json_parse_string_literal fuel' p with
        | None => None
        | Some (None, p) => Some (None, p)
        | Some (Some text, p) =>
            let value := json_make_value JSON_STRING in
            Some (Some (set_string value (Some text)), p)
        end
      else if Ascii.eqb ch "{" then
        json_parse_object (json_parse_value fuel') fuel' p
      else if Ascii.eqb ch "[" then
        json_parse_array (json_parse_value fuel') fuel' p
      else if Ascii.eqb ch "t" then
        Some (json_parse_literal p (lit "true") JSON_BOOL 1)
      else if Ascii.eqb ch "f" then
        Some (json_parse_literal p (lit "false") JSON_BOOL 0)
      else if Ascii.eqb ch "n" then
        Some (json_parse_literal p (lit "null") JSON_NULL 0)
      else if (Ascii.eqb ch "-" || is_digit ch)%bool then
        Some (json_parse_number p)
      else
        Some (None, json_error p (lit "Unexpected character"))
  end.

(** [json_parse]: the pointer it returns and what it writes to [stderr]. *)
Definition json_parse (text : chars) : option JsonValue * chars :=
  let parser := mkParser text text [] in
  match json_parse_value (S (List.length text)) parser with
  | None => (None, [])
  | Some (value, parser) =>
      if (match value with None => true | Some _ => false end
          || negb (Ascii.eqb (deref (error parser)) NUL))%bool then
        (None,
         lit "JSON parse error: "
         ++ (if negb (Ascii.eqb (deref (error parser)) NUL)
             then error parser else lit "unknown")
         ++ [LF])
      else
        let parser := json_skip_ws parser in
        if negb (Ascii.eqb (deref (cur parser)) NUL) then
          (None, lit "JSON parse error: trailing characters" ++ [LF])
        else (value, [])
  end.

(** ** Accessors *)

(** The [for] loop of [json_object_get]; [strcmp] reads through the stored
    key pointer. *)
Fixpoint json_object_find (entries : list (option chars * JsonValue))
    (key : chars) : behaviour (option JsonValue) :=
  match entries with
  | [] => Ok None
  | (k, v) :: entries' =>
      match k with
      | None => UB
      | Some k =>
          if (strcmp k key =? 0)%Z then Ok (Some v)
          else json_object_find entries' key
      end
  end.

Definition json_object_get (objectValue : option JsonValue) (key : chars)
  : behaviour (option JsonValue) :=
  match objectValue with
  | None => Ok None
  | Some v =>
      if negb (JsonType_eqb (type v) JSON_OBJECT) then Ok None
      else match v with
           | JObject entries => json_object_find entries key
           | _ => Ok None
           end
  end.

Definition json_get_string (value : option JsonValue)
    (defaultValue : option chars) : option chars :=
  match value with
  | None => defaultValue
  | Some v =>
      if JsonType_eqb (type v) JSON_STRING then
        match v with
        | JString (Some s) => Some s
        | _ => defaultValue
        end
      else defaultValue
  end.

Definition json_get_number (value : option JsonValue) (defaultValue : double)
  : double :=
  match value with
  | None => defaultValue
  | Some v =>
      if JsonType_eqb (type v) JSON_NUMBER then
        match v with
        | JNumber d => d
        | _ => defaultValue
        end
      else defaultValue
  end.

Definition json_get_bool (value : option JsonValue) (defaultValue : Z) : Z :=
  match value with
  | None => defaultValue
  | Some v =>
      if JsonType_eqb (type v) JSON_BOOL then
        match v with
        | JBool b => b
        | _ => defaultValue
        end
      else defaultValue
  end.

(** [size_t] values are [N]. *)
Definition json_array_size (value : option JsonValue) : N :=
  match value with
  | None => 0%N
  | Some v =>
      if negb (JsonType_eqb (type v) JSON_ARRAY) then 0%N
      else match v with
           | JArray items => N.of_nat (List.length items)
           | _ => 0%N
           end
  end.

Definition json_array_get (value : option JsonValue) (index : N)
  : option JsonValue :=
  match value with
  | None => None
  | Some v =>
      if negb (JsonType_eqb (type v) JSON_ARRAY) then None
      else match v with
           | JArray items =>
               if (N.of_nat (List.length items) <=? index)%N then None
               else nth_error items (N.to_nat index)
           | _ => None
           end
  end.

(** ** The buffer of a string literal *)

(** [json_parse_string_literal] once more, this time with the buffer as
    the code has it: the characters stored so far ([length] of them) and
    the [capacity] last asked of the allocator. A store at an index that is
    not below the capacity is undefined behaviour. Sizes are natural
    numbers: they stay below twice the length of the input plus 64. *)
Record StringBuffer := mkBuffer {
  stored : chars;
  capacity : nat
}.

Definition bindB {A B : Type} (x : behaviour A) (f : A -> behaviour B)
  : behaviour B :=
  match x with
  | Ok a => f a
  | UB => UB
  end.

(** [buffer[length++] = c]. *)
Definition store (b : StringBuffer) (c : ascii) : behaviour StringBuffer :=
  if (List.length (stored b) <? capacity b)%nat
  then Ok (mkBuffer (stored b ++ [c]) (capacity b))
  else UB.

(** [if (length + need >= capacity) capacity *= 2], followed by the
    [realloc], which keeps the characters. *)
Definition grow_if (b : StringBuffer) (need : nat) : StringBuffer :=
  if (capacity b <=? List.length (stored b) + need)%nat
  then mkBuffer (stored b) (capacity b * 2)
  else b.

Fixpoint copy_next_checked (n : nat) (b : StringBuffer) (p : JsonParser)
  : behaviour (StringBuffer * JsonParser) :=
  match n with
  | O => Ok (b, p)
  | S n' =>
      let '(c, p) := json_next p in
      bindB (store b c) (fun b => copy_next_checked n' b p)
  end.

(** What one iteration of the loop leaves: the state of the next one, or
    the result of the loop. *)
Inductive checked_step :=
| ContinueC (b : StringBuffer) (p : JsonParser)
| ExitC (r : option StringBuffer * JsonParser).

(** The body of the [while] loop. *)
Definition string_body_checked (b : StringBuffer) (p : JsonParser)
  : behaviour checked_step :=
  let append (ch : ascii) (p : JsonParser) :=
    bindB (store (grow_if b 2) ch) (fun b => Ok (ContinueC b p)) in
  let '(ch, p) := json_next p in
  if Ascii.eqb ch BACKSLASH then
    let '(ch, p) := json_next p in
    if Ascii.eqb ch NUL then
      Ok (ExitC (None, json_error p (lit "Unterminated escape sequence")))
    else if (Ascii.eqb ch DQUOTE || Ascii.eqb ch BACKSLASH
             || Ascii.eqb ch "/")%bool
    then append ch p
    else if Ascii.eqb ch "b" then append BS p
    else if Ascii.eqb ch "f" then append FF p
    else if Ascii.eqb ch "n" then append LF p
    else if Ascii.eqb ch "r" then append CR p
    else if Ascii.eqb ch "t" then append TAB p
    else if Ascii.eqb ch "u" then
      bindB (store (grow_if b 6) BACKSLASH) (fun b =>
      bindB (store b "u") (fun b =>
      bindB (copy_next_checked 4 b p) (fun bp =>
      Ok (ContinueC (fst bp) (snd bp)))))
    else Ok (ExitC (None, json_error p (lit "Invalid escape sequence")))
  else append ch p.

Fixpoint json_string_loop_checked (fuel : nat) (b : StringBuffer)
    (p : JsonParser)
  : option (behaviour (option StringBuffer * JsonParser)) :=
  if (negb (Ascii.eqb (deref (cur p)) NUL)
      && negb (Ascii.eqb (deref (cur p)) DQUOTE))%bool then
    match fuel with
    | O => None
    | S fuel' =>
        match string_body_checked b p with
        | UB => Some UB
        | Ok (ContinueC b p) => json_string_loop_checked fuel' b p
        | Ok (ExitC r) => Some (Ok r)
        end
    end
  else Some (Ok (Some b, p)).

Definition json_parse_string_literal_checked (fuel : nat) (p : JsonParser)
  : option (behaviour (option chars * JsonParser)) :=
  let p := json_expect p DQUOTE in
  match json_string_loop_checked fuel (mkBuffer [] 32) p with
  | None => None
  | Some UB => Some UB
  | Some (Ok (None, p)) => Some (Ok (None, p))
  | Some (Ok (Some b, p)) =>
      if negb (Ascii.eqb (json_peek p) DQUOTE) then
        Some (Ok (None, json_error p (lit "Unterminated string literal")))
      else
        let p := json_expect p DQUOTE in
        (* buffer[length] = 0 *)
        if (List.length (stored b) <? capacity b)%nat
        then Some (Ok (Some (stored b), p))
        else Some UB
  end.

(** ** [html_escape] *)

(** The [switch] of [html_escape]: the replacement of a character, NULL
    for the characters that are copied. *)
Definition replacement (ch : ascii) : option chars :=
  if Ascii.eqb ch "&" then Some (lit "&amp;")
  else if Ascii.eqb ch "<" then Some (lit "&lt;")
  else if Ascii.eqb ch ">" then Some (lit "&gt;")
  else if Ascii.eqb ch DQUOTE then Some (lit "&quot;")
  else None.

(** [memcpy (buffer + idx, s, strlen (s)); idx += strlen (s)]: the bytes
    written have to lie below the capacity. *)
Definition store_all (b : StringBuffer) (s : chars)
  : behaviour StringBuffer :=
  if (List.length (stored b) + List.length (c_str s) <=? capacity b)%nat
  then Ok (mkBuffer (stored b ++ c_str s) (capacity b))
  else UB.

(** The [for] loop of [html_escape] over the characters of the text;
    [idx] is the number of characters stored. *)
Fixpoint html_escape_loop (text : chars) (b : StringBuffer)
  : behaviour StringBuffer :=
  match text with
  | [] => Ok b
  | ch :: text' =>
      let idx := List.length (stored b) in
      match replacement ch with
      | Some rep =>
          let repLen := List.length (c_str rep) in
          let b :=
            if (capacity b <? idx + repLen + 1)%nat
            then mkBuffer (stored b) ((capacity b + repLen + 16) * 2)
            else b in
          bindB (store_all b rep) (html_escape_loop text')
      | None =>
          let b :=
            if (capacity b <? idx + 2)%nat
            then mkBuffer (stored b) ((capacity b + 16) * 2)
            else b in
          bindB (store b ch) (html_escape_loop text')
      end
  end.

(** The buffer starts with [capacity = length + 1]. *)
Definition html_escape (text : chars) : behaviour chars :=
  let length := List.length (c_str text) in
  bindB (html_escape_loop (c_str text) (mkBuffer [] (length + 1))) (fun b =>
    (* buffer[idx] = 0 *)
    if (List.length (stored b) <? capacity b)%nat
    then Ok (stored b) else UB).

(** ** The lists of the report *)

(** C integers: a result outside the range of a signed type is undefined
    behaviour. *)
Definition INT_MAX : Z := 2 ^ 31 - 1.
Definition INT_MIN : Z := - 2 ^ 31.

Definition int (z : Z) : behaviour Z :=
  if ((INT_MIN <=? z) && (z <=? INT_MAX))%Z then Ok z else UB.


(** [LanguageEntry]; [language] is the copy [strdup] made, [bytes] a
    [long long]. *)
Record LanguageEntry := mkLanguage {
  language : chars;
  bytes : Z;
  share : double
}.

(** [RepoEntry]; the texts are the copies [dup_or_empty] made, [stars] and
    [forks] are [int]. The field [language] of the code is
    [repo_language] here. *)
Record RepoEntry := mkRepo {
  name : chars;
  description : chars;
  repo_language : chars;
  url : chars;
  updated_at : chars;
  stars : Z;
  forks : Z
}.

(** [ContributionPoint]. *)
Record ContributionPoint := mkPoint {
  date : chars;
  count : Z
}.



(** [contribution_list_push]; [date] is copied by [strdup]. *)
Definition contribution_list_push (items : list ContributionPoint)
    (date : chars) (count : Z) : list ContributionPoint :=
  items ++ [mkPoint (c_str date) count].

(** [trim_contributions]: the [memmove] brings the last [maxCount] items
    to the front and [size] becomes [maxCount]. *)
Definition trim_contributions (items : list ContributionPoint)
    (maxCount : nat) : list ContributionPoint :=
  if (List.length items <=? maxCount)%nat then items
  else
    let offset := (List.length items - maxCount)%nat in
    firstn (List.length items - offset) (skipn offset items).

(** [compare_repos], the order [qsort] is given for the repositories. *)
Definition compare_repos (a b : RepoEntry) : behaviour Z :=
  if negb (stars b =? stars a)%Z then int (stars b - stars a)
  else if negb (forks b =? forks a)%Z then int (forks b - forks a)
  else Ok (strcmp (name a) (name b)).

(** [compare_languages], the order [qsort] is given for the languages. *)
Definition compare_languages (a b : LanguageEntry) : Z :=
  if (bytes a <? bytes b)%Z then 1%Z
  else if (bytes b <? bytes a)%Z then (-1)%Z
  else strcmp (language a) (language b).

(** ** Reading the answer of the API *)

(** A conversion from [double] to an integer type drops the fraction; it
    is undefined behaviour for a NaN, an infinity and a value whose
    integral part the type does not hold. *)
Definition truncate (d : double) : option Z :=
  match d with
  | S754_zero _ => Some 0%Z
  | S754_finite s m e =>
      let magnitude :=
        if (0 <=? e)%Z then (Zpos m * 2 ^ e)%Z
        else (Zpos m / 2 ^ (- e))%Z in
      Some (if s then (- magnitude)%Z else magnitude)
  | _ => None
  end.


Definition to_int (d : double) : behaviour Z :=
  match truncate d with
  | Some z => int z
  | None => UB
  end.




(** The body of the inner [for] loop of [extract_contributions] at one
    [day]. *)
Definition extract_contributions_day (points : list ContributionPoint)
    (day : JsonValue) : behaviour (list ContributionPoint) :=
  if negb (JsonType_eqb (type day) JSON_OBJECT) then Ok points
  else
    bindB (json_object_get (Some day) (lit "date")) (fun dateVal =>
    bindB (json_object_get (Some day) (lit "contributionCount"))
      (fun countVal =>
    bindB (to_int (json_get_number countVal (S754_zero false)))
      (fun count =>
         match json_get_string dateVal (Some []) with
         | None => UB
         | Some date => Ok (contribution_list_push points date count)
         end))).

Fixpoint extract_contributions_days (points : list ContributionPoint)
    (items : list JsonValue) : behaviour (list ContributionPoint) :=
  match items with
  | [] => Ok points
  | day :: items' =>
      bindB (extract_contributions_day points day) (fun points' =>
        extract_contributions_days points' items')
  end.

(** The body of the outer [for] loop at one [week]. *)
Definition extract_contributions_week (points : list ContributionPoint)
    (week : JsonValue) : behaviour (list ContributionPoint) :=
  bindB (json_object_get (Some week) (lit "contributionDays"))
    (fun daysVal =>
       match daysVal with
       | Some (JArray items) => extract_contributions_days points items
       | _ => Ok points
       end).

Fixpoint extract_contributions_weeks (points : list ContributionPoint)
    (items : list JsonValue) : behaviour (list ContributionPoint) :=
  match items with
  | [] => Ok points
  | week :: items' =>
      bindB (extract_contributions_week points week) (fun points' =>
        extract_contributions_weeks points' items')
  end.

(** [extract_contributions]; [points] is the [list] of the code. *)
Definition extract_contributions (points : list ContributionPoint)
    (calendarVal : option JsonValue) : behaviour (list ContributionPoint) :=
  match calendarVal with
  | None => Ok points
  | Some obj =>
      if negb (JsonType_eqb (type obj) JSON_OBJECT) then Ok points
      else
        bindB (json_object_get calendarVal (lit "weeks")) (fun weeksVal =>
          match weeksVal with
          | Some (JArray items) => extract_contributions_weeks points items
          | _ => Ok points
          end)
  end.

(** ** The request *)

(** The lines of the [query] of [build_graphql_payload]; in the code each
    of them ends in a newline. *)
Definition query_lines : list string := [
  "query ($login: String!) {";
  "  user(login: $login) {";
  "    login";
  "    name";
  "    avatarUrl";
  "    bio";
  "    location";
  "    websiteUrl";
  "    followers { totalCount }";
  "    following { totalCount }";
  ("    repositoriesTotal: repositories(ownerAffiliations: OWNER,"
   ++ " privacy: PUBLIC) { totalCount }");
  ("    repositories(first: 100, ownerAffiliations: OWNER,"
   ++ " privacy: PUBLIC, orderBy: {field: STARGAZERS, direction: DESC})"
   ++ " {");
  "      nodes {";
  "        name";
  "        description";
  "        stargazerCount";
  "        forkCount";
  "        url";
  "        updatedAt";
  "        isFork";
  "        primaryLanguage { name }";
  ("        languages(first: 10, orderBy: {field: SIZE,"
   ++ " direction: DESC}) {");
  "          edges { size node { name } }";
  "        }";
  "      }";
  "    }";
  "    contributionsCollection {";
  "      contributionCalendar {";
  "        totalContributions";
  "        weeks {";
  "          contributionDays { date contributionCount }";
  "        }";
  "      }";
  "    }";
  "  }";
  "}"
]%string.

Definition query : chars :=
  concat (map (fun line => lit line ++ [LF]) query_lines).

(** What the format of the [snprintf] gives for the two strings. *)
Definition payload_format (query username : chars) : chars :=
  lit "{" ++ [DQUOTE] ++ lit "query" ++ [DQUOTE] ++ lit ":"
  ++ [DQUOTE] ++ c_str query ++ [DQUOTE] ++ lit ","
  ++ [DQUOTE] ++ lit "variables" ++ [DQUOTE] ++ lit ":{"
  ++ [DQUOTE] ++ lit "login" ++ [DQUOTE] ++ lit ":"
  ++ [DQUOTE] ++ c_str username ++ [DQUOTE] ++ lit "}}".

(** [snprintf (buffer, size, ...)] stores the first [size - 1] characters
    of the formatted text and the terminator. *)
Definition snprintf (size : nat) (formatted : chars) : chars :=
  firstn (size - 1) formatted.

(** The first loop over the payload. *)
Fixpoint count_newlines (payload : chars) : nat :=
  match payload with
  | [] => 0
  | c :: payload' =>
      if Ascii.eqb c LF then S (count_newlines payload')
      else count_newlines payload'
  end.

(** The second loop; [j] is the number of characters stored in
    [expanded]. *)
Fixpoint expand_newlines (payload : chars) (expanded : StringBuffer)
  : behaviour StringBuffer :=
  match payload with
  | [] => Ok expanded
  | c :: payload' =>
      if Ascii.eqb c LF then
        bindB (store expanded BACKSLASH) (fun expanded =>
        bindB (store expanded "n") (expand_newlines payload'))
      else
        bindB (store expanded c) (expand_newlines payload')
  end.

(** [build_graphql_payload]. *)
Definition build_graphql_payload (username : chars) : behaviour chars :=
  let payload_size :=
    List.length (c_str query) + List.length (c_str username) + 128 in
  let payload := snprintf payload_size (payload_format query username) in
  let len := List.length (c_str payload) in
  let extra := count_newlines (c_str payload) in
  if (extra =? 0)%nat then Ok (c_str payload)
  else
    bindB (expand_newlines (c_str payload) (mkBuffer [] (len + extra + 1)))
      (fun expanded =>
         (* expanded[j] = 0 *)
         if (List.length (stored expanded) <? capacity expanded)%nat
         then Ok (stored expanded) else UB).

(** ** The repositories of the answer *)





(** ** The number grammar of the design document *)

Definition nonempty (s : chars) : bool :=
  match s with
  | [] => false
  | _ => true
  end.

(** A recogniser for
    ['-'? digits ('.' digits)? (('e'|'E') ('+'|'-')? digits)?]
    where [run_ok] says which runs of digits are allowed. Every choice of
    the grammar is decided by the next character, so taking the longest run
    of digits each time recognises exactly the language. *)
Definition number_grammar (run_ok : chars -> bool) (t : chars) : bool :=
  let t := if Ascii.eqb (deref t) "-" then advance t else t in
  let '(ip, t) := span_digits t in
  let '(frac_ok, t) :=
    if Ascii.eqb (deref t) "." then
      let '(fp, t) := span_digits (advance t) in (run_ok fp, t)
    else (true, t) in
  let '(exp_ok, t) :=
    if (Ascii.eqb (deref t) "e" || Ascii.eqb (deref t) "E")%bool then
      let t := advance t in
      let t :=
        if (Ascii.eqb (deref t) "+" || Ascii.eqb (deref t) "-")%bool
        then advance t else t in
      let '(ed, t) := span_digits t in (run_ok ed, t)
    else (true, t) in
  (run_ok ip && frac_ok && exp_ok && negb (nonempty t))%bool.

(** The grammar as the design document words it: every run is [digit+]. *)
Definition spec_number : chars -> bool := number_grammar nonempty.

(** The same grammar with every run [digit*]. *)
Definition lax_number : chars -> bool := number_grammar (fun _ => true).

(** ** Vocabulary of the statements *)

(** The error slot holds a message. *)
Definition latched (p : JsonParser) : bool :=
  negb (Ascii.eqb (deref (error p)) NUL).

(** The state [json_parse] starts from. *)
Definition initial (text : chars) : JsonParser := mkParser text text [].

(** A string literal: the body between two quotes. *)
Definition quoted (body : chars) : chars := DQUOTE :: body ++ [DQUOTE].

(** A character that stands for itself inside a string literal. *)
Definition is_plain (c : ascii) : bool :=
  (negb (Ascii.eqb c NUL) && negb (Ascii.eqb c DQUOTE)
   && negb (Ascii.eqb c BACKSLASH))%bool.

(** A character of a token: neither whitespace nor the terminator. *)
Definition is_token_char (c : ascii) : bool :=
  (negb (Ascii.eqb c NUL) && negb (is_ws c))%bool.

(** The eight single-character escapes and the byte each stands for. *)
Definition escape_table : list (ascii * ascii) :=
  [ (DQUOTE, DQUOTE); (BACKSLASH, BACKSLASH); ("/", "/");
    ("b", BS); ("f", FF); ("n", LF); ("r", CR); ("t", TAB) ].

(** The characters after a backslash that the [switch] of
    [json_parse_string_literal] has a case for. *)
Definition is_escape (e : ascii) : bool :=
  (existsb (fun x => Ascii.eqb e (fst x)) escape_table || Ascii.eqb e "u")%bool.

(** The body of a string literal decoded as the design document words it:
    a byte other than the quote and the backslash stands for itself, each
    of the eight escapes for its single byte, a [u] escape and the four
    characters after it for these six characters, and any other character
    after a backslash is an error. *)
Fixpoint unescape (body : chars) : option chars :=
  match body with
  | [] => Some []
  | c :: body1 =>
      if Ascii.eqb c BACKSLASH then
        match body1 with
        | [] => None
        | e :: body2 =>
            if Ascii.eqb e "u" then
              match body2 with
              | c1 :: c2 :: c3 :: c4 :: rest =>
                  if existsb (fun x => Ascii.eqb x NUL) [c1; c2; c3; c4]
                  then None
                  else option_map (app [BACKSLASH; "u"; c1; c2; c3; c4])
                                  (unescape rest)
              | _ => None
              end
            else
              match find (fun x => Ascii.eqb (fst x) e) escape_table with
              | Some (_, r) => option_map (cons r) (unescape body2)
              | None => None
              end
        end
      else if is_plain c then option_map (cons c) (unescape body1)
      else None
  end.

(** A tree without null text pointers: what a parse that reported no error
    returns (see [json_parse_well_formed]). *)
Fixpoint well_formed (v : JsonValue) : bool :=
  match v with
  | JString s => match s with Some _ => true | None => false end
  | JArray items => forallb well_formed items
  | JObject entries =>
      forallb (fun e => match e with
                        | (Some _, x) => well_formed x
                        | (None, _) => false
                        end) entries
  | _ => true
  end.

(** [p'] is a later state of the same parse as [p]: the cursor has not
    moved back and a latched message is still the one in the slot. *)
Definition ext (p p' : JsonParser) : Prop :=
  List.length (cur p') <= List.length (cur p)
  /\ (latched p = true -> error p' = error p).

(** What every production guarantees about the string pointer it returns
    and the state it leaves. *)
Definition string_post (p : JsonParser) (r : option chars * JsonParser)
  : Prop :=
  ext p (snd r)
  /\ (fst r = None -> latched (snd r) = true).

(** What every production guarantees about the value pointer it returns and
    the state it leaves: NULL comes with a latched message, a value comes
    with consumed input, and a value delivered with an empty slot has no
    null text pointer in it. *)
Definition value_post (p : JsonParser) (r : option JsonValue * JsonParser)
  : Prop :=
  ext p (snd r)
  /\ (fst r = None -> latched (snd r) = true)
  /\ (fst r <> None -> List.length (cur (snd r)) < List.length (cur p))
  /\ (latched (snd r) = false ->
      forall v, fst r = Some v -> well_formed v = true).

(** The doubles the examples of the design document mention. *)
Definition double_1 : double := S754_finite false 4503599627370496 (-52).
Definition double_2 : double := S754_finite false 4503599627370496 (-51).
Definition double_42 : double := S754_finite false 5910974510923776 (-47).
Definition double_minus_350 : double :=
  S754_finite true 6157265115545600 (-44).

(** ** Vocabulary of the proofs *)

(** What the two loops guarantee: they return the container, and it has
    no null text pointer when the slot is still empty at the end. *)
Definition loop_post (p : JsonParser) (r : option JsonValue * JsonParser)
  : Prop :=
  ext p (snd r)
  /\ fst r <> None
  /\ (latched (snd r) = false ->
      forall v, fst r = Some v -> well_formed v = true).

(** One iteration of the loop of [json_parse_string_literal]: the state the
    next iteration starts from, or what the loop delivers. *)
Inductive loop_step :=
| Continue (buffer : chars) (p : JsonParser)
| Exit (r : option chars * JsonParser).

Definition string_step (buffer : chars) (p : JsonParser) : loop_step :=
  if (negb (Ascii.eqb (deref (cur p)) NUL)
      && negb (Ascii.eqb (deref (cur p)) DQUOTE))%bool then
    let '(ch, p) := json_next p in
    if Ascii.eqb ch BACKSLASH then
      let '(ch, p) := json_next p in
      if Ascii.eqb ch NUL then
        Exit (None, json_error p (lit "Unterminated escape sequence"))
      else if (Ascii.eqb ch DQUOTE || Ascii.eqb ch BACKSLASH
               || Ascii.eqb ch "/")%bool
      then Continue (buffer ++ [ch]) p
      else if Ascii.eqb ch "b" then Continue (buffer ++ [BS]) p
      else if Ascii.eqb ch "f" then Continue (buffer ++ [FF]) p
      else if Ascii.eqb ch "n" then Continue (buffer ++ [LF]) p
      else if Ascii.eqb ch "r" then Continue (buffer ++ [CR]) p
      else if Ascii.eqb ch "t" then Continue (buffer ++ [TAB]) p
      else if Ascii.eqb ch "u" then
        let '(buffer, p) := copy_next 4 (buffer ++ [BACKSLASH; "u"]) p in
        Continue buffer p
      else Exit (None, json_error p (lit "Invalid escape sequence"))
    else Continue (buffer ++ [ch]) p
  else Exit (Some buffer, p).

(** The loop run to its end. *)
Definition string_run (buffer : chars) (p : JsonParser)
  : option (option chars * JsonParser) :=
  json_string_loop (List.length (cur p)) buffer p.

(** A key that is stored and differs from the one looked up. *)
Definition other_key (key : chars) (e : option chars * JsonValue) : Prop :=
  exists k, fst e = Some k /\ c_str k <> c_str key.

(** Inside a literal, [body] is consumed and [out] is appended to the
    buffer, whatever precedes and follows. *)
Definition resolves (body out : chars) : Prop :=
  forall st err buffer rest,
    string_run buffer (mkParser st (body ++ rest) err)
    = string_run (buffer ++ out) (mkParser st rest err).

(** The stages of the scan of [json_parse_number]. *)
Definition skip_sign (s : chars) : chars :=
  if Ascii.eqb (deref s) "-" then advance s else s.

Definition skip_frac (s : chars) : chars :=
  if Ascii.eqb (deref s) "." then skip_digits (advance s) else s.

Definition skip_exp (s : chars) : chars :=
  if (Ascii.eqb (deref s) "e" || Ascii.eqb (deref s) "E")%bool then
    let s := advance s in
    let s :=
      if (Ascii.eqb (deref s) "+" || Ascii.eqb (deref s) "-")%bool
      then advance s else s in
    skip_digits s
  else s.

(** [r] is what is left of [s] after a prefix was consumed. *)
Definition suffix (r s : chars) : Prop := exists pre, s = pre ++ r.

(** A character a number can contain. *)
Definition number_char (c : ascii) : bool :=
  (is_digit c || Ascii.eqb c "-" || Ascii.eqb c "+" || Ascii.eqb c "."
   || Ascii.eqb c "e" || Ascii.eqb c "E")%bool.

(** The three literals [json_parse_value] knows and the value each gives. *)
Definition literal_table : list (chars * JsonValue) :=
  [ (lit "true", JBool 1); (lit "false", JBool 0); (lit "null", JNull) ].

(** What the buffer of a string literal keeps true between two stores:
    there is room for one more character, and the capacity is at least the
    initial one. *)
Definition buffer_ok (b : StringBuffer) : Prop :=
  List.length (stored b) < capacity b /\ 32 <= capacity b.

(** What [html_escape] puts in place of one character. *)
Definition escape_char (ch : ascii) : chars :=
  match replacement ch with
  | Some rep => rep
  | None => [ch]
  end.

(** The text [html_escape] returns, character by character. *)
Definition escaped (text : chars) : chars := flat_map escape_char text.

(** A character that ends an attribute value or opens or closes a tag. *)
Definition is_markup (c : ascii) : bool :=
  (Ascii.eqb c "<" || Ascii.eqb c ">" || Ascii.eqb c DQUOTE)%bool.

(** The four entities [html_escape] writes. *)
Definition entities : list chars :=
  [ lit "&amp;"; lit "&lt;"; lit "&gt;"; lit "&quot;" ].

(** Every ampersand of a text starts one of the four entities. *)
Fixpoint ampersands_are_entities (s : chars) : bool :=
  match s with
  | [] => true
  | c :: s' =>
      ((negb (Ascii.eqb c "&")
        || existsb (fun e => strncmp_eq0 s e) entities)
       && ampersands_are_entities s')%bool
  end.

(** The code of a character as an [unsigned char]. *)
Definition code (c : ascii) : Z := Z.of_N (N_of_ascii c).



(** A repository whose counters are plausible: not negative, and an
    [int]. *)
Definition counted (r : RepoEntry) : Prop :=
  (0 <= stars r <= INT_MAX)%Z /\ (0 <= forks r <= INT_MAX)%Z.

(** [a] comes before [b] in the order of the report: more stars, then
    more forks, then the smaller name. *)
Definition repo_before (a b : RepoEntry) : Prop :=
  (stars b < stars a)%Z
  \/ (stars a = stars b
      /\ ((forks b < forks a)%Z
          \/ (forks a = forks b /\ (strcmp (name a) (name b) < 0)%Z))).



(** A point as [contribution_list_push] stores it: the date is a C string
    and the count an [int]. *)
Definition stored_point (p : ContributionPoint) : Prop :=
  c_str (date p) = date p /\ (INT_MIN <= count p <= INT_MAX)%Z.

(** A text with every newline written as a backslash and [n]. *)
Definition escape_newlines (s : chars) : chars :=
  flat_map (fun c => if Ascii.eqb c LF then [BACKSLASH; "n"%char] else [c])
    s.

(** The document of a request with the two strings as they are. *)
Definition request (query username : chars) : chars :=
  lit "{" ++ quoted (lit "query") ++ lit ":" ++ quoted query ++ lit ","
  ++ quoted (lit "variables") ++ lit ":{" ++ quoted (lit "login")
  ++ lit ":" ++ quoted username ++ lit "}}".

(** A text without the terminator. *)
Definition no_NUL (s : chars) : bool :=
  forallb (fun c => negb (Ascii.eqb c NUL)) s.



Unset Implicit Arguments.

(** * Properties *)

Lemma deref_app (a b : chars) : a <> [] -> deref (a ++ b) = deref a.
Proof. destruct a; [congruence | reflexivity]. Qed.

Lemma skip_ws_all (s : chars) :
  Forall (fun c => is_ws c = true) s -> skip_ws s = [].
Proof.
  induction 1 as [|c s Hc _ IH]; simpl; [reflexivity|].
  now rewrite Hc.
Qed.

Lemma skip_ws_head (s : chars) : is_ws (deref s) = false -> skip_ws s = s.
Proof.
  destruct s as [|c s]; simpl; [reflexivity|].
  now intros ->.
Qed.

Lemma skip_ws_length (s : chars) : List.length (skip_ws s) <= List.length s.
Proof.
  induction s as [|c s IH]; simpl; [lia|].
  destruct (is_ws c); simpl; lia.
Qed.

(** After the whitespace the cursor is at the terminator exactly when the C
    string it pointed at was whitespace only. *)
Lemma skip_ws_end (s : chars) :
  Ascii.eqb (deref (skip_ws s)) NUL = forallb is_ws (c_str s).
Proof.
  induction s as [|c s IH]; simpl; [reflexivity|].
  destruct (is_ws c) eqn:E.
  - destruct (Ascii.eqb_spec c NUL) as [->|_]; [discriminate E|].
    simpl. now rewrite E.
  - simpl. destruct (Ascii.eqb_spec c NUL) as [->|_]; [reflexivity|].
    simpl. now rewrite E.
Qed.

Lemma c_str_no_NUL (s : chars) :
  Forall (fun c => c <> NUL) s -> c_str s = s.
Proof.
  induction 1 as [|c s Hc _ IH]; simpl; [reflexivity|].
  destruct (Ascii.eqb_spec c NUL); [contradiction|]. now rewrite IH.
Qed.

Lemma c_str_head (s : chars) : c_str s <> [] -> deref (c_str s) <> NUL.
Proof.
  destruct s as [|c s]; simpl; [congruence|].
  destruct (Ascii.eqb_spec c NUL); simpl; congruence.
Qed.

Lemma char_diff_zero (a b : ascii) :
  (Z.of_N (N_of_ascii a) - Z.of_N (N_of_ascii b))%Z = 0%Z -> a = b.
Proof.
  intros H.
  rewrite <- (ascii_N_embedding a), <- (ascii_N_embedding b).
  f_equal. lia.
Qed.

Lemma strcmp_unfold (a b : chars) :
  strcmp a b =
  if negb (Ascii.eqb (deref a) (deref b)) then
    (Z.of_N (N_of_ascii (deref a)) - Z.of_N (N_of_ascii (deref b)))%Z
  else if Ascii.eqb (deref a) NUL then 0%Z
  else strcmp (tl a) (tl b).
Proof.
  destruct a as [|x a]; simpl; [|reflexivity].
  destruct (Ascii.eqb NUL (deref b)); reflexivity.
Qed.

Lemma c_str_unfold (s : chars) :
  c_str s = if Ascii.eqb (deref s) NUL then [] else deref s :: c_str (tl s).
Proof. destruct s; reflexivity. Qed.

Lemma strcmp_eq0 (a b : chars) : strcmp a b = 0%Z <-> c_str a = c_str b.
Proof.
  revert b; induction a as [|x a IH]; intros b;
    rewrite strcmp_unfold, (c_str_unfold b).
  - change (deref []) with NUL. change (c_str []) with (@nil ascii).
    destruct (Ascii.eqb_spec NUL (deref b)) as [E|E]; cbn [negb].
    + rewrite <- E. simpl. tauto.
    + destruct (Ascii.eqb_spec (deref b) NUL) as [E'|_]; [congruence|].
      split; [|discriminate].
      intros H. apply char_diff_zero in H. contradiction.
  - rewrite (c_str_unfold (x :: a)).
    change (deref (x :: a)) with x. change (tl (x :: a)) with a.
    destruct (Ascii.eqb_spec x (deref b)) as [E|E]; cbn [negb].
    + rewrite <- E.
      destruct (Ascii.eqb_spec x NUL) as [_|Hx]; [tauto|].
      rewrite IH. split; [congruence|]. now intros [= ->].
    + split.
      * intros H. apply char_diff_zero in H. contradiction.
      * destruct (Ascii.eqb_spec x NUL) as [->|Hx];
          destruct (Ascii.eqb_spec (deref b) NUL) as [Hb|Hb];
          try congruence; discriminate.
Qed.

(** ** The error slot and the cursor *)

Lemma ext_refl (p : JsonParser) : ext p p.
Proof. split; [lia | reflexivity]. Qed.

Lemma latched_error (p p' : JsonParser) :
  error p' = error p -> latched p' = latched p.
Proof. unfold latched. now intros ->. Qed.

Lemma ext_latched (p p' : JsonParser) :
  ext p p' -> latched p = true -> latched p' = true.
Proof.
  intros [_ H] L. rewrite (latched_error p p'); auto.
Qed.

Lemma ext_unlatched (p p' : JsonParser) :
  ext p p' -> latched p' = false -> latched p = false.
Proof.
  intros E L. destruct (latched p) eqn:Lp; [|reflexivity].
  rewrite (ext_latched p p' E Lp) in L. discriminate.
Qed.

Lemma ext_trans (p q r : JsonParser) : ext p q -> ext q r -> ext p r.
Proof.
  intros [L1 E1] [L2 E2]. split; [lia|].
  intros L. rewrite E2, E1; auto.
  rewrite (latched_error p q); auto.
Qed.

Lemma json_error_latched_id (p : JsonParser) (message : chars) :
  latched p = true -> json_error p message = p.
Proof.
  unfold latched, json_error. intros H.
  destruct (Ascii.eqb (deref (error p)) NUL); [discriminate | reflexivity].
Qed.

Lemma json_error_stores (p : JsonParser) (message : chars) :
  latched p = false ->
  json_error p message =
  set_error p
    (firstn 127 (c_str message ++ lit " near " ++ firstn 32 (c_str (cur p)))).
Proof.
  unfold latched, json_error. intros H.
  destruct (Ascii.eqb (deref (error p)) NUL); [reflexivity | discriminate].
Qed.

Lemma json_error_cur (p : JsonParser) (message : chars) :
  cur (json_error p message) = cur p.
Proof.
  unfold json_error. destruct (Ascii.eqb (deref (error p)) NUL); reflexivity.
Qed.

Lemma json_error_latched (p : JsonParser) (message : chars) :
  latched (json_error p message) = true.
Proof.
  destruct (latched p) eqn:L.
  - now rewrite json_error_latched_id.
  - rewrite json_error_stores by assumption.
    unfold latched, set_error; simpl error.
    destruct (c_str message) as [|c m] eqn:E.
    + reflexivity.
    + assert (H : deref (c_str message) <> NUL)
        by (apply c_str_head; rewrite E; discriminate).
      rewrite E in H. simpl in *.
      now destruct (Ascii.eqb_spec c NUL).
Qed.

Lemma json_error_ext (p : JsonParser) (message : chars) :
  ext p (json_error p message).
Proof.
  split.
  - rewrite json_error_cur. lia.
  - intros L. now rewrite json_error_latched_id.
Qed.

Lemma json_next_some (p : JsonParser) :
  Ascii.eqb (deref (cur p)) NUL = false ->
  json_next p = (deref (cur p), set_cur p (advance (cur p))).
Proof. unfold json_next. now intros ->. Qed.

Lemma json_next_ext (p : JsonParser) : ext p (snd (json_next p)).
Proof.
  unfold json_next.
  destruct (Ascii.eqb (deref (cur p)) NUL); simpl; [apply ext_refl|].
  split; [|reflexivity].
  simpl. unfold advance. destruct (cur p); simpl; lia.
Qed.

Lemma advance_length (s : chars) :
  Ascii.eqb (deref s) NUL = false ->
  S (List.length (advance s)) = List.length s.
Proof. destruct s; simpl; [discriminate | reflexivity]. Qed.

Lemma json_expect_ext (p : JsonParser) (ch : ascii) : ext p (json_expect p ch).
Proof.
  unfold json_expect.
  pose proof (json_next_ext p) as E.
  destruct (json_next p) as [c p1]. simpl in E.
  destruct (negb (Ascii.eqb c ch)); [|assumption].
  eapply ext_trans; [eassumption | apply json_error_ext].
Qed.

(** [json_expect] on the character [json_peek] has just seen. *)
Lemma json_expect_peeked (p : JsonParser) (ch : ascii) :
  ch <> NUL -> json_peek p = ch ->
  json_expect p ch = set_cur p (advance (cur p)).
Proof.
  unfold json_expect, json_peek. intros Hch Hp.
  rewrite json_next_some by (rewrite Hp; now apply Ascii.eqb_neq).
  rewrite Hp, Ascii.eqb_refl. reflexivity.
Qed.

Lemma json_skip_ws_ext (p : JsonParser) : ext p (json_skip_ws p).
Proof.
  split; [|reflexivity]. simpl. apply skip_ws_length.
Qed.

Lemma copy_next_ext (n : nat) (buffer : chars) (p : JsonParser) :
  ext p (snd (copy_next n buffer p)).
Proof.
  revert buffer p; induction n as [|n IH]; intros buffer p; simpl.
  - apply ext_refl.
  - pose proof (json_next_ext p) as E.
    destruct (json_next p) as [c p1]. simpl in E.
    eapply ext_trans; [eassumption | apply IH].
Qed.

(** The state after one character was consumed. *)
Lemma set_cur_advance_ext (p : JsonParser) :
  ext p (set_cur p (advance (cur p))).
Proof.
  split; [|reflexivity]. simpl. unfold advance. destruct (cur p); simpl; lia.
Qed.


(** Closes a goal [ext p q] from the steps in the context. *)
Ltac ext_chain :=
  repeat first
    [ assumption
    | apply ext_refl
    | apply json_error_ext
    | apply json_expect_ext
    | apply json_skip_ws_ext
    | apply set_cur_advance_ext
    | eapply ext_trans; [eassumption|] ].

(** Splits on the tests of a hypothesis or of the goal. *)
Ltac split_ifs H :=
  repeat match type of H with
         | context [if ?c then _ else _] => destruct c eqn:?
         end.

(** ** String literals: state, errors *)

Lemma json_string_loop_post (fuel : nat) :
  forall buffer p r,
    json_string_loop fuel buffer p = Some r -> string_post p r.
Proof.
  induction fuel as [|n IH]; intros buffer p r H; cbn [json_string_loop] in H.
  - destruct (_ && _)%bool; [discriminate|].
    injection H as <-. split; simpl; [apply ext_refl | discriminate].
  - destruct (_ && _)%bool eqn:C.
    2:{ injection H as <-. split; simpl; [apply ext_refl | discriminate]. }
    apply andb_true_iff in C as [C1 _]. apply negb_true_iff in C1.
    rewrite (json_next_some p C1) in H.
    pose proof (set_cur_advance_ext p) as E1.
    set (p1 := set_cur p (advance (cur p))) in *.
    destruct (Ascii.eqb (deref (cur p)) BACKSLASH).
    + pose proof (json_next_ext p1) as E2.
      destruct (json_next p1) as [ch p2]. simpl in E2.
      destruct (copy_next 4 (buffer ++ [BACKSLASH; "u"]) p2) as [b3 p3] eqn:CN.
      pose proof (copy_next_ext 4 (buffer ++ [BACKSLASH; "u"]) p2) as E3.
      rewrite CN in E3; simpl in E3.
      split_ifs H;
        try (injection H as <-; split; simpl;
             [ext_chain | intros _; apply json_error_latched]);
        apply IH in H; destruct H as [E L]; (split; [ext_chain | exact L]).
    + apply IH in H. destruct H as [E L]. split; [ext_chain | exact L].
Qed.

Lemma json_parse_string_literal_post (fuel : nat) (p : JsonParser) r :
  json_parse_string_literal fuel p = Some r ->
  string_post p r
  /\ (json_peek p = DQUOTE ->
      List.length (cur (snd r)) < List.length (cur p)).
Proof.
  unfold json_parse_string_literal. intros H.
  pose proof (json_expect_ext p DQUOTE) as E0.
  assert (S0 : json_peek p = DQUOTE ->
               List.length (cur (json_expect p DQUOTE)) < List.length (cur p)).
  { intros Hp. rewrite json_expect_peeked by (auto; discriminate).
    simpl. unfold json_peek in Hp.
    destruct (cur p); simpl in *; [discriminate Hp | lia]. }
  set (p0 := json_expect p DQUOTE) in *.
  destruct (json_string_loop fuel [] p0) as [[[buffer|] p1]|] eqn:L;
    [| |discriminate].
  - apply json_string_loop_post in L. destruct L as [E1 _]. simpl in E1.
    destruct (negb (Ascii.eqb (json_peek p1) DQUOTE)).
    + injection H as <-. simpl. (split; [split|]).
      * ext_chain.
      * intros _. apply json_error_latched.
      * intros Hp. rewrite json_error_cur. specialize (S0 Hp).
        destruct E1 as [E1 _]. lia.
    + injection H as <-. simpl.
      pose proof (json_expect_ext p1 DQUOTE) as E2. (split; [split|]).
      * ext_chain.
      * discriminate.
      * intros Hp. specialize (S0 Hp).
        destruct E1 as [E1 _]. destruct E2 as [E2 _]. lia.
  - apply json_string_loop_post in L. destruct L as [E1 L1]. simpl in *.
    injection H as <-. simpl. (split; [split|]).
    + ext_chain.
    + intros _. now apply L1.
    + intros Hp. specialize (S0 Hp). destruct E1 as [E1 _]. lia.
Qed.

(** ** Numbers and literals: state, errors *)

Lemma skip_digits_length (s : chars) :
  List.length (skip_digits s) <= List.length s.
Proof.
  induction s as [|c s IH]; simpl; [lia|].
  destruct (is_digit c); simpl; lia.
Qed.

Lemma skip_digits_progress (s : chars) :
  is_digit (deref s) = true ->
  List.length (skip_digits s) < List.length s.
Proof.
  destruct s as [|c s]; simpl; [discriminate|].
  intros ->. pose proof (skip_digits_length s). lia.
Qed.

Lemma advance_length_le (s : chars) :
  List.length (advance s) <= List.length s.
Proof. destruct s; simpl; lia. Qed.

Lemma skip_frac_length (s : chars) :
  List.length (skip_frac s) <= List.length s.
Proof.
  unfold skip_frac. destruct (Ascii.eqb (deref s) "."); [|lia].
  pose proof (skip_digits_length (advance s)).
  pose proof (advance_length_le s). lia.
Qed.

Lemma skip_exp_length (s : chars) :
  List.length (skip_exp s) <= List.length s.
Proof.
  unfold skip_exp. destruct (_ || _)%bool; [|lia]. cbv zeta.
  pose proof (advance_length_le s).
  destruct (_ || _)%bool.
  - pose proof (skip_digits_length (advance (advance s))).
    pose proof (advance_length_le (advance s)). lia.
  - pose proof (skip_digits_length (advance s)). lia.
Qed.

Lemma number_end_stages (s : chars) :
  number_end s = skip_exp (skip_frac (skip_digits (skip_sign s))).
Proof. reflexivity. Qed.

Lemma number_end_progress (s : chars) :
  (Ascii.eqb (deref s) "-" || is_digit (deref s))%bool = true ->
  List.length (number_end s) < List.length s.
Proof.
  intros H. rewrite number_end_stages.
  pose proof (skip_exp_length (skip_frac (skip_digits (skip_sign s)))).
  pose proof (skip_frac_length (skip_digits (skip_sign s))).
  unfold skip_sign in *.
  destruct (Ascii.eqb (deref s) "-") eqn:M.
  - pose proof (skip_digits_length (advance s)).
    assert (S (List.length (advance s)) = List.length s).
    { apply advance_length.
      apply Ascii.eqb_eq in M. rewrite M. reflexivity. }
    lia.
  - simpl in H. pose proof (skip_digits_progress s H). lia.
Qed.

Lemma json_parse_number_post (p : JsonParser) :
  (Ascii.eqb (json_peek p) "-" || is_digit (json_peek p))%bool = true ->
  value_post p (json_parse_number p).
Proof.
  intros H. unfold json_parse_number, value_post; simpl.
  pose proof (number_end_progress (cur p) H).
  repeat split; try (simpl; lia); try discriminate.
  now intros _ v [= <-].
Qed.

Lemma strncmp_eq0_skipn (cur literal : chars) :
  strncmp_eq0 cur literal = true ->
  List.length (skipn (List.length literal) cur) + List.length literal
  = List.length cur.
Proof.
  revert cur; induction literal as [|l literal IH]; intros cur H; simpl.
  - lia.
  - destruct cur as [|c cur]; simpl in *; [discriminate|].
    apply andb_true_iff in H as [_ H]. specialize (IH _ H). lia.
Qed.

Lemma strncmp_eq0_prefix (cur literal : chars) :
  strncmp_eq0 cur literal = true <->
  cur = literal ++ skipn (List.length literal) cur.
Proof.
  revert cur; induction literal as [|l literal IH]; intros cur; simpl.
  - split; reflexivity.
  - destruct cur as [|c cur]; simpl; [split; discriminate|].
    rewrite andb_true_iff, IH, Ascii.eqb_eq. split.
    + intros [-> H]. now rewrite <- H.
    + intros [= -> H]. now rewrite <- H.
Qed.

Lemma json_parse_literal_post (p : JsonParser) (literal : chars)
    (t : JsonType) (boolValue : Z) :
  literal <> [] -> t <> JSON_STRING ->
  value_post p (json_parse_literal p literal t boolValue).
Proof.
  intros Hl Ht. unfold json_parse_literal.
  destruct (strncmp_eq0 (cur p) literal) eqn:C; simpl.
  - pose proof (strncmp_eq0_skipn _ _ C) as L.
    assert (0 < List.length literal)
      by (destruct literal; simpl; [congruence|lia]).
    unfold value_post; simpl. repeat split; try (simpl; lia); try discriminate.
    intros _ v [= <-]. destruct t; simpl; congruence.
  - unfold value_post; simpl. repeat split.
    + rewrite json_error_cur. lia.
    + intros L. now rewrite json_error_latched_id.
    + intros _. apply json_error_latched.
    + congruence.
    + discriminate.
Qed.

(** ** Arrays, objects and values: state, errors *)

Lemma well_formed_push (items : list JsonValue) (item : JsonValue) :
  well_formed (json_array_push (JArray items) item)
  = (well_formed (JArray items) && well_formed item)%bool.
Proof. simpl. rewrite forallb_app. simpl. now rewrite andb_true_r. Qed.

Lemma well_formed_put (entries : list (option chars * JsonValue))
    (key : chars) (value : JsonValue) :
  well_formed (json_object_put (JObject entries) (Some key) value)
  = (well_formed (JObject entries) && well_formed value)%bool.
Proof. simpl. rewrite forallb_app. simpl. now rewrite andb_true_r. Qed.

Section ContainerPost.

Variable parse_value : JsonParser -> option (option JsonValue * JsonParser).

Hypothesis parse_value_post :
  forall p r, parse_value p = Some r -> value_post p r.

Lemma json_array_loop_post (fuel : nat) :
  forall items p r,
    (latched p = false -> well_formed (JArray items) = true) ->
    json_array_loop parse_value fuel (JArray items) p = Some r ->
    loop_post p r.
Proof.
  induction fuel as [|n IH]; intros items p r W H;
    cbn [json_array_loop] in H; [discriminate|].
  pose proof (json_skip_ws_ext p) as E0.
  set (p0 := json_skip_ws p) in *.
  destruct (parse_value p0) as [[[item|] p1]|] eqn:PV; [| |discriminate].
  - apply parse_value_post in PV.
    destruct PV as (E1 & _ & _ & W1). simpl in E1, W1.
    pose proof (json_skip_ws_ext p1) as E2.
    set (p2 := json_skip_ws p1) in *.
    assert (W2 : latched p2 = false ->
                 well_formed (json_array_push (JArray items) item) = true).
    { intros L2. rewrite well_formed_push.
      assert (L1 : latched p1 = false)
        by (eapply ext_unlatched; eassumption).
      assert (L0 : latched p = false)
        by (eapply ext_unlatched; [|exact L1]; ext_chain).
      rewrite (W L0), (W1 L1 item eq_refl). reflexivity. }
    destruct (Ascii.eqb (json_peek p2) ",").
    + pose proof (json_expect_ext p2 ",") as E3.
      simpl json_array_push in H.
      apply IH in H.
      * destruct H as (E & N & Wr). split; [ext_chain|]. split; assumption.
      * intros L3. apply W2. eapply ext_unlatched; eassumption.
    + injection H as <-. simpl.
      set (p3 := if negb (Ascii.eqb (json_peek p2) "]")
                 then json_error p2 (lit "Unterminated array") else p2).
      assert (E3 : ext p2 p3)
        by (subst p3; destruct (negb _); ext_chain).
      pose proof (json_expect_ext p3 "]") as E4.
      split; [ext_chain|]. split; [discriminate|].
      intros L4 v [= <-]. apply W2.
      eapply ext_unlatched; [|exact L4]. ext_chain.
  - apply parse_value_post in PV.
    destruct PV as (E1 & _). simpl in E1.
    injection H as <-. simpl. split; [ext_chain|]. split; [discriminate|].
    intros L. simpl in L. rewrite json_error_latched in L. discriminate.
Qed.

Lemma json_parse_array_post (fuel : nat) (p : JsonParser) r :
  json_peek p = "[" ->
  json_parse_array parse_value fuel p = Some r -> value_post p r.
Proof.
  intros Hp H. unfold json_parse_array in H.
  rewrite (json_expect_peeked p "[") in H by (auto; discriminate).
  pose proof (set_cur_advance_ext p) as E0.
  assert (S0 : S (List.length (advance (cur p))) = List.length (cur p)).
  { apply advance_length. unfold json_peek in Hp. now rewrite Hp. }
  set (p0 := set_cur p (advance (cur p))) in *.
  pose proof (json_skip_ws_ext p0) as E1.
  set (p1 := json_skip_ws p0) in *.
  assert (Len : forall q, ext p1 q ->
                List.length (cur q) < List.length (cur p)).
  { intros q [Lq _]. destruct E1 as [L1 _]. simpl in L1. simpl in Lq. lia. }
  destruct (Ascii.eqb (json_peek p1) "]").
  - injection H as <-. simpl.
    pose proof (json_expect_ext p1 "]") as E2.
    split; [ext_chain|]. split; [discriminate|].
    split; [intros _; now apply Len|].
    now intros _ v [= <-].
  - apply json_array_loop_post in H; [|reflexivity].
    destruct H as (E & N & W).
    split; [ext_chain|]. split; [congruence|].
    split; [intros _; now apply Len | exact W].
Qed.

End ContainerPost.

Section ObjectPost.

Variable parse_value : JsonParser -> option (option JsonValue * JsonParser).

Hypothesis parse_value_post :
  forall p r, parse_value p = Some r -> value_post p r.

Lemma json_object_loop_post (fuel : nat) :
  forall entries p r,
    (latched p = false -> well_formed (JObject entries) = true) ->
    json_object_loop parse_value fuel (JObject entries) p = Some r ->
    loop_post p r.
Proof.
  induction fuel as [|n IH]; intros entries p r W H;
    cbn [json_object_loop] in H; [discriminate|].
  pose proof (json_skip_ws_ext p) as E0.
  set (p0 := json_skip_ws p) in *.
  destruct (negb (Ascii.eqb (json_peek p0) DQUOTE)).
  { injection H as <-. simpl. split; [ext_chain|]. split; [discriminate|].
    intros L. simpl in L. rewrite json_error_latched in L. discriminate. }
  destruct (json_parse_string_literal n p0) as [[key p1]|] eqn:K;
    [|discriminate].
  apply json_parse_string_literal_post in K.
  destruct K as [[E1 K1] _]. simpl in E1, K1.
  pose proof (json_skip_ws_ext p1) as E2.
  set (p2 := json_skip_ws p1) in *.
  pose proof (json_expect_ext p2 ":") as E3.
  set (p3 := json_expect p2 ":") in *.
  pose proof (json_skip_ws_ext p3) as E4.
  set (p4 := json_skip_ws p3) in *.
  destruct (parse_value p4) as [[[value|] p5]|] eqn:PV; [| |discriminate].
  - apply parse_value_post in PV.
    destruct PV as (E5 & _ & _ & W5). simpl in E5, W5.
    pose proof (json_skip_ws_ext p5) as E6.
    set (p6 := json_skip_ws p5) in *.
    assert (W6 : latched p6 = false ->
                 well_formed (json_object_put (JObject entries) key value)
                 = true).
    { intros L6.
      assert (L5 : latched p5 = false)
        by (eapply ext_unlatched; eassumption).
      assert (L1 : latched p1 = false)
        by (eapply ext_unlatched; [|exact L5]; ext_chain).
      assert (L0 : latched p = false)
        by (eapply ext_unlatched; [|exact L1]; ext_chain).
      destruct key as [key|].
      - rewrite well_formed_put, (W L0), (W5 L5 value eq_refl). reflexivity.
      - rewrite K1 in L1 by reflexivity. discriminate. }
    destruct (Ascii.eqb (json_peek p6) ",").
    + pose proof (json_expect_ext p6 ",") as E7.
      simpl json_object_put in H.
      apply IH in H.
      * destruct H as (E & N & Wr). split; [ext_chain|]. split; assumption.
      * intros L7. apply W6. eapply ext_unlatched; eassumption.
    + injection H as <-. simpl.
      set (p7 := if negb (Ascii.eqb (json_peek p6) "}")
                 then json_error p6 (lit "Unterminated object") else p6).
      assert (E7 : ext p6 p7)
        by (subst p7; destruct (negb _); ext_chain).
      pose proof (json_expect_ext p7 "}") as E8.
      split; [ext_chain|]. split; [discriminate|].
      intros L8 v [= <-]. apply W6.
      eapply ext_unlatched; [|exact L8]. ext_chain.
  - apply parse_value_post in PV.
    destruct PV as (E5 & _). simpl in E5.
    injection H as <-. simpl. split; [ext_chain|]. split; [discriminate|].
    intros L. simpl in L. rewrite json_error_latched in L. discriminate.
Qed.

Lemma json_parse_object_post (fuel : nat) (p : JsonParser) r :
  json_peek p = "{" ->
  json_parse_object parse_value fuel p = Some r -> value_post p r.
Proof.
  intros Hp H. unfold json_parse_object in H.
  rewrite (json_expect_peeked p "{") in H by (auto; discriminate).
  pose proof (set_cur_advance_ext p) as E0.
  assert (S0 : S (List.length (advance (cur p))) = List.length (cur p)).
  { apply advance_length. unfold json_peek in Hp. now rewrite Hp. }
  set (p0 := set_cur p (advance (cur p))) in *.
  pose proof (json_skip_ws_ext p0) as E1.
  set (p1 := json_skip_ws p0) in *.
  assert (Len : forall q, ext p1 q ->
                List.length (cur q) < List.length (cur p)).
  { intros q [Lq _]. destruct E1 as [L1 _]. simpl in L1. simpl in Lq. lia. }
  destruct (Ascii.eqb (json_peek p1) "}").
  - injection H as <-. simpl.
    pose proof (json_expect_ext p1 "}") as E2.
    split; [ext_chain|]. split; [discriminate|].
    split; [intros _; now apply Len|].
    now intros _ v [= <-].
  - apply json_object_loop_post in H; [|reflexivity].
    destruct H as (E & N & W).
    split; [ext_chain|]. split; [congruence|].
    split; [intros _; now apply Len | exact W].
Qed.

End ObjectPost.

(** Every production keeps the parse state coherent. *)
Lemma json_parse_value_post (fuel : nat) :
  forall p r, json_parse_value fuel p = Some r -> value_post p r.
Proof.
  induction fuel as [|n IH]; intros p r H; cbn [json_parse_value] in H;
    [discriminate|].
  pose proof (json_skip_ws_ext p) as E0.
  set (p0 := json_skip_ws p) in *.
  assert (Lift : forall r, value_post p0 r -> value_post p r).
  { intros r0 (E & N & S0 & W). split; [ext_chain|]. split; [exact N|].
    split; [|exact W].
    intros Hr. specialize (S0 Hr). destruct E0 as [L0 _]. lia. }
  apply Lift.
  destruct (Ascii.eqb_spec (json_peek p0) DQUOTE) as [Q|_].
  { destruct (json_parse_string_literal n p0) as [[[text|] p1]|] eqn:K;
      [| |discriminate]; injection H as <-;
      apply json_parse_string_literal_post in K;
      destruct K as [[E1 K1] S1]; simpl in *.
    - split; [assumption|]. split; [discriminate|].
      split; [intros _; now apply S1|]. now intros _ v [= <-].
    - split; [assumption|]. split; [intros _; now apply K1|].
      split; [intros X; exfalso; now apply X | discriminate]. }
  destruct (Ascii.eqb_spec (json_peek p0) "{") as [Q|_].
  { eapply json_parse_object_post; eauto. }
  destruct (Ascii.eqb_spec (json_peek p0) "[") as [Q|_].
  { eapply json_parse_array_post; eauto. }
  destruct (Ascii.eqb (json_peek p0) "t").
  { injection H as <-. apply json_parse_literal_post; discriminate. }
  destruct (Ascii.eqb (json_peek p0) "f").
  { injection H as <-. apply json_parse_literal_post; discriminate. }
  destruct (Ascii.eqb (json_peek p0) "n").
  { injection H as <-. apply json_parse_literal_post; discriminate. }
  destruct (_ || _)%bool eqn:D.
  { injection H as <-. now apply json_parse_number_post. }
  injection H as <-. split; [simpl; ext_chain|].
  split; [intros _; apply json_error_latched|].
  split; [simpl; intros X; exfalso; now apply X | simpl; discriminate].
Qed.

(** ** Termination *)

Lemma json_string_loop_S (n : nat) (buffer : chars) (p : JsonParser) :
  json_string_loop (S n) buffer p =
  match string_step buffer p with
  | Exit r => Some r
  | Continue b q => json_string_loop n b q
  end.
Proof.
  cbn [json_string_loop]. unfold string_step.
  destruct (_ && _)%bool; [|reflexivity].
  destruct (json_next p) as [ch p1].
  destruct (Ascii.eqb ch BACKSLASH); [|reflexivity].
  destruct (json_next p1) as [ch2 p2].
  destruct (copy_next 4 (buffer ++ [BACKSLASH; "u"]) p2) as [b3 p3].
  repeat match goal with
         | |- context [if ?c then _ else _] => destruct c
         end; reflexivity.
Qed.

Lemma string_step_end (buffer : chars) (p : JsonParser) :
  cur p = [] -> string_step buffer p = Exit (Some buffer, p).
Proof. unfold string_step. now intros ->. Qed.

Lemma json_string_loop_end (n : nat) (buffer : chars) (p : JsonParser) :
  cur p = [] -> json_string_loop n buffer p = Some (Some buffer, p).
Proof.
  intros E. destruct n.
  - cbn [json_string_loop]. now rewrite E.
  - now rewrite json_string_loop_S, string_step_end.
Qed.

(** An iteration that does not leave the loop consumes input. *)
Lemma string_step_progress (buffer : chars) (p : JsonParser) b q :
  string_step buffer p = Continue b q ->
  List.length (cur q) < List.length (cur p).
Proof.
  unfold string_step.
  destruct (_ && _)%bool eqn:C; [|discriminate].
  apply andb_true_iff in C as [C1 _]. apply negb_true_iff in C1.
  rewrite (json_next_some p C1).
  pose proof (advance_length (cur p) C1) as L1.
  set (p1 := set_cur p (advance (cur p))).
  assert (L1' : S (List.length (cur p1)) = List.length (cur p)) by exact L1.
  destruct (Ascii.eqb (deref (cur p)) BACKSLASH).
  - pose proof (json_next_ext p1) as [E2 _].
    destruct (json_next p1) as [ch p2]. simpl in E2.
    destruct (copy_next 4 (buffer ++ [BACKSLASH; "u"]) p2) as [b3 p3] eqn:CN.
    pose proof (copy_next_ext 4 (buffer ++ [BACKSLASH; "u"]) p2) as [E3 _].
    rewrite CN in E3; simpl in E3.
    intros H. split_ifs H; try discriminate; injection H as _ <-; lia.
  - intros [= _ <-]. lia.
Qed.

(** [length (cur p)] iterations are enough, and more change nothing. *)
Lemma json_string_loop_enough (n : nat) :
  forall buffer p,
    List.length (cur p) <= n ->
    exists r, forall m, List.length (cur p) <= m ->
                        json_string_loop m buffer p = Some r.
Proof.
  induction n as [|n IH]; intros buffer p Hn.
  - assert (E : cur p = [])
      by (destruct (cur p); simpl in *; [reflexivity|lia]).
    exists (Some buffer, p). intros m _. now apply json_string_loop_end.
  - destruct (string_step buffer p) as [b q|r] eqn:St.
    + pose proof (string_step_progress _ _ _ _ St) as Lq.
      destruct (IH b q ltac:(lia)) as [r Hr].
      exists r. intros m Hm. destruct m as [|m]; [lia|].
      rewrite json_string_loop_S, St. apply Hr. lia.
    + exists r. intros m Hm. destruct m as [|m].
      * assert (E : cur p = [])
          by (destruct (cur p); simpl in *; [reflexivity|lia]).
        rewrite string_step_end in St by assumption. injection St as <-.
        now apply json_string_loop_end.
      * now rewrite json_string_loop_S, St.
Qed.

Lemma json_string_loop_run (m : nat) (buffer : chars) (p : JsonParser) :
  List.length (cur p) <= m ->
  json_string_loop m buffer p = string_run buffer p.
Proof.
  intros Hm. unfold string_run.
  destruct (json_string_loop_enough (List.length (cur p)) buffer p (le_n _))
    as [r Hr].
  rewrite (Hr m Hm), (Hr _ (le_n _)). reflexivity.
Qed.

Lemma string_run_step (buffer : chars) (p : JsonParser) :
  string_run buffer p =
  match string_step buffer p with
  | Exit r => Some r
  | Continue b q => string_run b q
  end.
Proof.
  destruct (string_step buffer p) as [b q|r] eqn:St.
  - pose proof (string_step_progress _ _ _ _ St) as Lq.
    rewrite <- (json_string_loop_run (S (List.length (cur p)))) by lia.
    rewrite json_string_loop_S, St.
    apply json_string_loop_run. lia.
  - rewrite <- (json_string_loop_run (S (List.length (cur p)))) by lia.
    now rewrite json_string_loop_S, St.
Qed.

Lemma json_string_loop_total (m : nat) (buffer : chars) (p : JsonParser) :
  List.length (cur p) <= m -> json_string_loop m buffer p <> None.
Proof.
  intros Hm.
  destruct (json_string_loop_enough m buffer p Hm) as [r Hr].
  rewrite (Hr m Hm). discriminate.
Qed.

Lemma json_parse_string_literal_total (m : nat) (p : JsonParser) :
  List.length (cur p) <= m -> json_parse_string_literal m p <> None.
Proof.
  intros Hm. unfold json_parse_string_literal.
  pose proof (json_expect_ext p DQUOTE) as [E _].
  pose proof (json_string_loop_total m [] (json_expect p DQUOTE)
                ltac:(lia)) as T.
  destruct (json_string_loop m [] (json_expect p DQUOTE)) as [[[b|] q]|];
    [|discriminate|contradiction].
  destruct (negb _); discriminate.
Qed.

Section ContainerTotal.

Variable parse_value : JsonParser -> option (option JsonValue * JsonParser).
Variable depth : nat.

Hypothesis parse_value_post :
  forall p r, parse_value p = Some r -> value_post p r.

Hypothesis parse_value_total :
  forall p, List.length (cur p) < depth -> parse_value p <> None.

Lemma json_array_loop_total (fuel : nat) :
  forall array p,
    List.length (cur p) < fuel -> List.length (cur p) < depth ->
    json_array_loop parse_value fuel array p <> None.
Proof.
  induction fuel as [|n IH]; intros array p Hf Hd; [lia|].
  cbn [json_array_loop].
  pose proof (json_skip_ws_ext p) as [E0 _].
  set (p0 := json_skip_ws p) in *.
  pose proof (parse_value_total p0 ltac:(lia)) as T.
  destruct (parse_value p0) as [[[item|] p1]|] eqn:PV;
    [|discriminate|contradiction].
  apply parse_value_post in PV. destruct PV as (_ & _ & S1 & _).
  cbn [fst snd] in S1. specialize (S1 ltac:(discriminate)).
  pose proof (json_skip_ws_ext p1) as [E2 _].
  set (p2 := json_skip_ws p1) in *.
  destruct (Ascii.eqb (json_peek p2) ","); [|discriminate].
  pose proof (json_expect_ext p2 ",") as [E3 _].
  apply IH; lia.
Qed.

Lemma json_object_loop_total (fuel : nat) :
  forall object p,
    List.length (cur p) < fuel -> List.length (cur p) < depth ->
    json_object_loop parse_value fuel object p <> None.
Proof.
  induction fuel as [|n IH]; intros object p Hf Hd; [lia|].
  cbn [json_object_loop].
  pose proof (json_skip_ws_ext p) as [E0 _].
  set (p0 := json_skip_ws p) in *.
  destruct (negb (Ascii.eqb (json_peek p0) DQUOTE)); [discriminate|].
  pose proof (json_parse_string_literal_total n p0 ltac:(lia)) as TK.
  destruct (json_parse_string_literal n p0) as [[key p1]|] eqn:K;
    [|contradiction].
  apply json_parse_string_literal_post in K.
  destruct K as [[[E1 _] _] _]. cbn [fst snd] in E1.
  pose proof (json_skip_ws_ext p1) as [E2 _].
  set (p2 := json_skip_ws p1) in *.
  pose proof (json_expect_ext p2 ":") as [E3 _].
  set (p3 := json_expect p2 ":") in *.
  pose proof (json_skip_ws_ext p3) as [E4 _].
  set (p4 := json_skip_ws p3) in *.
  pose proof (parse_value_total p4 ltac:(lia)) as T.
  destruct (parse_value p4) as [[[value|] p5]|] eqn:PV;
    [|discriminate|contradiction].
  apply parse_value_post in PV. destruct PV as (_ & _ & S5 & _).
  cbn [fst snd] in S5. specialize (S5 ltac:(discriminate)).
  pose proof (json_skip_ws_ext p5) as [E6 _].
  set (p6 := json_skip_ws p5) in *.
  destruct (Ascii.eqb (json_peek p6) ","); [|discriminate].
  pose proof (json_expect_ext p6 ",") as [E7 _].
  apply IH; lia.
Qed.

End ContainerTotal.

(** With more fuel than input characters [json_parse_value] returns. *)
Lemma json_parse_value_total (fuel : nat) :
  forall p, List.length (cur p) < fuel -> json_parse_value fuel p <> None.
Proof.
  induction fuel as [|n IH]; intros p Hf; [lia|].
  cbn [json_parse_value].
  pose proof (json_skip_ws_ext p) as [E0 _].
  set (p0 := json_skip_ws p) in *. clearbody p0.
  assert (Open : forall ch, ch <> NUL -> json_peek p0 = ch ->
                 forall q, ext (json_skip_ws (json_expect p0 ch)) q ->
                           List.length (cur q) < n).
  { intros ch Hch Hp q [Eq _].
    rewrite (json_expect_peeked p0 ch Hch Hp) in Eq.
    pose proof (skip_ws_length (advance (cur p0))) as Ew.
    assert (S (List.length (advance (cur p0))) = List.length (cur p0)).
    { apply advance_length. unfold json_peek in Hp. rewrite Hp.
      now apply Ascii.eqb_neq. }
    simpl in Eq. lia. }
  destruct (Ascii.eqb_spec (json_peek p0) DQUOTE) as [Q|_].
  { pose proof (json_parse_string_literal_total n p0 ltac:(lia)) as T.
    destruct (json_parse_string_literal n p0) as [[[text|] p1]|];
      [discriminate|discriminate|contradiction]. }
  destruct (Ascii.eqb_spec (json_peek p0) "{") as [Q|_].
  { unfold json_parse_object. cbv zeta.
    destruct (Ascii.eqb _ "}"); [discriminate|].
    pose proof (Open "{" ltac:(discriminate) Q _ (ext_refl _)) as Hn.
    apply json_object_loop_total with (depth := n);
      [exact (json_parse_value_post n) | exact IH | exact Hn | exact Hn]. }
  destruct (Ascii.eqb_spec (json_peek p0) "[") as [Q|_].
  { unfold json_parse_array. cbv zeta.
    destruct (Ascii.eqb _ "]"); [discriminate|].
    pose proof (Open "[" ltac:(discriminate) Q _ (ext_refl _)) as Hn.
    apply json_array_loop_total with (depth := n);
      [exact (json_parse_value_post n) | exact IH | exact Hn | exact Hn]. }
  repeat match goal with
         | |- context [if ?c then _ else _] => destruct c
         end; discriminate.
Qed.

(** ** Fuel *)

(** More fuel never changes a result. *)
Lemma json_string_loop_mono (n : nat) :
  forall m buffer p r,
    n <= m ->
    json_string_loop n buffer p = Some r ->
    json_string_loop m buffer p = Some r.
Proof.
  induction n as [|n IH]; intros m buffer p r Hm H.
  - cbn [json_string_loop] in H.
    destruct (_ && _)%bool eqn:C; [discriminate|].
    destruct m; cbn [json_string_loop]; now rewrite C.
  - destruct m as [|m]; [lia|].
    rewrite json_string_loop_S in *.
    destruct (string_step buffer p) as [b q|r']; [|exact H].
    apply IH; [lia | exact H].
Qed.

Lemma json_parse_string_literal_mono (n m : nat) (p : JsonParser) r :
  n <= m ->
  json_parse_string_literal n p = Some r ->
  json_parse_string_literal m p = Some r.
Proof.
  unfold json_parse_string_literal. intros Hm H.
  destruct (json_string_loop n [] (json_expect p DQUOTE)) as [r'|] eqn:L;
    [|discriminate].
  now rewrite (json_string_loop_mono n m _ _ r' Hm L).
Qed.

Section ContainerMono.

Variables parse_value parse_value' :
  JsonParser -> option (option JsonValue * JsonParser).

Hypothesis parse_value_mono :
  forall p r, parse_value p = Some r -> parse_value' p = Some r.

Lemma json_array_loop_mono (n : nat) :
  forall m array p r,
    n <= m ->
    json_array_loop parse_value n array p = Some r ->
    json_array_loop parse_value' m array p = Some r.
Proof.
  induction n as [|n IH]; intros m array p r Hm H; [discriminate|].
  destruct m as [|m]; [lia|]. cbn [json_array_loop] in *.
  destruct (parse_value (json_skip_ws p)) as [r1|] eqn:PV; [|discriminate].
  rewrite (parse_value_mono _ _ PV).
  destruct r1 as [[item|] p1]; [|exact H].
  destruct (Ascii.eqb _ ","); [|exact H].
  apply IH; [lia | exact H].
Qed.

Lemma json_object_loop_mono (n : nat) :
  forall m object p r,
    n <= m ->
    json_object_loop parse_value n object p = Some r ->
    json_object_loop parse_value' m object p = Some r.
Proof.
  induction n as [|n IH]; intros m object p r Hm H; [discriminate|].
  destruct m as [|m]; [lia|]. cbn [json_object_loop] in *.
  destruct (negb _); [exact H|].
  destruct (json_parse_string_literal n (json_skip_ws p)) as [rk|] eqn:K;
    [|discriminate].
  rewrite (json_parse_string_literal_mono n m _ rk ltac:(lia) K).
  destruct rk as [key p1].
  destruct (parse_value _) as [r1|] eqn:PV; [|discriminate].
  rewrite (parse_value_mono _ _ PV).
  destruct r1 as [[value|] p2]; [|exact H].
  destruct (Ascii.eqb _ ","); [|exact H].
  apply IH; [lia | exact H].
Qed.

End ContainerMono.

Lemma json_parse_value_mono (n : nat) :
  forall m p r,
    n <= m ->
    json_parse_value n p = Some r -> json_parse_value m p = Some r.
Proof.
  induction n as [|n IH]; intros m p r Hm H; [discriminate|].
  destruct m as [|m]; [lia|]. cbn [json_parse_value] in *.
  assert (Hnm : n <= m) by lia.
  assert (Inner : forall q r0, json_parse_value n q = Some r0 ->
                               json_parse_value m q = Some r0)
    by (intros q r0; now apply IH).
  destruct (Ascii.eqb _ DQUOTE).
  { destruct (json_parse_string_literal n _) as [rk|] eqn:K; [|discriminate].
    now rewrite (json_parse_string_literal_mono n m _ rk Hnm K). }
  destruct (Ascii.eqb _ "{").
  { unfold json_parse_object in *. cbv zeta in *.
    destruct (Ascii.eqb _ "}"); [exact H|].
    now apply (json_object_loop_mono _ _ Inner n m). }
  destruct (Ascii.eqb _ "[").
  { unfold json_parse_array in *. cbv zeta in *.
    destruct (Ascii.eqb _ "]"); [exact H|].
    now apply (json_array_loop_mono _ _ Inner n m). }
  exact H.
Qed.

(** The result of [json_parse_value] with enough fuel is the result with
    any larger amount: the fuel [json_parse] passes is as good as any. *)
Lemma json_parse_value_fuel (n m : nat) (p : JsonParser) :
  List.length (cur p) < n -> n <= m ->
  json_parse_value m p = json_parse_value n p.
Proof.
  intros Hn Hm.
  pose proof (json_parse_value_total n p Hn) as T.
  destruct (json_parse_value n p) as [r|] eqn:H; [|contradiction].
  now apply (json_parse_value_mono n m).
Qed.

(** [json_parse] never takes its out-of-fuel branch. *)
Lemma json_parse_runs (text : chars) :
  exists value parser,
    json_parse_value (S (List.length text)) (initial text)
    = Some (value, parser).
Proof.
  pose proof (json_parse_value_total (S (List.length text)) (initial text)
                ltac:(simpl; lia)) as T.
  destruct (json_parse_value _ _) as [[value parser]|]; [eauto|contradiction].
Qed.

(** A parse that succeeds returns a tree without null text pointers. *)
Lemma json_parse_well_formed (text : chars) (v : JsonValue) stderr :
  json_parse text = (Some v, stderr) -> well_formed v = true.
Proof.
  unfold json_parse. fold (initial text).
  destruct (json_parse_value _ _) as [[value parser]|] eqn:PV; [|discriminate].
  apply json_parse_value_post in PV. destruct PV as (_ & _ & _ & W).
  simpl in W.
  destruct value as [x|]; simpl; [|discriminate].
  fold (latched parser).
  destruct (latched parser); simpl; [discriminate|].
  destruct (negb _); [discriminate|].
  intros [= -> _]. now apply W.
Qed.

(** ** The latched error slot *)

Lemma firstn_32_tag (s : chars) :
  List.length (firstn 32 s) <= 32 /\ exists rest, s = firstn 32 s ++ rest.
Proof.
  split.
  - apply firstn_le_length.
  - exists (skipn 32 s). symmetry. apply firstn_skipn.
Qed.

(** C8. The error slot is write-once. A report into an empty slot stores
    [message near tag], cut to the 127 characters the slot holds, where the
    tag is the first 32 characters (fewer at the end of the input) of what
    follows the cursor; the messages of this parser are short enough never
    to be cut. A report into a slot that holds a message changes nothing.
    No production of the grammar changes a slot that holds a message (and
    each returns, given more fuel than there are characters left), and
    [json_parse] prints the slot: the message reported is the first one. *)
Theorem error_slot_write_once :
  (forall p message,
      latched p = false ->
      error (json_error p message)
      = firstn 127 (c_str message ++ lit " near " ++ firstn 32 (c_str (cur p)))
      /\ (List.length (c_str message) <= 89 ->
          error (json_error p message)
          = c_str message ++ lit " near " ++ firstn 32 (c_str (cur p)))
      /\ List.length (firstn 32 (c_str (cur p))) <= 32
      /\ (exists rest, c_str (cur p) = firstn 32 (c_str (cur p)) ++ rest)
      /\ latched (json_error p message) = true)
  /\ (forall p message, latched p = true -> json_error p message = p)
  /\ (forall fuel p value p',
         latched p = true ->
         json_parse_value fuel p = Some (value, p') ->
         error p' = error p)
  /\ (forall fuel p,
         latched p = true ->
         List.length (cur p) < fuel ->
         exists value p',
           json_parse_value fuel p = Some (value, p') /\ error p' = error p)
  /\ (forall text value parser,
         json_parse_value (S (List.length text)) (initial text)
         = Some (value, parser) ->
         latched parser = true ->
         json_parse text
         = (None, lit "JSON parse error: " ++ error parser ++ [LF])).
Proof.
  assert (Kept : forall fuel p value p',
             latched p = true ->
             json_parse_value fuel p = Some (value, p') ->
             error p' = error p).
  { intros fuel p value p' L H.
    apply json_parse_value_post in H. destruct H as [[_ E] _].
    now apply E. }
  split; [|split; [|split; [exact Kept|split]]].
  - intros p message L.
    rewrite (json_error_stores p message L). cbn [error set_error].
    destruct (firstn_32_tag (c_str (cur p))) as [T1 T2].
    split; [reflexivity|]. split; [|split; [exact T1|split; [exact T2|]]].
    + intros Hm. apply firstn_all2.
      rewrite !length_app.
      change (List.length (lit " near ")) with 6. lia.
    + rewrite <- (json_error_stores p message L). apply json_error_latched.
  - exact json_error_latched_id.
  - intros fuel p L Hf.
    pose proof (json_parse_value_total fuel p Hf) as T.
    destruct (json_parse_value fuel p) as [[value p']|] eqn:H;
      [|contradiction].
    exists value, p'. split; [reflexivity|]. now apply (Kept fuel p value).
  - intros text value parser H L. unfold json_parse.
    fold (initial text). rewrite H. fold (latched parser). rewrite L.
    rewrite orb_true_r. reflexivity.
Qed.

(** [error_slot_write_once] at the two reports an unexpected [x] inside an
    array causes: the first is stored, the second changes nothing. *)
Lemma error_slot_write_once_witness :
  let p := mkParser (lit "[1,x]") (lit "x]") [] in
  error (json_error (json_error p (lit "Unexpected character"))
                    (lit "Invalid array item"))
  = lit "Unexpected character near x]".
Proof.
  intros p.
  destruct error_slot_write_once as (Store & Keep & _).
  destruct (Store p (lit "Unexpected character") eq_refl)
    as (_ & Exact & _ & _ & Latched).
  rewrite (Keep _ (lit "Invalid array item") Latched).
  rewrite Exact by (simpl; lia).
  reflexivity.
Defined.

(** ** End of input and trailing characters *)

Lemma json_parse_value_at_end (fuel : nat) (p : JsonParser) :
  Ascii.eqb (deref (skip_ws (cur p))) NUL = true ->
  json_parse_value (S fuel) p
  = Some (None, json_error (json_skip_ws p) (lit "Unexpected character")).
Proof.
  intros H. apply Ascii.eqb_eq in H.
  cbn [json_parse_value]. unfold json_peek. cbn [cur json_skip_ws set_cur].
  rewrite H. reflexivity.
Qed.

(** C9. An empty input, or one made of whitespace only, fails with the
    unexpected-character message and yields no value; wherever a value is
    expected, the end of the input is an error, never a value. *)
Theorem end_of_input_is_no_value :
  (forall text,
      Forall (fun c => is_ws c = true) text ->
      json_parse text
      = (None, lit "JSON parse error: Unexpected character near " ++ [LF]))
  /\ (forall fuel p,
         Ascii.eqb (deref (skip_ws (cur p))) NUL = true ->
         exists p',
           json_parse_value (S fuel) p = Some (None, p')
           /\ latched p' = true
           /\ (latched p = false ->
               error p' = lit "Unexpected character near ")).
Proof.
  split.
  - intros text W. unfold json_parse.
    rewrite json_parse_value_at_end
      by (cbn [cur]; now rewrite skip_ws_all).
    unfold json_skip_ws. cbn [cur set_cur start error].
    rewrite (skip_ws_all text W). reflexivity.
  - intros fuel p H. eexists. split; [now apply json_parse_value_at_end|].
    split; [apply json_error_latched|].
    intros L. rewrite json_error_stores by exact L.
    cbn [error set_error cur json_skip_ws set_cur].
    apply Ascii.eqb_eq in H.
    assert (E : c_str (skip_ws (cur p)) = []).
    { rewrite c_str_unfold, H. reflexivity. }
    rewrite E. reflexivity.
Qed.

(** [end_of_input_is_no_value] at an input of the four whitespace
    characters and at the empty input. *)
Lemma end_of_input_is_no_value_witness :
  json_parse [" "; TAB; LF; CR]
  = (None, lit "JSON parse error: Unexpected character near " ++ [LF])
  /\ json_parse [] <> (Some JNull, []).
Proof.
  destruct end_of_input_is_no_value as [A _].
  split.
  - apply (A [" "; TAB; LF; CR]).
    repeat constructor.
  - rewrite (A [] (Forall_nil _)). discriminate.
Defined.

(** C4. Once exactly one value has been parsed without an error, what is
    left of the input decides: whitespace only (space, tab, LF, CR) and the
    value is returned, anything else and the parse fails with the
    trailing-characters message. *)
Theorem trailing_characters :
  (forall text v parser,
      json_parse_value (S (List.length text)) (initial text)
      = Some (Some v, parser) ->
      latched parser = false ->
      json_parse text
      = if forallb is_ws (c_str (cur parser)) then (Some v, [])
        else (None, lit "JSON parse error: trailing characters" ++ [LF]))
  /\ json_parse (lit "1 2")
     = (None, lit "JSON parse error: trailing characters" ++ [LF])
  /\ json_parse (lit "1" ++ [" "; TAB; LF; CR]) = (Some (JNumber double_1), []).
Proof.
  split; [|split; vm_compute; reflexivity].
  intros text v parser H L. unfold json_parse. fold (initial text).
  rewrite H. fold (latched parser). rewrite L. cbn [orb].
  cbn [json_skip_ws cur set_cur].
  rewrite skip_ws_end.
  destruct (forallb is_ws (c_str (cur parser))); reflexivity.
Qed.

(** [trailing_characters] at a literal followed by another token. *)
Lemma trailing_characters_witness :
  json_parse (lit "true x")
  = (None, lit "JSON parse error: trailing characters" ++ [LF]).
Proof.
  destruct trailing_characters as [A _].
  apply (A (lit "true x") (JBool 1)
           (mkParser (lit "true x") (lit " x") [])).
  - vm_compute. reflexivity.
  - reflexivity.
Defined.

(** ** Primitives *)

(** C6. The six primitive inputs of the design document parse to
    [Bool(true)], [Bool(false)], [Null], [Number(42)], [Number(-350)] and
    the string [abc]; the two doubles are the binary64 numbers whose values
    are exactly 42 and -350. *)
Theorem primitives_round_trip :
  json_parse (lit "true") = (Some (JBool 1), [])
  /\ json_parse (lit "false") = (Some (JBool 0), [])
  /\ json_parse (lit "null") = (Some JNull, [])
  /\ json_parse (lit "42") = (Some (JNumber double_42), [])
  /\ json_parse (lit "-3.5e2") = (Some (JNumber double_minus_350), [])
  /\ json_parse (quoted (lit "abc")) = (Some (JString (Some (lit "abc"))), [])
  /\ double_value double_42 = Some (42, 1)%Z
  /\ double_value double_minus_350 = Some (-350, 1)%Z.
Proof. repeat split; vm_compute; reflexivity. Qed.

(** ** Accessors *)

Lemma type_not (x : JsonValue) (t : JsonType) :
  type x <> t -> JsonType_eqb (type x) t = false.
Proof. destruct x, t; simpl; congruence. Qed.

Lemma json_object_find_skip (pre rest : list (option chars * JsonValue))
    (key : chars) :
  Forall (other_key key) pre ->
  json_object_find (pre ++ rest) key = json_object_find rest key.
Proof.
  induction 1 as [|[k v] pre (k' & E & D) _ IH]; simpl; [reflexivity|].
  simpl in E. subst k.
  destruct (Z.eqb_spec (strcmp k' key) 0) as [Z|_]; [|exact IH].
  apply strcmp_eq0 in Z. contradiction.
Qed.

Lemma json_object_get_first (pre post : list (option chars * JsonValue))
    (k key : chars) (v : JsonValue) :
  Forall (other_key key) pre ->
  c_str k = c_str key ->
  json_object_get (Some (JObject (pre ++ (Some k, v) :: post))) key
  = Ok (Some v).
Proof.
  intros Hpre Hk. simpl.
  rewrite json_object_find_skip by assumption. simpl.
  apply strcmp_eq0 in Hk. now rewrite Hk.
Qed.

Lemma json_object_get_absent (entries : list (option chars * JsonValue))
    (key : chars) :
  Forall (other_key key) entries ->
  json_object_get (Some (JObject entries)) key = Ok None.
Proof.
  intros H. simpl. rewrite <- (app_nil_r entries).
  now rewrite json_object_find_skip.
Qed.

(** C5. Each typed extractor returns the caller's default for an absent
    value and for a value of another variant, and the payload of a value of
    its own variant. So a key that no entry of an object has, and a key
    whose entry holds [Null], both give the default under each extractor.
    The extractors are total: nothing they do can fail. (A String whose
    text pointer is null does not occur in a parsed tree, see
    [json_parse_well_formed]; [json_get_string] returns the default there
    too.) *)
Theorem typed_extractors_default :
  (forall v d,
      (v = None \/ exists x, v = Some x /\ type x <> JSON_STRING) ->
      json_get_string v d = d)
  /\ (forall s d, json_get_string (Some (JString (Some s))) d = Some s)
  /\ (forall d, json_get_string (Some (JString None)) d = d)
  /\ (forall v d,
         (v = None \/ exists x, v = Some x /\ type x <> JSON_NUMBER) ->
         json_get_number v d = d)
  /\ (forall n d, json_get_number (Some (JNumber n)) d = n)
  /\ (forall v d,
         (v = None \/ exists x, v = Some x /\ type x <> JSON_BOOL) ->
         json_get_bool v d = d)
  /\ (forall b d, json_get_bool (Some (JBool b)) d = b)
  /\ (forall entries key ds dn db,
         Forall (other_key key) entries ->
         exists v,
           json_object_get (Some (JObject entries)) key = Ok v
           /\ json_get_string v ds = ds
           /\ json_get_number v dn = dn
           /\ json_get_bool v db = db)
  /\ (forall pre post k key ds dn db,
         Forall (other_key key) pre ->
         c_str k = c_str key ->
         exists v,
           json_object_get
             (Some (JObject (pre ++ (Some k, JNull) :: post))) key = Ok v
           /\ json_get_string v ds = ds
           /\ json_get_number v dn = dn
           /\ json_get_bool v db = db).
Proof.
  repeat match goal with |- _ /\ _ => split end; try reflexivity.
  - intros v d [->|(x & -> & T)]; [reflexivity|].
    simpl. now rewrite type_not.
  - intros v d [->|(x & -> & T)]; [reflexivity|].
    simpl. now rewrite type_not.
  - intros v d [->|(x & -> & T)]; [reflexivity|].
    simpl. now rewrite type_not.
  - intros entries key ds dn db H. exists None.
    rewrite json_object_get_absent by assumption. repeat split.
  - intros pre post k key ds dn db H Hk. exists (Some JNull).
    rewrite json_object_get_first by assumption. repeat split.
Qed.

(** [typed_extractors_default] at a Number read as a string, a Bool read
    as a number, an absent value read as a bool, and at an object looked up
    for a key it lacks and for a key it maps to [Null]. *)
Lemma typed_extractors_default_witness :
  let entries := [(Some (lit "bio"), JNull);
                  (Some (lit "stars"), JNumber double_42)] in
  json_get_string (Some (JNumber double_42)) (Some (lit "none"))
  = Some (lit "none")
  /\ json_get_number (Some (JBool 1)) double_1 = double_1
  /\ json_get_bool None 7 = 7%Z
  /\ (exists v,
         json_object_get (Some (JObject entries)) (lit "name") = Ok v
         /\ json_get_string v (Some (lit "none")) = Some (lit "none"))
  /\ (exists v,
         json_object_get (Some (JObject entries)) (lit "bio") = Ok v
         /\ json_get_string v (Some (lit "none")) = Some (lit "none")).
Proof.
  intros entries.
  destruct typed_extractors_default
    as (S1 & _ & _ & N1 & _ & B1 & _ & Absent & Null).
  split; [|split; [|split; [|split]]].
  - apply S1. right. eexists. split; [reflexivity | simpl; discriminate].
  - apply N1. right. eexists. split; [reflexivity | simpl; discriminate].
  - apply B1. left. reflexivity.
  - destruct (Absent entries (lit "name") (Some (lit "none")) double_1 0%Z)
      as (v & G & Sv & _).
    + repeat constructor; eexists; (split; [reflexivity|]);
        vm_compute; discriminate.
    + exists v. split; assumption.
  - destruct (Null [] [(Some (lit "stars"), JNumber double_42)]
                   (lit "bio") (lit "bio") (Some (lit "none")) double_1 0%Z)
      as (v & G & Sv & _).
    + constructor.
    + reflexivity.
    + exists v. split; assumption.
Defined.

(** C7. [json_array_get] returns NULL for a value that is not an array
    and for an index at or past the length, and the element at the index
    otherwise, elements being in the order [json_array_push] appended
    them; [json_array_size] is [0] for a value that is not an array. *)
Theorem array_access_in_range :
  (forall v i,
      (v = None \/ exists x, v = Some x /\ type x <> JSON_ARRAY) ->
      json_array_get v i = None /\ json_array_size v = 0%N)
  /\ (forall items i,
         (N.of_nat (List.length items) <= i)%N ->
         json_array_get (Some (JArray items)) i = None)
  /\ (forall items i,
         (i < N.of_nat (List.length items))%N ->
         json_array_get (Some (JArray items)) i
         = nth_error items (N.to_nat i)
         /\ exists x, json_array_get (Some (JArray items)) i = Some x)
  /\ (forall items,
         json_array_size (Some (JArray items)) = N.of_nat (List.length items))
  /\ (forall items item,
         json_array_get (Some (json_array_push (JArray items) item))
                        (N.of_nat (List.length items)) = Some item)
  /\ (forall items item i,
         (i < N.of_nat (List.length items))%N ->
         json_array_get (Some (json_array_push (JArray items) item)) i
         = json_array_get (Some (JArray items)) i).
Proof.
  assert (In_range : forall items i,
            (i < N.of_nat (List.length items))%N ->
            json_array_get (Some (JArray items)) i
            = nth_error items (N.to_nat i)).
  { intros items i H. simpl.
    destruct (N.leb_spec (N.of_nat (List.length items)) i); [lia|reflexivity]. }
  split; [|split; [|split; [|split; [|split]]]].
  - intros v i [->|(x & -> & T)]; [split; reflexivity|].
    simpl. rewrite (type_not _ _ T). split; reflexivity.
  - intros items i H. simpl.
    destruct (N.leb_spec (N.of_nat (List.length items)) i); [reflexivity|lia].
  - intros items i H. rewrite (In_range items i H). split; [reflexivity|].
    destruct (nth_error items (N.to_nat i)) as [x|] eqn:E; [eauto|].
    apply nth_error_None in E. lia.
  - reflexivity.
  - intros items item. cbn [json_array_push].
    rewrite In_range by (rewrite length_app; simpl; lia).
    rewrite Nat2N.id, nth_error_app2 by lia.
    now rewrite Nat.sub_diag.
  - intros items item i H. cbn [json_array_push].
    rewrite In_range by (rewrite length_app; simpl; lia).
    rewrite (In_range items i H).
    apply nth_error_app1. lia.
Qed.

(** [array_access_in_range] at the array parsed from [[3,1,2]] and at a
    value that is not an array. *)
Lemma array_access_in_range_witness :
  let v := fst (json_parse (lit "[3,1,2]")) in
  json_array_size v = 3%N
  /\ json_array_get v 1 = Some (JNumber double_1)
  /\ json_array_get v 3 = None
  /\ json_array_get (Some JNull) 0 = None.
Proof.
  intros v.
  destruct array_access_in_range as (Other & Past & Within & Size & _ & _).
  assert (E : v = Some (JArray [JNumber (strtod (lit "3"));
                                 JNumber double_1; JNumber double_2]))
    by (vm_compute; reflexivity).
  rewrite E. split; [|split; [|split]].
  - apply Size.
  - destruct (Within [JNumber (strtod (lit "3")); JNumber double_1;
                      JNumber double_2] 1%N) as [G _]; [simpl; lia|].
    rewrite G. reflexivity.
  - apply Past. simpl. lia.
  - apply Other. right. eexists. split; [reflexivity | simpl; discriminate].
Defined.

(** C3. [json_object_put] appends its entry after the existing ones,
    whatever their keys are; [json_object_get] returns the value of the
    first entry, in insertion order, whose key equals the key looked up
    byte for byte, and NULL when there is none. Parsing an object with the
    key [a] twice keeps both entries and a lookup of [a] gives the first. *)
Theorem duplicate_keys_first_match :
  (forall entries key value,
      json_object_put (JObject entries) key value
      = JObject (entries ++ [(key, value)]))
  /\ (forall pre k v post key,
         Forall (other_key key) pre ->
         c_str k = c_str key ->
         json_object_get (Some (JObject (pre ++ (Some k, v) :: post))) key
         = Ok (Some v))
  /\ (forall entries key,
         Forall (other_key key) entries ->
         json_object_get (Some (JObject entries)) key = Ok None)
  /\ (forall entries k v v',
         json_object_get (Some (JObject entries)) k = Ok (Some v) ->
         json_object_get
           (Some (json_object_put (JObject entries) (Some k) v')) k
         = Ok (Some v))
  /\ (let text := lit "{" ++ quoted (lit "a") ++ lit ":1,"
                  ++ quoted (lit "a") ++ lit ":2}" in
      let entries := [(Some (lit "a"), JNumber double_1);
                      (Some (lit "a"), JNumber double_2)] in
      json_parse text = (Some (JObject entries), [])
      /\ List.length entries = 2
      /\ json_object_get (fst (json_parse text)) (lit "a")
         = Ok (Some (JNumber double_1))).
Proof.
  split; [reflexivity|]. split; [|split; [|split]].
  - intros pre k v post key Hpre Hk. now apply json_object_get_first.
  - intros entries key H. now apply json_object_get_absent.
  - intros entries k v v'. simpl.
    induction entries as [|[[k0|] v0] entries IH]; simpl;
      [discriminate| |discriminate].
    destruct (strcmp k0 k =? 0)%Z; [trivial | exact IH].
  - repeat split; vm_compute; reflexivity.
Qed.

(** [duplicate_keys_first_match] at an object with the key [a] twice and
    at one without it. *)
Lemma duplicate_keys_first_match_witness :
  json_object_get
    (Some (JObject [(Some (lit "b"), JNull); (Some (lit "a"), JBool 1);
                    (Some (lit "a"), JBool 0)])) (lit "a")
  = Ok (Some (JBool 1))
  /\ json_object_get (Some (JObject [(Some (lit "b"), JNull)])) (lit "a")
     = Ok None.
Proof.
  destruct duplicate_keys_first_match as (_ & First & Absent & _ & _).
  assert (B : other_key (lit "a") (Some (lit "b"), JNull)).
  { exists (lit "b"). split; [reflexivity | vm_compute; discriminate]. }
  split.
  - apply (First [(Some (lit "b"), JNull)] (lit "a") (JBool 1)
                 [(Some (lit "a"), JBool 0)] (lit "a")).
    + constructor; [exact B | constructor].
    + reflexivity.
  - apply Absent. constructor; [exact B | constructor].
Defined.

(** ** String literals: escapes *)

Lemma resolves_nil : resolves [] [].
Proof. intros st err buffer rest. now rewrite app_nil_r. Qed.

Lemma resolves_app (a b x y : chars) :
  resolves a x -> resolves b y -> resolves (a ++ b) (x ++ y).
Proof.
  intros Ha Hb st err buffer rest.
  now rewrite <- app_assoc, Ha, Hb, app_assoc.
Qed.

Lemma resolves_step (body out : chars) :
  (forall st err buffer rest,
      string_step buffer (mkParser st (body ++ rest) err)
      = Continue (buffer ++ out) (mkParser st rest err)) ->
  resolves body out.
Proof.
  intros H st err buffer rest. now rewrite string_run_step, H.
Qed.

Lemma resolves_plain_char (c : ascii) : is_plain c = true -> resolves [c] [c].
Proof.
  unfold is_plain. intros H.
  apply andb_true_iff in H as [H B]. apply andb_true_iff in H as [N Q].
  apply negb_true_iff in N, Q, B.
  apply resolves_step. intros st err buffer rest.
  unfold string_step, json_next. cbn [cur app deref].
  now rewrite N, Q, B.
Qed.

Lemma resolves_plain (a : chars) : forallb is_plain a = true -> resolves a a.
Proof.
  induction a as [|c a IH]; simpl; intros H; [apply resolves_nil|].
  apply andb_true_iff in H as [Hc Ha].
  apply (resolves_app [c] a [c] a); auto using resolves_plain_char.
Qed.

Lemma resolves_escape (e r : ascii) :
  In (e, r) escape_table -> resolves [BACKSLASH; e] [r].
Proof.
  intros H. apply resolves_step. intros st err buffer rest.
  simpl in H.
  repeat (destruct H as [[= <- <-]|H]; [reflexivity|]).
  contradiction.
Qed.

Lemma resolves_unicode (c1 c2 c3 c4 : ascii) :
  existsb (fun x => Ascii.eqb x NUL) [c1; c2; c3; c4] = false ->
  resolves [BACKSLASH; "u"; c1; c2; c3; c4] [BACKSLASH; "u"; c1; c2; c3; c4].
Proof.
  simpl. intros H.
  apply orb_false_iff in H as [H1 H]. apply orb_false_iff in H as [H2 H].
  apply orb_false_iff in H as [H3 H]. apply orb_false_iff in H as [H4 _].
  apply resolves_step. intros st err buffer rest.
  unfold string_step, copy_next, json_next, set_cur, advance. simpl.
  rewrite H1; simpl. rewrite H2; simpl. rewrite H3; simpl. rewrite H4; simpl.
  rewrite <- !app_assoc. reflexivity.
Qed.

(** The decoder of the design document is what the loop computes. *)
Lemma unescape_resolves (n : nat) :
  forall body out,
    List.length body <= n -> unescape body = Some out -> resolves body out.
Proof.
  induction n as [|n IH]; intros body out Hn H.
  - destruct body; simpl in *; [|lia]. injection H as <-. apply resolves_nil.
  - destruct body as [|c body1]; cbn [unescape] in H.
    { injection H as <-. apply resolves_nil. }
    destruct (Ascii.eqb_spec c BACKSLASH) as [->|_].
    + destruct body1 as [|e body2]; [discriminate|].
      destruct (Ascii.eqb_spec e "u") as [->|_].
      * destruct body2 as [|c1 [|c2 [|c3 [|c4 rest]]]]; try discriminate.
        destruct (existsb _ [c1; c2; c3; c4]) eqn:Z; [discriminate|].
        destruct (unescape rest) as [o|] eqn:U; [|discriminate].
        injection H as <-.
        apply (resolves_app [BACKSLASH; "u"; c1; c2; c3; c4] rest
                            [BACKSLASH; "u"; c1; c2; c3; c4] o).
        -- now apply resolves_unicode.
        -- apply IH; [simpl in Hn; lia | exact U].
      * destruct (find _ escape_table) as [[e' r]|] eqn:F; [|discriminate].
        destruct (unescape body2) as [o|] eqn:U; [|discriminate].
        injection H as <-.
        apply find_some in F. destruct F as [F1 F2].
        simpl in F2. apply Ascii.eqb_eq in F2. subst e'.
        apply (resolves_app [BACKSLASH; e] body2 [r] o).
        -- now apply resolves_escape.
        -- apply IH; [simpl in Hn; lia | exact U].
    + destruct (is_plain c) eqn:P; [|discriminate].
      destruct (unescape body1) as [o|] eqn:U; [|discriminate].
      injection H as <-.
      apply (resolves_app [c] body1 [c] o).
      * now apply resolves_plain_char.
      * apply IH; [simpl in Hn; lia | exact U].
Qed.

Lemma string_run_quote (st err : chars) (buffer rest : chars) :
  string_run buffer (mkParser st (DQUOTE :: rest) err)
  = Some (Some buffer, mkParser st (DQUOTE :: rest) err).
Proof. now rewrite string_run_step. Qed.

Lemma json_skip_ws_id (p : JsonParser) :
  is_ws (json_peek p) = false -> json_skip_ws p = p.
Proof.
  destruct p as [st c err]. unfold json_skip_ws, json_peek, set_cur.
  cbn [cur start error]. intros H. now rewrite skip_ws_head.
Qed.

(** A literal whose body resolves parses to the resolved string. *)
Lemma json_parse_quoted (body out : chars) :
  resolves body out ->
  json_parse (quoted body) = (Some (JString (Some out)), []).
Proof.
  intros R. unfold json_parse, quoted.
  cbn [json_parse_value List.length].
  rewrite json_skip_ws_id by reflexivity.
  unfold json_peek at 1. cbn [cur deref].
  rewrite Ascii.eqb_refl.
  unfold json_parse_string_literal.
  rewrite (json_expect_peeked _ DQUOTE) by (reflexivity || discriminate).
  unfold set_cur. cbn [cur advance tl start error].
  rewrite json_string_loop_run by (cbn [cur]; lia).
  rewrite (R _ _ [] [DQUOTE]), string_run_quote.
  unfold json_peek. cbn [cur deref]. rewrite Ascii.eqb_refl. cbn [negb].
  rewrite (json_expect_peeked _ DQUOTE) by (reflexivity || discriminate).
  reflexivity.
Qed.

(** A backslash followed by a character the [switch] has no case for. *)
Lemma string_step_bad_escape (st err buffer rest : chars) (e : ascii) :
  is_escape e = false -> e <> NUL ->
  string_step buffer (mkParser st (BACKSLASH :: e :: rest) err)
  = Exit (None, json_error (mkParser st rest err)
                           (lit "Invalid escape sequence")).
Proof.
  intros H N. apply Ascii.eqb_neq in N.
  unfold is_escape, escape_table, existsb, fst in H.
  repeat match goal with
         | X : (_ || _)%bool = false |- _ =>
             apply orb_false_iff in X as [? ?]
         end.
  unfold string_step, json_next, set_cur, advance.
  cbn [cur deref tl start error].
  change (Ascii.eqb BACKSLASH NUL) with false.
  change (Ascii.eqb BACKSLASH DQUOTE) with false.
  cbn [negb andb]. rewrite Ascii.eqb_refl.
  cbn [cur deref tl start error]. rewrite N.
  repeat match goal with
         | E : Ascii.eqb e ?c = false |- context [Ascii.eqb e ?c] =>
             rewrite E
         end.
  reflexivity.
Qed.

Lemma json_parse_bad_escape (a rest : chars) (e : ascii) :
  forallb is_plain a = true -> is_escape e = false -> e <> NUL ->
  json_parse (DQUOTE :: a ++ BACKSLASH :: e :: rest)
  = (None,
     lit "JSON parse error: Invalid escape sequence near "
     ++ firstn 32 (c_str rest) ++ [LF]).
Proof.
  intros Pa He Ne. unfold json_parse.
  cbn [json_parse_value List.length].
  rewrite json_skip_ws_id by reflexivity.
  unfold json_peek at 1. cbn [cur deref].
  rewrite Ascii.eqb_refl.
  unfold json_parse_string_literal.
  rewrite (json_expect_peeked _ DQUOTE) by (reflexivity || discriminate).
  unfold set_cur. cbn [cur advance tl start error].
  rewrite json_string_loop_run by (cbn [cur]; lia).
  rewrite (resolves_plain a Pa), string_run_step.
  rewrite string_step_bad_escape by assumption.
  rewrite json_error_stores by reflexivity.
  cbn [set_error error cur start].
  rewrite firstn_all2.
  2:{ rewrite !length_app.
      pose proof (firstn_le_length 32 (c_str rest)).
      change (List.length (c_str (lit "Invalid escape sequence"))) with 23.
      change (List.length (lit " near ")) with 6. lia. }
  reflexivity.
Qed.

Lemma json_parse_lone_backslash (a : chars) :
  forallb is_plain a = true ->
  json_parse (DQUOTE :: a ++ [BACKSLASH])
  = (None,
     lit "JSON parse error: Unterminated escape sequence near " ++ [LF]).
Proof.
  intros Pa. unfold json_parse.
  cbn [json_parse_value List.length].
  rewrite json_skip_ws_id by reflexivity.
  unfold json_peek at 1. cbn [cur deref].
  rewrite Ascii.eqb_refl.
  unfold json_parse_string_literal.
  rewrite (json_expect_peeked _ DQUOTE) by (reflexivity || discriminate).
  unfold set_cur. cbn [cur advance tl start error].
  rewrite json_string_loop_run by (cbn [cur]; lia).
  rewrite (resolves_plain a Pa), string_run_step.
  reflexivity.
Qed.

Lemma json_parse_unescape (body out : chars) :
  unescape body = Some out ->
  json_parse (quoted body) = (Some (JString (Some out)), []).
Proof.
  intros H. apply json_parse_quoted.
  now apply (unescape_resolves (List.length body)).
Qed.

(** C2. Inside a string literal each of the eight escapes stands for its
    single byte, a [u] escape is copied with the four characters after it
    as six characters, and a backslash followed by any other character (or
    by the end of the input) is a parse error. More generally a literal
    parses to what the decoder of the design document gives for its body.
    The two examples: [a], backslash, [n], [b] gives [a], LF, [b], and
    backslash, [u00e9] gives these six characters. *)
Theorem escape_fidelity :
  (forall a b e r,
      forallb is_plain a = true -> forallb is_plain b = true ->
      In (e, r) escape_table ->
      json_parse (quoted (a ++ [BACKSLASH; e] ++ b))
      = (Some (JString (Some (a ++ [r] ++ b))), []))
  /\ (forall a b c1 c2 c3 c4,
         forallb is_plain a = true -> forallb is_plain b = true ->
         existsb (fun x => Ascii.eqb x NUL) [c1; c2; c3; c4] = false ->
         json_parse (quoted (a ++ [BACKSLASH; "u"; c1; c2; c3; c4] ++ b))
         = (Some (JString
                    (Some (a ++ [BACKSLASH; "u"; c1; c2; c3; c4] ++ b))), []))
  /\ (forall a e rest,
         forallb is_plain a = true -> is_escape e = false -> e <> NUL ->
         json_parse (DQUOTE :: a ++ BACKSLASH :: e :: rest)
         = (None,
            lit "JSON parse error: Invalid escape sequence near "
            ++ firstn 32 (c_str rest) ++ [LF]))
  /\ (forall a,
         forallb is_plain a = true ->
         json_parse (DQUOTE :: a ++ [BACKSLASH])
         = (None,
            lit "JSON parse error: Unterminated escape sequence near "
            ++ [LF]))
  /\ (forall body out,
         unescape body = Some out ->
         json_parse (quoted body) = (Some (JString (Some out)), []))
  /\ json_parse (quoted (lit "a" ++ [BACKSLASH; "n"] ++ lit "b"))
     = (Some (JString (Some ["a"; LF; "b"])), [])
  /\ json_parse (quoted ([BACKSLASH; "u"] ++ lit "00e9"))
     = (Some (JString (Some [BACKSLASH; "u"; "0"; "0"; "e"; "9"])), []).
Proof.
  split; [|split; [|split; [|split; [|split; [|split]]]]].
  - intros a b e r Pa Pb He. apply json_parse_quoted.
    apply resolves_app; [now apply resolves_plain|].
    apply (resolves_app [BACKSLASH; e] b [r] b);
      [now apply resolves_escape | now apply resolves_plain].
  - intros a b c1 c2 c3 c4 Pa Pb Hc. apply json_parse_quoted.
    apply resolves_app; [now apply resolves_plain|].
    apply (resolves_app [BACKSLASH; "u"; c1; c2; c3; c4] b
                        [BACKSLASH; "u"; c1; c2; c3; c4] b);
      [now apply resolves_unicode | now apply resolves_plain].
  - intros a e rest. apply json_parse_bad_escape.
  - exact json_parse_lone_backslash.
  - exact json_parse_unescape.
  - vm_compute. reflexivity.
  - vm_compute. reflexivity.
Qed.

(** [escape_fidelity] at a tab escape between plain text and at the
    escape [x], which the parser does not know. *)
Lemma escape_fidelity_witness :
  json_parse (quoted (lit "tab" ++ [BACKSLASH; "t"] ++ lit "stop"))
  = (Some (JString (Some (lit "tab" ++ [TAB] ++ lit "stop"))), [])
  /\ json_parse (DQUOTE :: lit "a" ++ BACKSLASH :: "x" :: lit "yz")
     = (None,
        lit "JSON parse error: Invalid escape sequence near "
        ++ firstn 32 (c_str (lit "yz")) ++ [LF]).
Proof.
  destruct escape_fidelity as (Simple & _ & Bad & _).
  split.
  - apply Simple; [reflexivity | reflexivity |].
    simpl. do 7 right. left. reflexivity.
  - apply Bad; [reflexivity | reflexivity | discriminate].
Defined.

(** C10. The four characters after a [u] escape are not checked to be
    hexadecimal digits: whatever they are, and whatever the rest of the
    literal is, the escape is accepted and the six characters are copied
    into the string as they stand. *)
Theorem unicode_escape_not_validated :
  (forall pre post out1 out2 c1 c2 c3 c4,
      unescape pre = Some out1 -> unescape post = Some out2 ->
      existsb (fun x => Ascii.eqb x NUL) [c1; c2; c3; c4] = false ->
      json_parse (quoted (pre ++ [BACKSLASH; "u"; c1; c2; c3; c4] ++ post))
      = (Some (JString
                 (Some (out1 ++ [BACKSLASH; "u"; c1; c2; c3; c4] ++ out2))),
         []))
  /\ json_parse (quoted ([BACKSLASH; "u"] ++ lit "ZZZZ"))
     = (Some (JString (Some [BACKSLASH; "u"; "Z"; "Z"; "Z"; "Z"])), []).
Proof.
  split; [|vm_compute; reflexivity].
  intros pre post out1 out2 c1 c2 c3 c4 H1 H2 Hc.
  apply json_parse_quoted.
  apply resolves_app;
    [now apply (unescape_resolves (List.length pre))|].
  apply (resolves_app [BACKSLASH; "u"; c1; c2; c3; c4] post
                      [BACKSLASH; "u"; c1; c2; c3; c4] out2);
    [now apply resolves_unicode
    | now apply (unescape_resolves (List.length post))].
Qed.

(** [unicode_escape_not_validated] at a [u] escape followed by a quote, a
    space, a minus and a [g], after a newline escape. *)
Lemma unicode_escape_not_validated_witness :
  json_parse (quoted (["x"; BACKSLASH; "n"]
                      ++ [BACKSLASH; "u"; DQUOTE; " "; "-"; "g"]
                      ++ lit "y"))
  = (Some (JString (Some (["x"; LF]
                          ++ [BACKSLASH; "u"; DQUOTE; " "; "-"; "g"]
                          ++ lit "y"))), []).
Proof.
  destruct unicode_escape_not_validated as [Any _].
  apply (Any ["x"; BACKSLASH; "n"] (lit "y") ["x"; LF] (lit "y")
             DQUOTE " " "-" "g"); reflexivity.
Defined.

(** ** Numbers *)

Lemma span_digits_snd (s : chars) : snd (span_digits s) = skip_digits s.
Proof.
  induction s as [|c s IH]; simpl; [reflexivity|].
  destruct (is_digit c); [|reflexivity].
  destruct (span_digits s); simpl in *. exact IH.
Qed.

(** The lax grammar accepts a token exactly when the scan of
    [json_parse_number] consumes all of it. *)
Lemma lax_number_end (t : chars) :
  lax_number t = negb (nonempty (number_end t)).
Proof.
  rewrite number_end_stages.
  unfold lax_number, number_grammar, skip_exp, skip_frac.
  fold (skip_sign t).
  pose proof (span_digits_snd (skip_sign t)) as E1.
  destruct (span_digits (skip_sign t)) as [ip r1]. simpl in E1. subst r1.
  set (s1 := skip_digits (skip_sign t)).
  pose proof (span_digits_snd (advance s1)) as E2.
  destruct (span_digits (advance s1)) as [fp r2]. simpl in E2. subst r2.
  set (s2 := if Ascii.eqb (deref s1) "." then skip_digits (advance s1) else s1).
  assert (E : (if Ascii.eqb (deref s1) "."
               then (true, skip_digits (advance s1)) else (true, s1))
              = (true, s2))
    by (subst s2; destruct (Ascii.eqb (deref s1) "."); reflexivity).
  rewrite E. clear E.
  destruct (_ || _)%bool; [|reflexivity].
  cbv zeta.
  set (s3 := if (_ || _)%bool then advance (advance s2) else advance s2).
  pose proof (span_digits_snd s3) as E3.
  destruct (span_digits s3) as [ed r3]. simpl in E3. subst r3.
  reflexivity.
Qed.

Lemma spec_number_lax (t : chars) :
  spec_number t = true -> lax_number t = true.
Proof.
  unfold spec_number, lax_number, number_grammar.
  destruct (span_digits _) as [ip r1].
  destruct (span_digits (advance r1)) as [fp r2].
  destruct (Ascii.eqb (deref r1) ".").
  - destruct (_ || _)%bool.
    + destruct (span_digits _) as [ed r3].
      destruct (nonempty ip), (nonempty fp), (nonempty ed); simpl; congruence.
    + destruct (nonempty ip), (nonempty fp); simpl; congruence.
  - destruct (_ || _)%bool.
    + destruct (span_digits _) as [ed r3].
      destruct (nonempty ip), (nonempty ed); simpl; congruence.
    + destruct (nonempty ip); simpl; congruence.
Qed.

Lemma suffix_refl (s : chars) : suffix s s.
Proof. now exists []. Qed.

Lemma suffix_trans (a b c : chars) : suffix a b -> suffix b c -> suffix a c.
Proof.
  intros [p ->] [q ->]. exists (q ++ p). now rewrite app_assoc.
Qed.

Lemma suffix_advance (s : chars) : suffix (advance s) s.
Proof. destruct s as [|c s]; [apply suffix_refl | now exists [c]]. Qed.

Lemma suffix_skip_digits (s : chars) : suffix (skip_digits s) s.
Proof.
  induction s as [|c s IH]; simpl; [apply suffix_refl|].
  destruct (is_digit c); [|apply suffix_refl].
  eapply suffix_trans; [exact IH | now exists [c]].
Qed.

Lemma number_end_suffix (s : chars) : suffix (number_end s) s.
Proof.
  rewrite number_end_stages. unfold skip_exp, skip_frac, skip_sign.
  repeat match goal with
         | |- suffix ?x ?x => apply suffix_refl
         | |- suffix (if ?c then _ else _) _ => destruct c
         | |- suffix (skip_digits _) _ =>
             eapply suffix_trans; [apply suffix_skip_digits|]
         | |- suffix (advance _) _ =>
             eapply suffix_trans; [apply suffix_advance|]
         | |- suffix (let _ := _ in _) _ => cbv zeta
         end.
Qed.

Section NumberFollowedBy.

(** What follows the token does not start like a part of a number. *)
Variable ws : chars.
Hypothesis ws_inert : number_char (deref ws) = false.

Lemma deref_app_number_char (a : chars) (x : ascii) :
  number_char x = true ->
  Ascii.eqb (deref (a ++ ws)) x = Ascii.eqb (deref a) x.
Proof.
  intros Hx. destruct a as [|c a]; [|reflexivity].
  change (deref ([] ++ ws)) with (deref ws).
  change (deref []) with NUL.
  destruct (Ascii.eqb_spec (deref ws) x) as [E|_].
  - rewrite E in ws_inert. congruence.
  - destruct (Ascii.eqb_spec NUL x) as [E|_]; [|reflexivity].
    subst x. discriminate Hx.
Qed.

Lemma skip_digits_app_inert (a : chars) :
  skip_digits (a ++ ws) = skip_digits a ++ ws.
Proof.
  induction a as [|c a IH]; simpl.
  - destruct ws as [|w ws']; [reflexivity|]. simpl in *.
    unfold number_char in ws_inert.
    destruct (is_digit w); [discriminate ws_inert | reflexivity].
  - destruct (is_digit c); [exact IH | reflexivity].
Qed.

Lemma advance_app_inert (a : chars) (x : ascii) :
  number_char x = true -> Ascii.eqb (deref a) x = true ->
  advance (a ++ ws) = advance a ++ ws.
Proof.
  intros Hx H. destruct a as [|c a]; [|reflexivity].
  change (deref []) with NUL in H.
  apply Ascii.eqb_eq in H. subst x. discriminate Hx.
Qed.

Lemma number_end_app_inert (a : chars) :
  number_end (a ++ ws) = number_end a ++ ws.
Proof.
  rewrite !number_end_stages.
  assert (S1 : skip_sign (a ++ ws) = skip_sign a ++ ws).
  { unfold skip_sign. rewrite deref_app_number_char by reflexivity.
    destruct (Ascii.eqb (deref a) "-") eqn:E; [|reflexivity].
    now apply advance_app_inert with (x := "-"%char). }
  rewrite S1, skip_digits_app_inert.
  set (a1 := skip_digits (skip_sign a)).
  assert (S2 : skip_frac (a1 ++ ws) = skip_frac a1 ++ ws).
  { unfold skip_frac. rewrite deref_app_number_char by reflexivity.
    destruct (Ascii.eqb (deref a1) ".") eqn:E; [|reflexivity].
    rewrite (advance_app_inert a1 "." eq_refl E).
    apply skip_digits_app_inert. }
  rewrite S2. set (a2 := skip_frac a1).
  unfold skip_exp.
  rewrite !deref_app_number_char by reflexivity.
  destruct (Ascii.eqb (deref a2) "e" || Ascii.eqb (deref a2) "E")%bool eqn:E;
    [|reflexivity].
  cbv zeta.
  assert (A : advance (a2 ++ ws) = advance a2 ++ ws).
  { apply orb_true_iff in E as [E|E];
      [now apply advance_app_inert with (x := "e"%char)
      |now apply advance_app_inert with (x := "E"%char)]. }
  rewrite A, !deref_app_number_char by reflexivity.
  destruct (Ascii.eqb (deref (advance a2)) "+"
            || Ascii.eqb (deref (advance a2)) "-")%bool eqn:E';
    [|apply skip_digits_app_inert].
  assert (A' : advance (advance a2 ++ ws) = advance (advance a2) ++ ws).
  { apply orb_true_iff in E' as [E'|E'];
      [now apply advance_app_inert with (x := "+"%char)
      |now apply advance_app_inert with (x := "-"%char)]. }
  rewrite A'. apply skip_digits_app_inert.
Qed.

End NumberFollowedBy.

Lemma number_start_other (c x : ascii) :
  (Ascii.eqb c "-" || is_digit c)%bool = true ->
  (Ascii.eqb x "-" || is_digit x)%bool = false ->
  Ascii.eqb c x = false.
Proof.
  intros Hc Hx. destruct (Ascii.eqb_spec c x) as [->|_]; congruence.
Qed.

Lemma number_start_not_ws (c : ascii) :
  (Ascii.eqb c "-" || is_digit c)%bool = true -> is_ws c = false.
Proof.
  intros Hc. unfold is_ws.
  rewrite !(number_start_other c _ Hc) by reflexivity. reflexivity.
Qed.

(** Where the cursor is at ['-'] or at a digit, [json_parse_value] is
    [json_parse_number]. *)
Lemma json_parse_value_number (fuel : nat) (p : JsonParser) :
  (Ascii.eqb (json_peek p) "-" || is_digit (json_peek p))%bool = true ->
  json_parse_value (S fuel) p = Some (json_parse_number p).
Proof.
  intros H. cbn [json_parse_value].
  rewrite json_skip_ws_id by now apply number_start_not_ws.
  rewrite !(number_start_other (json_peek p) _ H) by reflexivity.
  now rewrite H.
Qed.

Lemma not_token_char_inert (rest : chars) :
  is_token_char (deref rest) = false -> number_char (deref rest) = false.
Proof.
  unfold is_token_char. intros H.
  apply andb_false_iff in H as [H|H]; apply negb_false_iff in H.
  - apply Ascii.eqb_eq in H. now rewrite H.
  - unfold is_ws in H.
    repeat (apply orb_true_iff in H as [H|H]);
      apply Ascii.eqb_eq in H; rewrite H; reflexivity.
Qed.

(** [json_parse_number] on a token and what follows it: the characters
    the scan consumed are converted and the rest is left. *)
Lemma json_parse_number_token (tok rest : chars) :
  is_token_char (deref rest) = false ->
  exists pre,
    tok = pre ++ number_end tok
    /\ json_parse_number (initial (tok ++ rest))
       = (Some (JNumber (strtod pre)),
          mkParser (tok ++ rest) (number_end tok ++ rest) []).
Proof.
  intros Hrest.
  destruct (number_end_suffix tok) as [pre Hpre].
  exists pre. split; [exact Hpre|].
  unfold json_parse_number, initial, set_cur. cbn [cur start error].
  rewrite (number_end_app_inert rest (not_token_char_inert rest Hrest)).
  replace (List.length (tok ++ rest)
           - List.length (number_end tok ++ rest)) with (List.length pre).
  2:{ rewrite Hpre at 1. rewrite !length_app. lia. }
  replace (firstn (List.length pre) (tok ++ rest)) with pre.
  2:{ rewrite Hpre at 1. rewrite <- app_assoc.
      rewrite firstn_app, Nat.sub_diag, firstn_all. simpl.
      now rewrite app_nil_r. }
  reflexivity.
Qed.

(** C1, as the code has it. Take an input that starts with ['-'] or a
    digit and split it into its token (the characters up to the first
    whitespace or the end) and the rest. The parse succeeds exactly when
    the token matches [number_grammar] with every run of digits allowed to
    be empty and the rest is whitespace only; the number is then [strtod]
    of the token. Otherwise it fails with the trailing-characters message.
    A token of the grammar of the design document matches the laxer one. *)
Theorem number_tokens (tok rest : chars) :
  (Ascii.eqb (deref tok) "-" || is_digit (deref tok))%bool = true ->
  forallb is_token_char tok = true ->
  is_token_char (deref rest) = false ->
  json_parse (tok ++ rest)
  = (if (lax_number tok && forallb is_ws (c_str rest))%bool
     then (Some (JNumber (strtod tok)), [])
     else (None, lit "JSON parse error: trailing characters" ++ [LF]))
  /\ (spec_number tok = true -> lax_number tok = true).
Proof.
  intros Hstart Htok Hrest.
  split; [|apply spec_number_lax].
  assert (Ne : tok <> []) by (intros ->; discriminate Hstart).
  unfold json_parse. fold (initial (tok ++ rest)).
  rewrite json_parse_value_number
    by (unfold json_peek, initial; cbn [cur]; now rewrite deref_app).
  destruct (json_parse_number_token tok rest Hrest) as (pre & Hpre & ->).
  cbn [error deref orb negb]. change (Ascii.eqb NUL NUL) with true.
  cbn [negb]. unfold json_skip_ws, set_cur. cbn [cur start error].
  rewrite lax_number_end.
  destruct (number_end tok) as [|c r] eqn:E.
  - rewrite app_nil_r in Hpre. subst pre.
    cbn [app nonempty negb andb]. rewrite skip_ws_end.
    destruct (forallb is_ws (c_str rest)); reflexivity.
  - assert (In c tok) by (rewrite Hpre; apply in_or_app; right; now left).
    assert (T : is_token_char c = true)
      by (rewrite forallb_forall in Htok; now apply Htok).
    unfold is_token_char in T. apply andb_true_iff in T as [T1 T2].
    apply negb_true_iff in T2.
    cbn [app skip_ws nonempty negb andb]. rewrite T2. cbn [deref].
    now rewrite T1.
Qed.

(** [number_tokens] at a number with every part and trailing whitespace,
    and at a token with two fractions. *)
Lemma number_tokens_witness :
  json_parse (lit "-12.5E+3" ++ [" "; LF])
  = (Some (JNumber (strtod (lit "-12.5E+3"))), [])
  /\ json_parse (lit "1.5.5" ++ [])
     = (None, lit "JSON parse error: trailing characters" ++ [LF]).
Proof.
  split.
  - apply (number_tokens (lit "-12.5E+3") [" "; LF]); reflexivity.
  - apply (number_tokens (lit "1.5.5") []); reflexivity.
Defined.

(** C1, as the design document has it, fails: a lone ['-'] and [1.] are
    outside its grammar, and both parse, to the numbers [0] and [1]. *)
Lemma number_grammar_counterexample :
  spec_number (lit "-") = false
  /\ json_parse (lit "-") = (Some (JNumber (S754_zero false)), [])
  /\ spec_number (lit "1.") = false
  /\ json_parse (lit "1.") = (Some (JNumber double_1), []).
Proof. repeat split; vm_compute; reflexivity. Qed.

(** ** Examples *)

(** [strtod] on the usual landmarks of binary64. *)

Example strtod_tenth :
  strtod (lit "0.1") = S754_finite false 7205759403792794 (-56).
Proof. vm_compute. reflexivity. Qed.

Example strtod_huge : strtod (lit "1e400") = S754_infinity false.
Proof. vm_compute. reflexivity. Qed.

Example strtod_tiny : strtod (lit "-1e-400") = S754_zero true.
Proof. vm_compute. reflexivity. Qed.

Example strtod_denormal_min :
  strtod (lit "4.9406564584124654e-324") = S754_finite false 1 (-1074).
Proof. vm_compute. reflexivity. Qed.

Example strtod_max :
  strtod (lit "1.7976931348623157e308")
  = S754_finite false 9007199254740991 971.
Proof. vm_compute. reflexivity. Qed.

Example strtod_no_digits : strtod (lit "-") = S754_zero false.
Proof. vm_compute. reflexivity. Qed.

Example strtod_bare_exponent : strtod (lit "12e") = strtod (lit "12").
Proof. vm_compute. reflexivity. Qed.

Example strtod_tie_to_even :
  strtod (lit "9007199254740993") = S754_finite false 4503599627370496 1
  /\ strtod (lit "9007199254740995") = S754_finite false 4503599627370498 1.
Proof. split; vm_compute; reflexivity. Qed.

Example strtod_largest_subnormal :
  strtod (lit "2.2250738585072011e-308")
  = S754_finite false 4503599627370495 (-1074).
Proof. vm_compute. reflexivity. Qed.

Example strtod_half_of_denormal_min :
  strtod (lit "2e-324") = S754_zero false
  /\ strtod (lit "3e-324") = S754_finite false 1 (-1074).
Proof. split; vm_compute; reflexivity. Qed.

Example strtod_one : strtod (lit "1.") = double_1.
Proof. vm_compute. reflexivity. Qed.

(** Malformed inputs fail. *)

Example parse_open_brace :
  json_parse (lit "{")
  = (None, lit "JSON parse error: Expected string key near " ++ [LF]).
Proof. vm_compute. reflexivity. Qed.

Example parse_open_array :
  json_parse (lit "[1,")
  = (None, lit "JSON parse error: Unexpected character near " ++ [LF]).
Proof. vm_compute. reflexivity. Qed.

Example parse_unterminated_string :
  json_parse (DQUOTE :: lit "unterminated")
  = (None, lit "JSON parse error: Unterminated string literal near " ++ [LF]).
Proof. vm_compute. reflexivity. Qed.

Example parse_tru :
  json_parse (lit "tru")
  = (None, lit "JSON parse error: Unexpected literal near tru" ++ [LF]).
Proof. vm_compute. reflexivity. Qed.

(** A failed key leaves a null key pointer in the partial object, which
    the failed parse does not hand out. *)
Example partial_object_null_key :
  json_parse_value 9 (initial (lit "{" ++ [DQUOTE; BACKSLASH] ++ lit "x:1}"))
  = Some (Some (JObject [(None, JNumber double_1)]),
          mkParser (lit "{" ++ [DQUOTE; BACKSLASH] ++ lit "x:1}") []
                   (lit "Invalid escape sequence near :1}")).
Proof. vm_compute. reflexivity. Qed.

(** * Further properties of the parser *)

(** X1. The parser terminates: with more fuel than there are characters
    left, [json_parse_value] returns a result, does not move the cursor
    back, and returns the same result with any larger amount of fuel. *)
Theorem parser_terminates (fuel : nat) (p : JsonParser) :
  List.length (cur p) < fuel ->
  exists value p',
    json_parse_value fuel p = Some (value, p')
    /\ List.length (cur p') <= List.length (cur p)
    /\ (forall fuel', fuel <= fuel' ->
                      json_parse_value fuel' p = Some (value, p')).
Proof.
  intros Hf.
  pose proof (json_parse_value_total fuel p Hf) as T.
  destruct (json_parse_value fuel p) as [[value p']|] eqn:H; [|contradiction].
  exists value, p'. split; [reflexivity|]. split.
  - apply json_parse_value_post in H. now destruct H as [[L _] _].
  - intros fuel' Hle. now apply (json_parse_value_mono fuel fuel').
Qed.

(** [parser_terminates] at a nested input with one character more of fuel
    than the input has. *)
Lemma parser_terminates_witness :
  exists value p',
    json_parse_value 9 (initial (lit "[[1],{}]")) = Some (value, p')
    /\ List.length (cur p') <= 8
    /\ (forall fuel', 9 <= fuel' ->
          json_parse_value fuel' (initial (lit "[[1],{}]"))
          = Some (value, p')).
Proof.
  apply (parser_terminates 9 (initial (lit "[[1],{}]"))).
  simpl. lia.
Defined.

(** X2. [json_parse] has three outcomes and no other: a value and nothing
    on [stderr]; NULL and the trailing-characters line; NULL and a line
    made of the latched message. The fallback message [unknown] of the
    code is never printed, and a value is never returned together with a
    message. *)
Theorem parse_outcomes (text : chars) :
  (exists v, json_parse text = (Some v, []))
  \/ json_parse text
     = (None, lit "JSON parse error: trailing characters" ++ [LF])
  \/ (exists value parser,
         json_parse_value (S (List.length text)) (initial text)
         = Some (value, parser)
         /\ latched parser = true
         /\ json_parse text
            = (None, lit "JSON parse error: " ++ error parser ++ [LF])).
Proof.
  destruct (json_parse_runs text) as (value & parser & H).
  pose proof (json_parse_value_post _ _ _ H) as (_ & N & _).
  cbn [fst snd] in N.
  unfold json_parse. fold (initial text). rewrite H. fold (latched parser).
  destruct (latched parser) eqn:L.
  - right. right. exists value, parser.
    split; [reflexivity|]. split; [exact L|].
    now rewrite orb_true_r.
  - destruct value as [v|]; [|discriminate (N eq_refl)].
    cbn [orb]. destruct (negb _); [right; left; reflexivity|].
    left. now exists v.
Qed.

Lemma json_object_find_well_formed
    (entries : list (option chars * JsonValue)) (key : chars) :
  well_formed (JObject entries) = true ->
  exists r, json_object_find entries key = Ok r
            /\ forall x, r = Some x -> well_formed x = true.
Proof.
  induction entries as [|[[k|] v] entries IH]; cbn [well_formed forallb].
  - intros _. exists None. split; [reflexivity | discriminate].
  - intros W. apply andb_true_iff in W as [Wv W].
    cbn [json_object_find].
    destruct (strcmp k key =? 0)%Z.
    + exists (Some v). split; [reflexivity|]. now intros x [= <-].
    + now apply IH.
  - discriminate.
Qed.

(** X3. The accessors are safe on every tree a parse returns. Such a tree
    has no null text pointer; on a tree without null text pointers
    [json_object_get] never compares through a null key, and what it or
    [json_array_get] returns is again such a tree, so every chain of
    lookups is defined; and [json_get_string] on a String of such a tree
    returns its text. *)
Theorem parsed_tree_lookups_defined :
  (forall text v stderr,
      json_parse text = (Some v, stderr) -> well_formed v = true)
  /\ (forall v key,
         well_formed v = true ->
         exists r, json_object_get (Some v) key = Ok r
                   /\ forall x, r = Some x -> well_formed x = true)
  /\ (forall v i x,
         well_formed v = true ->
         json_array_get (Some v) i = Some x -> well_formed x = true)
  /\ (forall v d,
         well_formed v = true -> type v = JSON_STRING ->
         exists s, v = JString (Some s)
                   /\ json_get_string (Some v) d = Some s).
Proof.
  split; [exact json_parse_well_formed|]. split; [|split].
  - intros v key W.
    destruct v; try (exists None; split; [reflexivity | discriminate]).
    now apply json_object_find_well_formed.
  - intros v i x W H. destruct v; try discriminate H.
    cbn in H. destruct (N.leb _ i); [discriminate|].
    cbn [well_formed] in W. rewrite forallb_forall in W.
    apply W. eapply nth_error_In. exact H.
  - intros v d W T. destruct v; try discriminate T.
    destruct string as [s|]; [|discriminate W].
    exists s. split; reflexivity.
Qed.

(** [parsed_tree_lookups_defined] at a parsed object with a nested
    array. *)
Lemma parsed_tree_lookups_defined_witness :
  let text := lit "{" ++ quoted (lit "a") ++ lit ":[null]}" in
  exists v r,
    json_parse text = (Some v, [])
    /\ json_object_get (Some v) (lit "a") = Ok r
    /\ forall x, json_array_get r 0 = Some x -> well_formed x = true.
Proof.
  intros text.
  destruct parsed_tree_lookups_defined as (Parsed & Get & Nth & _).
  assert (E : json_parse text = (Some (JObject [(Some (lit "a"),
                                                  JArray [JNull])]), []))
    by (vm_compute; reflexivity).
  pose proof (Parsed _ _ _ E) as W.
  destruct (Get _ (lit "a") W) as (r & G & Wr).
  exists (JObject [(Some (lit "a"), JArray [JNull])]), r.
  split; [exact E|]. split; [exact G|].
  intros x Hx. destruct r as [a|]; [|discriminate Hx].
  apply (Nth a 0%N x); [now apply Wr | exact Hx].
Defined.

(** What [json_parse] makes of a value parsed without an error. *)
Lemma json_parse_after_value (text : chars) (v : JsonValue)
    (parser : JsonParser) :
  json_parse_value (S (List.length text)) (initial text)
  = Some (Some v, parser) ->
  latched parser = false ->
  json_parse text
  = if forallb is_ws (c_str (cur parser)) then (Some v, [])
    else (None, lit "JSON parse error: trailing characters" ++ [LF]).
Proof.
  intros H L. unfold json_parse. fold (initial text).
  rewrite H. fold (latched parser). rewrite L. cbn [orb].
  cbn [json_skip_ws cur set_cur]. rewrite skip_ws_end.
  destruct (forallb is_ws (c_str (cur parser))); reflexivity.
Qed.

(** What [json_parse] makes of a failure of the value. *)
Lemma json_parse_after_error (text : chars) (value : option JsonValue)
    (parser : JsonParser) :
  json_parse_value (S (List.length text)) (initial text)
  = Some (value, parser) ->
  latched parser = true ->
  json_parse text = (None, lit "JSON parse error: " ++ error parser ++ [LF]).
Proof.
  intros H L. unfold json_parse. fold (initial text).
  rewrite H. fold (latched parser). rewrite L.
  now rewrite orb_true_r.
Qed.

(** The slot after a short message was latched into an empty one. *)
Lemma json_error_short (p : JsonParser) (message : chars) :
  latched p = false ->
  List.length (c_str message) <= 89 ->
  error (json_error p message)
  = c_str message ++ lit " near " ++ firstn 32 (c_str (cur p)).
Proof.
  intros L Hm. rewrite json_error_stores by exact L.
  cbn [error set_error]. apply firstn_all2.
  rewrite !length_app.
  pose proof (firstn_le_length 32 (c_str (cur p))).
  change (List.length (lit " near ")) with 6. lia.
Qed.

Lemma strncmp_eq0_app (l rest : chars) : strncmp_eq0 (l ++ rest) l = true.
Proof.
  induction l as [|c l IH]; simpl; [reflexivity|].
  now rewrite Ascii.eqb_refl.
Qed.

Lemma skipn_length_app (l rest : chars) :
  skipn (List.length l) (l ++ rest) = rest.
Proof. induction l as [|c l IH]; simpl; [reflexivity | exact IH]. Qed.

(** Where the cursor is at the first letter of a literal,
    [json_parse_value] is [json_parse_literal] for that literal. *)
Lemma json_parse_value_literal (fuel : nat) (p : JsonParser) :
  (json_peek p = "t" ->
   json_parse_value (S fuel) p
   = Some (json_parse_literal p (lit "true") JSON_BOOL 1))
  /\ (json_peek p = "f" ->
      json_parse_value (S fuel) p
      = Some (json_parse_literal p (lit "false") JSON_BOOL 0))
  /\ (json_peek p = "n" ->
      json_parse_value (S fuel) p
      = Some (json_parse_literal p (lit "null") JSON_NULL 0)).
Proof.
  repeat split; intros Hp; cbn [json_parse_value];
    (rewrite json_skip_ws_id by (rewrite Hp; reflexivity));
    rewrite Hp; reflexivity.
Qed.

(** X4. A literal is matched as a prefix of what is left. An input that
    starts with [true], [false] or [null] gives the value when only
    whitespace follows the literal and is a trailing-characters failure
    otherwise, whatever follows (so [nullx] is not a literal error); an
    input that starts with the first letter of a literal and not with the
    literal fails with the unexpected-literal message, the tag being the
    first 32 characters of the input. *)
Theorem literal_prefix :
  (forall l v rest,
      In (l, v) literal_table ->
      json_parse (l ++ rest)
      = if forallb is_ws (c_str rest) then (Some v, [])
        else (None, lit "JSON parse error: trailing characters" ++ [LF]))
  /\ (forall l v text,
         In (l, v) literal_table ->
         deref text = deref l ->
         strncmp_eq0 text l = false ->
         json_parse text
         = (None,
            lit "JSON parse error: Unexpected literal near "
            ++ firstn 32 (c_str text) ++ [LF])).
Proof.
  split.
  - intros l v rest H.
    apply (json_parse_after_value (l ++ rest) v
             (mkParser (l ++ rest) rest [])); [|reflexivity].
    destruct (json_parse_value_literal (List.length (l ++ rest))
                (initial (l ++ rest))) as (T & F & N).
    simpl in H.
    destruct H as [[= <- <-]|[[= <- <-]|[[= <- <-]|[]]]];
      [rewrite T by reflexivity | rewrite F by reflexivity
       | rewrite N by reflexivity];
      unfold json_parse_literal, initial; cbn [cur];
      rewrite strncmp_eq0_app, skipn_length_app; reflexivity.
  - intros l v text H Hd Hn.
    assert (Run : json_parse_value (S (List.length text)) (initial text)
                  = Some (None, json_error (initial text)
                                           (lit "Unexpected literal"))).
    { destruct (json_parse_value_literal (List.length text) (initial text))
        as (T & F & N).
      simpl in H.
      destruct H as [[= <- <-]|[[= <- <-]|[[= <- <-]|[]]]];
        [rewrite T by exact Hd | rewrite F by exact Hd
         | rewrite N by exact Hd];
        unfold json_parse_literal, initial;
        cbn [cur lit list_ascii_of_string]; rewrite Hn; reflexivity. }
    rewrite (json_parse_after_error text _ _ Run)
      by apply json_error_latched.
    rewrite json_error_short by (reflexivity || (simpl; lia)).
    reflexivity.
Qed.

(** [literal_prefix] at [null] followed by a letter and at a misspelt
    [true]. *)
Lemma literal_prefix_witness :
  json_parse (lit "nullx")
  = (None, lit "JSON parse error: trailing characters" ++ [LF])
  /\ json_parse (lit "tRUE")
     = (None, lit "JSON parse error: Unexpected literal near tRUE" ++ [LF]).
Proof.
  destruct literal_prefix as [Match Miss].
  split.
  - apply (Match (lit "null") JNull (lit "x")). simpl. tauto.
  - apply (Miss (lit "true") (JBool 1) (lit "tRUE"));
      [simpl; tauto | reflexivity | reflexivity].
Defined.

(** ** The buffer of a string literal *)

Lemma store_grow_ok (b : StringBuffer) (c : ascii) :
  buffer_ok b ->
  exists b', store (grow_if b 2) c = Ok b'
             /\ stored b' = stored b ++ [c] /\ buffer_ok b'.
Proof.
  intros [L C]. unfold grow_if, store.
  destruct (Nat.leb_spec (capacity b) (List.length (stored b) + 2));
    cbn [stored capacity].
  - destruct (Nat.ltb_spec (List.length (stored b)) (capacity b * 2));
      [|lia].
    eexists. split; [reflexivity|]. split; [reflexivity|].
    unfold buffer_ok; cbn [stored capacity]. rewrite length_app. simpl. lia.
  - destruct (Nat.ltb_spec (List.length (stored b)) (capacity b)); [|lia].
    eexists. split; [reflexivity|]. split; [reflexivity|].
    unfold buffer_ok; cbn [stored capacity]. rewrite length_app. simpl. lia.
Qed.

(** Storing while [room] more characters fit. *)
Lemma store_room (b : StringBuffer) (c : ascii) (room : nat) :
  List.length (stored b) + S room < capacity b ->
  exists b', store b c = Ok b'
             /\ stored b' = stored b ++ [c]
             /\ capacity b' = capacity b
             /\ List.length (stored b') + room < capacity b'.
Proof.
  intros L. unfold store.
  destruct (Nat.ltb_spec (List.length (stored b)) (capacity b)); [|lia].
  eexists. split; [reflexivity|]. cbn [stored capacity].
  rewrite length_app. simpl. repeat split. lia.
Qed.

Lemma copy_next_checked_ok (n : nat) :
  forall b p,
    List.length (stored b) + n < capacity b ->
    exists b',
      copy_next_checked n b p = Ok (b', snd (copy_next n (stored b) p))
      /\ stored b' = fst (copy_next n (stored b) p)
      /\ capacity b' = capacity b
      /\ List.length (stored b') < capacity b'.
Proof.
  induction n as [|n IH]; intros b p L; cbn [copy_next_checked copy_next].
  - exists b. cbn [fst snd]. repeat split. lia.
  - destruct (json_next p) as [c q].
    destruct (store_room b c n ltac:(lia)) as (b1 & S1 & E1 & C1 & L1).
    rewrite S1. cbn [bindB].
    destruct (IH b1 q L1) as (b' & R & E & C & L').
    exists b'. split; [rewrite R, E1; reflexivity|].
    split; [rewrite E, E1; reflexivity|].
    split; [congruence | exact L'].
Qed.

(** One iteration with the capacity tracked does what the iteration on
    the characters alone does, and stores within the capacity. *)
Lemma string_body_checked_ok (b : StringBuffer) (p : JsonParser) :
  buffer_ok b ->
  (negb (Ascii.eqb (deref (cur p)) NUL)
   && negb (Ascii.eqb (deref (cur p)) DQUOTE))%bool = true ->
  match string_step (stored b) p with
  | Continue buffer q =>
      exists b', string_body_checked b p = Ok (ContinueC b' q)
                 /\ stored b' = buffer /\ buffer_ok b'
  | Exit r =>
      fst r = None /\ string_body_checked b p = Ok (ExitC (None, snd r))
  end.
Proof.
  intros Hb C. unfold string_step, string_body_checked. rewrite C.
  assert (A : forall ch q,
             exists b', bindB (store (grow_if b 2) ch)
                              (fun b0 => Ok (ContinueC b0 q))
                        = Ok (ContinueC b' q)
                        /\ stored b' = stored b ++ [ch] /\ buffer_ok b').
  { intros ch q. destruct (store_grow_ok b ch Hb) as (b' & S1 & E1 & O1).
    exists b'. rewrite S1. split; [reflexivity | split; assumption]. }
  destruct (json_next p) as [ch p1].
  destruct (Ascii.eqb ch BACKSLASH); [|apply A].
  destruct (json_next p1) as [ch2 p2].
  destruct (Ascii.eqb ch2 NUL); [split; reflexivity|].
  destruct (_ || _)%bool; [apply A|].
  destruct (Ascii.eqb ch2 "b"); [apply A|].
  destruct (Ascii.eqb ch2 "f"); [apply A|].
  destruct (Ascii.eqb ch2 "n"); [apply A|].
  destruct (Ascii.eqb ch2 "r"); [apply A|].
  destruct (Ascii.eqb ch2 "t"); [apply A|].
  destruct (Ascii.eqb ch2 "u"); [|split; reflexivity].
  destruct Hb as [L K].
  assert (G : List.length (stored (grow_if b 6)) + 6
              < capacity (grow_if b 6)
              /\ stored (grow_if b 6) = stored b
              /\ 32 <= capacity (grow_if b 6)).
  { unfold grow_if.
    destruct (Nat.leb_spec (capacity b) (List.length (stored b) + 6));
      cbn [stored capacity]; repeat split; lia. }
  destruct G as (G1 & G2 & G3).
  destruct (store_room (grow_if b 6) BACKSLASH 5 G1)
    as (b1 & S1 & E1 & C1 & L1).
  destruct (store_room b1 "u" 4 L1) as (b2 & S2 & E2 & C2 & L2).
  destruct (copy_next_checked_ok 4 b2 p2 L2) as (b3 & S3 & E3 & C3 & L3).
  rewrite S1. cbn [bindB]. rewrite S2. cbn [bindB]. rewrite S3. cbn [bindB].
  assert (E : stored b2 = stored b ++ [BACKSLASH; "u"]).
  { rewrite E2, E1, G2, <- app_assoc. reflexivity. }
  rewrite E in S3, E3. rewrite E.
  destruct (copy_next 4 (stored b ++ [BACKSLASH; "u"]) p2) as [buffer q].
  cbn [fst snd] in *. exists b3. split; [reflexivity|]. split; [exact E3|].
  split; [exact L3 | lia].
Qed.

Lemma json_string_loop_checked_ok (fuel : nat) :
  forall b p,
    buffer_ok b ->
    match json_string_loop fuel (stored b) p with
    | None => json_string_loop_checked fuel b p = None
    | Some (None, q) =>
        json_string_loop_checked fuel b p = Some (Ok (None, q))
    | Some (Some buffer, q) =>
        exists b', json_string_loop_checked fuel b p = Some (Ok (Some b', q))
                   /\ stored b' = buffer /\ buffer_ok b'
    end.
Proof.
  induction fuel as [|n IH]; intros b p Hb.
  - cbn [json_string_loop json_string_loop_checked].
    destruct (_ && _)%bool; [reflexivity|].
    exists b. split; [reflexivity | split; [reflexivity | assumption]].
  - rewrite json_string_loop_S. cbn [json_string_loop_checked].
    destruct (_ && _)%bool eqn:C.
    + pose proof (string_body_checked_ok b p Hb C) as S.
      destruct (string_step (stored b) p) as [buffer q|[r q]].
      * destruct S as (b' & -> & <- & Hb'). now apply IH.
      * cbn [fst snd] in S. destruct S as [-> ->]. reflexivity.
    + unfold string_step. rewrite C. exists b.
      split; [reflexivity | split; [reflexivity | assumption]].
Qed.

(** X5. The buffer of a string literal never overflows. Run with its
    capacity tracked and every store checked against it,
    [json_parse_string_literal] has no undefined behaviour and returns
    what the run on the characters alone returns: the doubling before a
    store always leaves room for the one or six characters stored and for
    the final terminator. *)
Theorem string_buffer_in_bounds (fuel : nat) (p : JsonParser) :
  json_parse_string_literal_checked fuel p
  = option_map (@Ok (option chars * JsonParser))
               (json_parse_string_literal fuel p).
Proof.
  unfold json_parse_string_literal_checked, json_parse_string_literal.
  set (p0 := json_expect p DQUOTE).
  assert (Hb : buffer_ok (mkBuffer [] 32))
    by (unfold buffer_ok; simpl; lia).
  pose proof (json_string_loop_checked_ok fuel (mkBuffer [] 32) p0 Hb) as H.
  cbn [stored] in H.
  destruct (json_string_loop fuel [] p0) as [[[buffer|] q]|].
  - destruct H as (b' & -> & <- & [L _]).
    destruct (negb _); [reflexivity|].
    destruct (Nat.ltb_spec (List.length (stored b')) (capacity b')); [|lia].
    reflexivity.
  - now rewrite H.
  - now rewrite H.
Qed.

(** * The report *)

(** ** [html_escape] *)

Lemma replacement_no_NUL (ch : ascii) (rep : chars) :
  replacement ch = Some rep ->
  c_str rep = rep /\ 1 <= List.length rep <= 6.
Proof.
  unfold replacement.
  repeat match goal with
         | |- context [if ?c then _ else _] => destruct c
         end; intros [= <-]; split; try reflexivity; simpl; lia.
Qed.

Lemma html_escape_loop_ok (text : chars) :
  forall b,
    List.length (stored b) < capacity b ->
    exists b',
      html_escape_loop text b = Ok b'
      /\ stored b' = stored b ++ escaped text
      /\ List.length (stored b') < capacity b'.
Proof.
  induction text as [|ch text IH]; intros b L; cbn [html_escape_loop].
  - exists b. unfold escaped. simpl. rewrite app_nil_r. now repeat split.
  - unfold escaped. cbn [flat_map]. fold (escaped text).
    unfold escape_char.
    destruct (replacement ch) as [rep|] eqn:R.
    + destruct (replacement_no_NUL ch rep R) as [N _].
      rewrite N.
      set (b1 := if (capacity b <? _)%nat then _ else b).
      assert (H1 : stored b1 = stored b
                   /\ List.length (stored b) + List.length rep + 1
                      <= capacity b1).
      { subst b1.
        destruct (Nat.ltb_spec (capacity b)
                    (List.length (stored b) + List.length rep + 1));
          cbn [stored capacity]; split; try reflexivity; lia. }
      destruct H1 as [E1 C1].
      unfold store_all. rewrite N, E1.
      destruct (Nat.leb_spec (List.length (stored b) + List.length rep)
                             (capacity b1)); [|lia].
      cbn [bindB].
      destruct (IH (mkBuffer (stored b ++ rep) (capacity b1))) 
        as (b' & Hb' & E & L').
      { cbn [stored capacity]. rewrite length_app. lia. }
      exists b'. split; [exact Hb'|]. split; [|exact L'].
      rewrite E. cbn [stored]. now rewrite <- app_assoc.
    + set (b1 := if (capacity b <? _)%nat then _ else b).
      assert (H1 : stored b1 = stored b
                   /\ List.length (stored b) + 2 <= capacity b1).
      { subst b1.
        destruct (Nat.ltb_spec (capacity b) (List.length (stored b) + 2));
          cbn [stored capacity]; split; try reflexivity; lia. }
      destruct H1 as [E1 C1].
      unfold store. rewrite E1.
      destruct (Nat.ltb_spec (List.length (stored b)) (capacity b1)); [|lia].
      cbn [bindB].
      destruct (IH (mkBuffer (stored b ++ [ch]) (capacity b1))) 
        as (b' & Hb' & E & L').
      { cbn [stored capacity]. rewrite length_app. simpl. lia. }
      exists b'. split; [exact Hb'|]. split; [|exact L'].
      rewrite E. cbn [stored]. now rewrite <- app_assoc.
Qed.

(** What [html_escape] returns. *)
Lemma html_escape_value (text : chars) :
  html_escape text = Ok (escaped (c_str text)).
Proof.
  unfold html_escape.
  destruct (html_escape_loop_ok (c_str text)
              (mkBuffer [] (List.length (c_str text) + 1)))
    as (b & H & E & L).
  { simpl. lia. }
  rewrite H. cbn [bindB].
  destruct (Nat.ltb_spec (List.length (stored b)) (capacity b)); [|lia].
  now rewrite E.
Qed.

(** X6. [html_escape] stays inside its buffer and returns the text with
    each of [&], [<], [>] and the double quote replaced by its entity and
    every other character copied: no store, and not the final terminator
    either, falls outside the capacity, although the buffer starts with
    room for the unescaped text only. *)
Theorem html_escape_in_bounds (text : chars) :
  html_escape text = Ok (escaped (c_str text)).
Proof. exact (html_escape_value text). Qed.

Lemma escaped_app (a b : chars) : escaped (a ++ b) = escaped a ++ escaped b.
Proof. unfold escaped. apply flat_map_app. Qed.

Lemma escape_char_no_markup (ch : ascii) :
  forallb (fun c => negb (is_markup c)) (escape_char ch) = true.
Proof.
  unfold escape_char, replacement.
  destruct (Ascii.eqb ch "&"); [reflexivity|].
  destruct (Ascii.eqb ch "<") eqn:E1; [reflexivity|].
  destruct (Ascii.eqb ch ">") eqn:E2; [reflexivity|].
  destruct (Ascii.eqb ch DQUOTE) eqn:E3; [reflexivity|].
  simpl. unfold is_markup. now rewrite E1, E2, E3.
Qed.

Lemma escaped_ampersands (text : chars) :
  ampersands_are_entities (escaped text) = true.
Proof.
  induction text as [|ch text IH]; [reflexivity|].
  unfold escaped. cbn [flat_map]. fold (escaped text).
  unfold escape_char, replacement.
  destruct (Ascii.eqb ch "&") eqn:E0;
    [|destruct (Ascii.eqb ch "<");
      [|destruct (Ascii.eqb ch ">"); [|destruct (Ascii.eqb ch DQUOTE)]]];
    cbn [lit list_ascii_of_string app ampersands_are_entities];
    rewrite ?IH, ?E0; reflexivity.
Qed.

(** X7. What [html_escape] returns cannot leave the place the report puts
    it in: it has no [<], no [>] and no double quote, and each of its
    ampersands starts one of the four entities. *)
Theorem html_escape_no_markup (text : chars) :
  exists out,
    html_escape text = Ok out
    /\ forallb (fun c => negb (is_markup c)) out = true
    /\ ampersands_are_entities out = true.
Proof.
  exists (escaped (c_str text)).
  split; [apply html_escape_value|]. split.
  - unfold escaped. induction (c_str text) as [|ch s IH]; [reflexivity|].
    cbn [flat_map]. rewrite forallb_app, escape_char_no_markup. exact IH.
  - apply escaped_ampersands.
Qed.

Lemma c_str_app_no_NUL (a b : chars) :
  forallb (fun c => negb (Ascii.eqb c NUL)) a = true ->
  c_str (a ++ b) = a ++ c_str b.
Proof.
  induction a as [|c a IH]; simpl; [reflexivity|].
  intros H. apply andb_true_iff in H as [Hc Ha].
  apply negb_true_iff in Hc. rewrite Hc. now rewrite IH.
Qed.

(** X8. [html_escape] works character by character: the escape of two
    texts one after the other is the two escapes one after the other, a
    text without [&], [<], [>] and double quote is returned as it is, and
    the result is never shorter than the text and at most six times as
    long. *)
Theorem html_escape_pieces :
  (forall a b out_a out_b,
      forallb (fun c => negb (Ascii.eqb c NUL)) a = true ->
      html_escape a = Ok out_a -> html_escape b = Ok out_b ->
      html_escape (a ++ b) = Ok (out_a ++ out_b))
  /\ (forall text,
         forallb (fun c => match replacement c with
                           | None => true
                           | Some _ => false
                           end) (c_str text) = true ->
         html_escape text = Ok (c_str text))
  /\ (forall text out,
         html_escape text = Ok out ->
         List.length (c_str text) <= List.length out
         /\ List.length out <= 6 * List.length (c_str text)).
Proof.
  split; [|split].
  - intros a b out_a out_b Ha Ea Eb.
    rewrite html_escape_value in *.
    injection Ea as <-. injection Eb as <-.
    assert (Ea : c_str a = a).
    { pose proof (c_str_app_no_NUL a [] Ha) as E.
      now rewrite !app_nil_r in E. }
    now rewrite (c_str_app_no_NUL a b Ha), escaped_app, Ea.
  - intros text H. rewrite html_escape_value. f_equal.
    induction (c_str text) as [|c s IH]; [reflexivity|].
    cbn [forallb] in H. apply andb_true_iff in H as [Hc Hs].
    unfold escaped. cbn [flat_map]. fold (escaped s).
    unfold escape_char. destruct (replacement c); [discriminate|].
    simpl. now rewrite IH.
  - intros text out H. rewrite html_escape_value in H.
    injection H as <-.
    induction (c_str text) as [|c s IH]; [simpl; lia|].
    unfold escaped. cbn [flat_map]. fold (escaped s).
    rewrite length_app. cbn [List.length].
    assert (1 <= List.length (escape_char c) <= 6).
    { unfold escape_char. destruct (replacement c) as [rep|] eqn:R.
      - now pose proof (replacement_no_NUL c rep R) as [_ L].
      - simpl. lia. }
    lia.
Qed.

(** [html_escape_pieces] at a tag and a text behind it. *)
Lemma html_escape_pieces_witness :
  html_escape (lit "<b>" ++ lit "R&D") = Ok (lit "&lt;b&gt;" ++ lit "R&amp;D")
  /\ html_escape (lit "plain text") = Ok (lit "plain text")
  /\ 3 <= List.length (lit "&lt;b&gt;") <= 18.
Proof.
  destruct html_escape_pieces as (Pieces & Same & Len).
  split; [|split].
  - apply Pieces; reflexivity.
  - apply Same. reflexivity.
  - apply (Len (lit "<b>") (lit "&lt;b&gt;")). reflexivity.
Defined.

Lemma escape_char_cons (c : ascii) :
  exists tail, escape_char c = (if match replacement c with
                                   | Some _ => true
                                   | None => false
                                   end then "&"%char else c) :: tail.
Proof.
  unfold escape_char, replacement.
  repeat match goal with
         | |- context [if ?x then _ else _] => destruct x
         end; eexists; reflexivity.
Qed.

Lemma escape_char_injective (c d : ascii) (x y : chars) :
  escape_char c ++ x = escape_char d ++ y -> c = d /\ x = y.
Proof.
  unfold escape_char, replacement.
  repeat match goal with
         | |- context [if ?b then _ else _] => destruct b eqn:?
         end;
    cbn [lit list_ascii_of_string app]; intros H;
    repeat match goal with
           | E : Ascii.eqb _ _ = true |- _ => apply Ascii.eqb_eq in E
           end;
    subst; try discriminate H;
    injection H; intros; subst; try (now split);
    match goal with
    | E : Ascii.eqb _ _ = false |- _ => now vm_compute in E
    end.
Qed.

(** X9. [html_escape] loses nothing: two texts with the same escape are
    the same text. *)
Theorem html_escape_injective (a b : chars) (out : chars) :
  html_escape a = Ok out -> html_escape b = Ok out -> c_str a = c_str b.
Proof.
  rewrite !html_escape_value. intros [= <-] [= E].
  revert E. generalize (c_str b) as t. generalize (c_str a) as s.
  induction s as [|c s IH]; intros t E.
  - destruct t as [|d t]; [reflexivity|].
    unfold escaped in E. cbn [flat_map] in E.
    destruct (escape_char_cons d) as [tail T]. rewrite T in E.
    discriminate E.
  - destruct t as [|d t].
    + unfold escaped in E. cbn [flat_map] in E.
      destruct (escape_char_cons c) as [tail T]. rewrite T in E.
      discriminate E.
    + unfold escaped in E. cbn [flat_map] in E.
      fold (escaped s) in E. fold (escaped t) in E.
      symmetry in E. apply escape_char_injective in E. destruct E as [-> E].
      f_equal. apply IH. now symmetry.
Qed.

(** [html_escape_injective] at a text with an ampersand. *)
Lemma html_escape_injective_witness :
  c_str (lit "a&b") = c_str (lit "a&b" ++ [NUL; "x"]).
Proof.
  apply (html_escape_injective (lit "a&b") (lit "a&b" ++ [NUL; "x"])
                               (lit "a&amp;b")); reflexivity.
Defined.

(** ** [strcmp] as an order *)

Lemma code_injective (a b : ascii) : code a = code b -> a = b.
Proof.
  unfold code. intros H. apply char_diff_zero. lia.
Qed.

Lemma strcmp_step (a b : chars) :
  strcmp a b =
  if Ascii.eqb (deref a) (deref b) then
    if Ascii.eqb (deref a) NUL then 0%Z else strcmp (tl a) (tl b)
  else (code (deref a) - code (deref b))%Z.
Proof.
  rewrite strcmp_unfold. unfold code.
  destruct (Ascii.eqb (deref a) (deref b)); reflexivity.
Qed.

Lemma strcmp_sgn_antisym (a : chars) :
  forall b, Z.sgn (strcmp b a) = (- Z.sgn (strcmp a b))%Z.
Proof.
  induction a as [|x a IH]; intros b;
    rewrite (strcmp_step b), (strcmp_step _ b).
  - change (deref []) with NUL.
    destruct (Ascii.eqb_spec (deref b) NUL) as [E|E].
    + rewrite E. reflexivity.
    + destruct (Ascii.eqb_spec NUL (deref b)); [congruence|]. lia.
  - change (deref (x :: a)) with x. change (tl (x :: a)) with a.
    destruct (Ascii.eqb_spec (deref b) x) as [E|E].
    + rewrite E, Ascii.eqb_refl.
      destruct (Ascii.eqb x NUL); [reflexivity | apply IH].
    + destruct (Ascii.eqb_spec x (deref b)); [congruence|]. lia.
Qed.

Lemma strcmp_le_trans (a : chars) :
  forall b c,
    (strcmp a b <= 0)%Z -> (strcmp b c <= 0)%Z -> (strcmp a c <= 0)%Z.
Proof.
  induction a as [|x a IH]; intros b c;
    rewrite (strcmp_step _ b), (strcmp_step b c), (strcmp_step _ c).
  - change (deref []) with NUL. change (tl []) with (@nil ascii).
    destruct (Ascii.eqb_spec NUL (deref b)) as [Eb|Eb].
    + rewrite <- Eb. cbn [Ascii.eqb]. change (Ascii.eqb NUL NUL) with true.
      cbv iota. intros _.
      destruct (Ascii.eqb_spec NUL (deref c)); [reflexivity | auto].
    + intros Hab Hbc.
      destruct (Ascii.eqb_spec NUL (deref c)) as [Ec|Ec]; [reflexivity|].
      change (code NUL) with 0%Z in *.
      unfold code. lia.
  - change (deref (x :: a)) with x. change (tl (x :: a)) with a.
    destruct (Ascii.eqb_spec x (deref b)) as [Eb|Eb].
    + rewrite <- Eb.
      destruct (Ascii.eqb_spec x NUL) as [Ex|Ex].
      * intros _.
        destruct (Ascii.eqb_spec x (deref c)); [reflexivity | auto].
      * intros Hab.
        destruct (Ascii.eqb_spec x (deref c)) as [Ec|Ec]; [|auto].
        intros Hbc. now apply (IH (tl b) (tl c)).
    + intros Hab.
      assert (Lab : (code x < code (deref b))%Z).
      { assert (code x <> code (deref b))
          by (intros E; apply Eb; now apply code_injective).
        lia. }
      destruct (Ascii.eqb_spec (deref b) (deref c)) as [Ebc|Ebc].
      * rewrite <- Ebc.
        destruct (Ascii.eqb_spec x (deref b)); [congruence|]. lia.
      * intros Hbc.
        destruct (Ascii.eqb_spec x (deref c)) as [Ec|Ec]; [|lia].
        rewrite <- Ec in Hbc. lia.
Qed.

(** ** The two orders given to [qsort] *)

(** X10. [compare_languages] is an order [qsort] can sort by: it gives
    [0] exactly for two entries with the same bytes and the same name,
    swapping the arguments swaps the sign, it is transitive, and it puts an
    entry with more bytes first, two entries with the same bytes in the
    order of [strcmp] on their names. *)
Theorem compare_languages_order :
  (forall a b,
      compare_languages a b = 0%Z
      <-> bytes a = bytes b /\ c_str (language a) = c_str (language b))
  /\ (forall a b,
         Z.sgn (compare_languages b a)
         = (- Z.sgn (compare_languages a b))%Z)
  /\ (forall a b c,
         (compare_languages a b <= 0)%Z ->
         (compare_languages b c <= 0)%Z ->
         (compare_languages a c <= 0)%Z)
  /\ (forall a b, (bytes b < bytes a)%Z -> (compare_languages a b < 0)%Z)
  /\ (forall a b,
         bytes a = bytes b ->
         compare_languages a b = strcmp (language a) (language b)).
Proof.
  unfold compare_languages.
  split; [|split; [|split; [|split]]].
  - intros a b.
    destruct (Z.ltb_spec (bytes a) (bytes b)); [split; [discriminate|lia]|].
    destruct (Z.ltb_spec (bytes b) (bytes a)); [split; [discriminate|lia]|].
    rewrite strcmp_eq0. split; [intros E; split; [lia | exact E] | tauto].
  - intros a b.
    destruct (Z.ltb_spec (bytes a) (bytes b));
      destruct (Z.ltb_spec (bytes b) (bytes a)); try lia; try reflexivity.
    apply strcmp_sgn_antisym.
  - intros a b c.
    destruct (Z.ltb_spec (bytes a) (bytes b)); [lia|].
    destruct (Z.ltb_spec (bytes b) (bytes c)); [lia|].
    destruct (Z.ltb_spec (bytes a) (bytes c)); [lia|].
    destruct (Z.ltb_spec (bytes b) (bytes a));
      destruct (Z.ltb_spec (bytes c) (bytes b));
      destruct (Z.ltb_spec (bytes c) (bytes a)); try lia.
    apply strcmp_le_trans.
  - intros a b H.
    destruct (Z.ltb_spec (bytes a) (bytes b)); [lia|].
    destruct (Z.ltb_spec (bytes b) (bytes a)); lia.
  - intros a b H. rewrite H, Z.ltb_irrefl. reflexivity.
Qed.

(** [compare_languages_order] at three languages. *)
Lemma compare_languages_order_witness :
  let c := mkLanguage (lit "C") 900 (S754_zero false) in
  let go := mkLanguage (lit "Go") 50 (S754_zero false) in
  let hs := mkLanguage (lit "Haskell") 50 (S754_zero false) in
  (compare_languages c hs <= 0)%Z /\ (compare_languages c go < 0)%Z.
Proof.
  intros c go hs.
  destruct compare_languages_order as (_ & _ & Trans & More & _).
  split.
  - apply (Trans c go hs); vm_compute; discriminate.
  - apply More. simpl. lia.
Defined.

(** X11. [compare_repos] on repositories whose counters are not negative
    never overflows and orders them by stars, most first, then by forks,
    most first, then by name: the result is negative exactly when the
    first comes before the second, and [0] exactly when stars, forks and
    names agree. The subtraction is undefined behaviour as soon as the two
    star counts (or, with equal stars, fork counts) differ by more than an
    [int] holds. *)
Theorem compare_repos_order :
  (forall a b,
      counted a -> counted b ->
      exists r,
        compare_repos a b = Ok r
        /\ ((r < 0)%Z <-> repo_before a b)
        /\ ((0 < r)%Z <-> repo_before b a)
        /\ (r = 0%Z <->
            stars a = stars b /\ forks a = forks b
            /\ c_str (name a) = c_str (name b)))
  /\ (forall a b,
         (INT_MAX < stars b - stars a)%Z -> compare_repos a b = UB)
  /\ (forall a b,
         stars a = stars b -> (INT_MAX < forks b - forks a)%Z ->
         compare_repos a b = UB).
Proof.
  unfold compare_repos, repo_before, counted, int, INT_MAX, INT_MIN.
  split; [|split].
  - intros a b [[Sa Sa'] [Fa Fa']] [[Sb Sb'] [Fb Fb']].
    pose proof (strcmp_sgn_antisym (name a) (name b)) as Anti.
    pose proof (strcmp_eq0 (name a) (name b)) as Eq0.
    destruct (Z.eqb_spec (stars b) (stars a)) as [Es|Es]; cbn [negb].
    + destruct (Z.eqb_spec (forks b) (forks a)) as [Ef|Ef]; cbn [negb].
      * eexists. split; [reflexivity|].
        repeat split; intros; try tauto; try lia.
      * destruct (Z.leb_spec (- 2 ^ 31) (forks b - forks a)); [|lia].
        destruct (Z.leb_spec (forks b - forks a) (2 ^ 31 - 1)); [|lia].
        eexists. split; [reflexivity|]. repeat split; intros; lia.
    + destruct (Z.leb_spec (- 2 ^ 31) (stars b - stars a)); [|lia].
      destruct (Z.leb_spec (stars b - stars a) (2 ^ 31 - 1)); [|lia].
      eexists. split; [reflexivity|]. repeat split; intros; lia.
  - intros a b H.
    destruct (Z.eqb_spec (stars b) (stars a)); [lia|]. cbn [negb].
    destruct (Z.leb_spec (stars b - stars a) (2 ^ 31 - 1)); [lia|].
    now rewrite andb_false_r.
  - intros a b E H. rewrite E, Z.eqb_refl. cbn [negb].
    destruct (Z.eqb_spec (forks b) (forks a)); [lia|]. cbn [negb].
    destruct (Z.leb_spec (forks b - forks a) (2 ^ 31 - 1)); [lia|].
    now rewrite andb_false_r.
Qed.

(** [compare_repos_order] at two repositories with the same stars, and at
    a star count of [-2] against the largest [int]. *)
Lemma compare_repos_order_witness :
  let a := mkRepo (lit "alpha") [] [] [] [] 12 3 in
  let b := mkRepo (lit "beta") [] [] [] [] 12 1 in
  let low := mkRepo (lit "low") [] [] [] [] (-2) 0 in
  let top := mkRepo (lit "top") [] [] [] [] INT_MAX 0 in
  (exists r, compare_repos a b = Ok r /\ (r < 0)%Z)
  /\ compare_repos low top = UB.
Proof.
  intros a b low top.
  destruct compare_repos_order as (Order & Over & _).
  split.
  - destruct (Order a b) as (r & E & Lt & _).
    + unfold counted, INT_MAX; simpl; lia.
    + unfold counted, INT_MAX; simpl; lia.
    + exists r. split; [exact E|]. apply Lt.
      unfold repo_before. simpl. lia.
  - apply Over. unfold INT_MAX. simpl. lia.
Defined.

(** ** The list of languages *)

Lemma c_str_idempotent (s : chars) : c_str (c_str s) = c_str s.
Proof.
  induction s as [|c s IH]; [reflexivity|].
  rewrite (c_str_unfold (c :: s)).
  change (deref (c :: s)) with c. change (tl (c :: s)) with s.
  destruct (Ascii.eqb_spec c NUL) as [E|E]; [reflexivity|].
  rewrite c_str_unfold.
  change (deref (c :: c_str s)) with c.
  change (tl (c :: c_str s)) with (c_str s).
  destruct (Ascii.eqb_spec c NUL); [contradiction|]. now rewrite IH.
Qed.










(** ** The contribution calendar *)

Lemma to_int_range (d : double) (z : Z) :
  to_int d = Ok z -> (INT_MIN <= z <= INT_MAX)%Z.
Proof.
  unfold to_int, int. destruct (truncate d) as [t|]; [|discriminate].
  destruct (Z.leb_spec INT_MIN t); cbn [andb]; [|discriminate].
  destruct (Z.leb_spec t INT_MAX); [|discriminate].
  intros [= <-]. lia.
Qed.

Lemma extract_contributions_day_appends (points : list ContributionPoint)
    (day : JsonValue) (r : list ContributionPoint) :
  extract_contributions_day points day = Ok r ->
  exists added,
    r = points ++ added /\ Forall stored_point added
    /\ (List.length added <= 1)%nat.
Proof.
  unfold extract_contributions_day.
  destruct (negb (JsonType_eqb (type day) JSON_OBJECT)).
  { intros [= <-]. exists []. rewrite app_nil_r.
    split; [reflexivity | split; [constructor | cbn; lia]]. }
  destruct (json_object_get (Some day) (lit "date")) as [dateVal|];
    cbn [bindB]; [|discriminate].
  destruct (json_object_get (Some day) (lit "contributionCount"))
    as [countVal|]; cbn [bindB]; [|discriminate].
  destruct (to_int _) as [n|] eqn:C; cbn [bindB]; [|discriminate].
  destruct (json_get_string dateVal (Some [])) as [d|]; [|discriminate].
  intros [= <-]. exists [mkPoint (c_str d) n].
  split; [reflexivity|]. split; [|cbn; lia].
  constructor; [|constructor].
  split; [apply c_str_idempotent | exact (to_int_range _ _ C)].
Qed.

Lemma extract_contributions_days_appends (items : list JsonValue) :
  forall points r,
    extract_contributions_days points items = Ok r ->
    exists added,
      r = points ++ added /\ Forall stored_point added
      /\ (List.length added <= List.length items)%nat.
Proof.
  induction items as [|day items IH]; intros points r;
    cbn [extract_contributions_days].
  - intros [= <-]. exists []. rewrite app_nil_r.
    split; [reflexivity | split; [constructor | cbn; lia]].
  - destruct (extract_contributions_day points day) as [points'|] eqn:E;
      cbn [bindB]; [|discriminate].
    intros E'.
    destruct (extract_contributions_day_appends _ _ _ E)
      as (a & -> & Fa & La).
    destruct (IH _ _ E') as (b & -> & Fb & Lb).
    exists (a ++ b). rewrite app_assoc.
    split; [reflexivity|]. split; [now apply Forall_app|].
    rewrite length_app. cbn [List.length]. lia.
Qed.

Lemma extract_contributions_weeks_appends (items : list JsonValue) :
  forall points r,
    extract_contributions_weeks points items = Ok r ->
    exists added, r = points ++ added /\ Forall stored_point added.
Proof.
  induction items as [|week items IH]; intros points r;
    cbn [extract_contributions_weeks].
  - intros [= <-]. exists []. rewrite app_nil_r.
    split; [reflexivity | constructor].
  - destruct (extract_contributions_week points week) as [points'|] eqn:E;
      cbn [bindB]; [|discriminate].
    intros E'.
    assert (exists a, points' = points ++ a /\ Forall stored_point a)
      as (a & -> & Fa).
    { revert E. unfold extract_contributions_week.
      destruct (json_object_get (Some week) (lit "contributionDays"))
        as [daysVal|]; cbn [bindB]; [|discriminate].
      destruct daysVal as [[| | | |days|]|];
        try (intros [= <-]; exists []; rewrite app_nil_r;
             split; [reflexivity | constructor]).
      intros E.
      destruct (extract_contributions_days_appends _ _ _ E)
        as (a & -> & Fa & _).
      now exists a. }
    destruct (IH _ _ E') as (b & -> & Fb).
    exists (a ++ b). rewrite app_assoc.
    split; [reflexivity | now apply Forall_app].
Qed.

(** X14. [extract_contributions] only appends: the points the list had
    stay where they were, in the same order, and every point added holds a
    date that is a C string and a count that is an [int]. A calendar that
    is no object, or has no array [weeks], adds nothing; a day that is an
    object with neither a date nor a count adds the point of the empty date
    and the count [0]; a count that is too large for an [int], such as
    [1e10], is undefined behaviour. *)
Theorem extract_contributions_appends (points : list ContributionPoint) :
  (forall calendarVal r,
      extract_contributions points calendarVal = Ok r ->
      exists added, r = points ++ added /\ Forall stored_point added)
  /\ (forall calendarVal,
         json_array_size
           (match json_object_get calendarVal (lit "weeks") with
            | Ok weeksVal => weeksVal
            | UB => None
            end) = 0%N ->
         json_object_get calendarVal (lit "weeks") <> UB ->
         extract_contributions points calendarVal = Ok points)
  /\ (forall entries,
         json_object_find entries (lit "date") = Ok None ->
         json_object_find entries (lit "contributionCount") = Ok None ->
         extract_contributions_day points (JObject entries)
         = Ok (points ++ [mkPoint [] 0]))
  /\ (forall entries number,
         json_object_find entries (lit "contributionCount")
         = Ok (Some (JNumber number)) ->
         to_int number = UB ->
         extract_contributions_day points (JObject entries) = UB).
Proof.
  split; [|split; [|split]].
  - intros calendarVal r. unfold extract_contributions.
    assert (Same : exists added,
               points = points ++ added /\ Forall stored_point added)
      by (exists []; rewrite app_nil_r; split; [reflexivity|constructor]).
    destruct calendarVal as [obj|]; [|intros [= <-]; exact Same].
    destruct (negb (JsonType_eqb (type obj) JSON_OBJECT));
      [intros [= <-]; exact Same|].
    destruct (json_object_get (Some obj) (lit "weeks")) as [weeksVal|];
      cbn [bindB]; [|discriminate].
    destruct weeksVal as [[| | | |weeks|]|];
      try (intros [= <-]; exact Same).
    apply extract_contributions_weeks_appends.
  - intros calendarVal Size Def. unfold extract_contributions.
    destruct calendarVal as [obj|]; [|reflexivity].
    destruct (negb (JsonType_eqb (type obj) JSON_OBJECT)); [reflexivity|].
    destruct (json_object_get (Some obj) (lit "weeks")) as [weeksVal|];
      cbn [bindB]; [|congruence].
    destruct weeksVal as [[| | | |weeks|]|]; try reflexivity.
    destruct weeks as [|week weeks]; [reflexivity|].
    cbn in Size. lia.
  - intros entries D C. unfold extract_contributions_day.
    cbn [type JsonType_eqb negb json_object_get].
    rewrite D, C. reflexivity.
  - intros entries number C U. unfold extract_contributions_day.
    cbn [type JsonType_eqb negb json_object_get].
    rewrite C.
    destruct (json_object_find entries (lit "date")); [|reflexivity].
    cbn [bindB json_get_number type JsonType_eqb]. rewrite U. reflexivity.
Qed.

(** [extract_contributions_appends] at a calendar of two weeks, read from
    the text of an answer; the second week has no days. Then at a day
    without members, and at a day whose count is [1e10]. *)
Lemma extract_contributions_appends_witness :
  let points := [mkPoint (lit "2024-01-01") 3] in
  let text :=
    lit "{" ++ quoted (lit "weeks") ++ lit ":[{"
    ++ quoted (lit "contributionDays") ++ lit ":[{" ++ quoted (lit "date")
    ++ lit ":" ++ quoted (lit "2024-01-02") ++ lit ","
    ++ quoted (lit "contributionCount") ++ lit ":7}]},{}]}" in
  let r := points ++ [mkPoint (lit "2024-01-02") 7] in
  let huge := [(Some (lit "contributionCount"),
                JNumber (strtod (lit "1e10")))] in
  extract_contributions points (fst (json_parse text)) = Ok r
  /\ (exists added, r = points ++ added /\ Forall stored_point added)
  /\ extract_contributions points (Some (JArray [])) = Ok points
  /\ extract_contributions_day points (JObject [])
     = Ok (points ++ [mkPoint [] 0])
  /\ extract_contributions_day points (JObject huge) = UB.
Proof.
  intros points text r huge.
  destruct (extract_contributions_appends points)
    as (App & Nothing & Bare & Huge).
  assert (E : extract_contributions points (fst (json_parse text)) = Ok r)
    by (vm_compute; reflexivity).
  split; [exact E|]. split; [exact (App _ _ E)|]. split; [|split].
  - apply Nothing; [reflexivity | discriminate].
  - apply Bare; reflexivity.
  - apply (Huge huge (strtod (lit "1e10"))); vm_compute; reflexivity.
Defined.

(** X15. [trim_contributions] keeps the newest points: what is left is
    the list without its first [size - maxCount] points, so a list made of
    older points followed by [maxCount] newer ones is cut down to the newer
    ones, the size becomes the smaller of the old size and [maxCount], and
    trimming twice changes nothing more. *)
Theorem trim_contributions_keeps_newest
    (items : list ContributionPoint) (maxCount : nat) :
  trim_contributions items maxCount
  = skipn (List.length items - maxCount) items
  /\ List.length (trim_contributions items maxCount)
     = Nat.min (List.length items) maxCount
  /\ (forall older newest,
         items = older ++ newest -> List.length newest = maxCount ->
         trim_contributions items maxCount = newest)
  /\ trim_contributions (trim_contributions items maxCount) maxCount
     = trim_contributions items maxCount.
Proof.
  assert (Closed : forall l : list ContributionPoint,
             trim_contributions l maxCount
             = skipn (List.length l - maxCount) l).
  { intros l. unfold trim_contributions.
    destruct (Nat.leb_spec (List.length l) maxCount) as [L|L].
    - replace (List.length l - maxCount)%nat with 0%nat by lia.
      reflexivity.
    - apply firstn_all2. rewrite length_skipn. lia. }
  assert (Len : forall l : list ContributionPoint,
             List.length (trim_contributions l maxCount)
             = Nat.min (List.length l) maxCount)
    by (intros l; rewrite Closed, length_skipn; lia).
  split; [apply Closed|]. split; [apply Len|]. split.
  - intros older newest -> L. rewrite Closed, length_app.
    replace (List.length older + List.length newest - maxCount)%nat
      with (List.length older) by lia.
    rewrite skipn_app, Nat.sub_diag, skipn_all. reflexivity.
  - rewrite (Closed (trim_contributions items maxCount)), Len.
    replace (Nat.min (List.length items) maxCount - maxCount)%nat
      with 0%nat by lia.
    reflexivity.
Qed.

(** [trim_contributions_keeps_newest] at three points and a limit of
    two. *)
Lemma trim_contributions_keeps_newest_witness :
  let a := mkPoint (lit "2024-01-01") 1 in
  let b := mkPoint (lit "2024-01-02") 0 in
  let c := mkPoint (lit "2024-01-03") 5 in
  trim_contributions [a; b; c] 2 = [b; c].
Proof.
  intros a b c.
  destruct (trim_contributions_keeps_newest [a; b; c] 2)
    as (_ & _ & Newest & _).
  apply (Newest [a] [b; c]); reflexivity.
Defined.

(** ** The request *)

Lemma no_NUL_c_str (s : chars) : no_NUL (c_str s) = true.
Proof.
  induction s as [|c s IH]; [reflexivity|].
  rewrite c_str_unfold.
  change (deref (c :: s)) with c. change (tl (c :: s)) with s.
  destruct (Ascii.eqb c NUL) eqn:E; [reflexivity|].
  unfold no_NUL in *. cbn [forallb]. now rewrite E, IH.
Qed.

Lemma no_NUL_app (a b : chars) :
  no_NUL (a ++ b) = (no_NUL a && no_NUL b)%bool.
Proof. apply forallb_app. Qed.

Lemma c_str_id (s : chars) : no_NUL s = true -> c_str s = s.
Proof.
  intros H. rewrite <- (app_nil_r s) at 1.
  rewrite c_str_app_no_NUL by exact H. apply app_nil_r.
Qed.

Lemma payload_format_no_NUL (q u : chars) :
  no_NUL (payload_format q u) = true.
Proof.
  unfold payload_format.
  rewrite !no_NUL_app, !no_NUL_c_str. reflexivity.
Qed.

Lemma payload_format_length (q u : chars) :
  List.length (payload_format q u)
  = List.length (c_str q) + List.length (c_str u) + 37.
Proof.
  unfold payload_format. rewrite !length_app.
  cbn [List.length lit list_ascii_of_string]. lia.
Qed.

Lemma escape_newlines_app (a b : chars) :
  escape_newlines (a ++ b) = escape_newlines a ++ escape_newlines b.
Proof. apply flat_map_app. Qed.

Lemma escape_newlines_cons (c : ascii) (s : chars) :
  escape_newlines (c :: s)
  = (if Ascii.eqb c LF then [BACKSLASH; "n"%char] else [c])
    ++ escape_newlines s.
Proof. reflexivity. Qed.

Lemma escape_newlines_length (s : chars) :
  List.length (escape_newlines s) = List.length s + count_newlines s.
Proof.
  induction s as [|c s IH]; [reflexivity|].
  rewrite escape_newlines_cons, length_app, IH. cbn [count_newlines].
  destruct (Ascii.eqb c LF); cbn [List.length]; lia.
Qed.

Lemma escape_newlines_none (s : chars) :
  count_newlines s = 0 -> escape_newlines s = s.
Proof.
  induction s as [|c s IH]; [reflexivity|].
  rewrite escape_newlines_cons. cbn [count_newlines].
  destruct (Ascii.eqb c LF); [discriminate|].
  intros H. now rewrite IH.
Qed.

Lemma escape_newlines_no_LF (s : chars) : ~ In LF (escape_newlines s).
Proof.
  induction s as [|c s IH]; [intros []|].
  rewrite escape_newlines_cons. intros H. apply in_app_or in H as [H|H];
    [|contradiction].
  destruct (Ascii.eqb_spec c LF) as [E|E].
  - destruct H as [H|[H|[]]]; discriminate H.
  - destruct H as [H|[]]. congruence.
Qed.

Lemma escape_newlines_no_NUL (s : chars) :
  no_NUL s = true -> no_NUL (escape_newlines s) = true.
Proof.
  induction s as [|c s IH]; [reflexivity|].
  rewrite escape_newlines_cons, no_NUL_app.
  unfold no_NUL at 1. cbn [forallb]. intros H.
  apply andb_true_iff in H as [Hc Hs]. rewrite (IH Hs), andb_true_r.
  destruct (Ascii.eqb c LF); [reflexivity|].
  unfold no_NUL. cbn [forallb]. now rewrite Hc.
Qed.

Lemma expand_newlines_ok (payload : chars) :
  forall expanded,
    List.length (stored expanded) + List.length payload
    + count_newlines payload <= capacity expanded ->
    expand_newlines payload expanded
    = Ok (mkBuffer (stored expanded ++ escape_newlines payload)
            (capacity expanded)).
Proof.
  induction payload as [|c payload IH]; intros [s cap];
    cbn [expand_newlines stored capacity count_newlines List.length].
  - intros _. now rewrite app_nil_r.
  - rewrite escape_newlines_cons. unfold store. cbn [stored capacity].
    destruct (Ascii.eqb c LF); intros H.
    + destruct (Nat.ltb_spec (List.length s) cap); [|lia]. cbn [bindB].
      cbn [stored capacity]. rewrite length_app. cbn [List.length].
      destruct (Nat.ltb_spec (List.length s + 1) cap); [|lia].
      cbn [bindB]. rewrite IH.
      * cbn [stored capacity]. now rewrite <- !app_assoc.
      * cbn [stored capacity]. rewrite !length_app. cbn [List.length]. lia.
    + destruct (Nat.ltb_spec (List.length s) cap); [|lia]. cbn [bindB].
      rewrite IH.
      * cbn [stored capacity]. now rewrite <- !app_assoc.
      * cbn [stored capacity]. rewrite !length_app. cbn [List.length]. lia.
Qed.

Lemma escape_newlines_payload_format (q u : chars) :
  escape_newlines (payload_format q u)
  = request (escape_newlines (c_str q)) (escape_newlines (c_str u)).
Proof.
  unfold payload_format, request, quoted.
  rewrite !escape_newlines_app.
  cbn [lit list_ascii_of_string app].
  rewrite <- !app_assoc. reflexivity.
Qed.

Lemma c_str_query : c_str query = query.
Proof. vm_compute. reflexivity. Qed.

Lemma build_graphql_payload_expands (username : chars) :
  build_graphql_payload username
  = Ok (escape_newlines (payload_format query username)).
Proof.
  unfold build_graphql_payload, snprintf.
  rewrite firstn_all2 by (rewrite payload_format_length; lia).
  rewrite (c_str_id _ (payload_format_no_NUL _ _)).
  set (payload := payload_format query username).
  destruct (Nat.eqb_spec (count_newlines payload) 0) as [E|E].
  - now rewrite escape_newlines_none.
  - rewrite expand_newlines_ok by (cbn [stored capacity List.length]; lia).
    cbn [bindB stored capacity app].
    rewrite escape_newlines_length.
    destruct (Nat.ltb_spec
                (List.length payload + count_newlines payload)
                (List.length payload + count_newlines payload + 1));
      [reflexivity | lia].
Qed.

(** X16. [build_graphql_payload] never truncates the request and never
    writes outside the buffer it expands it into: the 128 characters added
    to the two lengths cover the 37 characters of the format. The payload
    is the format with the query and the user name in it, every newline
    written as a backslash and [n]; nothing else of the user name is
    escaped. The payload has no newline and is a C string. *)
Theorem build_graphql_payload_form (username : chars) :
  exists payload,
    build_graphql_payload username = Ok payload
    /\ payload
       = request (escape_newlines query)
           (escape_newlines (c_str username))
    /\ ~ In LF payload
    /\ c_str payload = payload.
Proof.
  exists (escape_newlines (payload_format query username)).
  split; [apply build_graphql_payload_expands|].
  split; [now rewrite escape_newlines_payload_format, c_str_query|].
  split; [apply escape_newlines_no_LF|].
  apply c_str_id, escape_newlines_no_NUL, payload_format_no_NUL.
Qed.

(** ** The request, read by the parser *)

(** A string literal in front of [rest]. *)
Lemma json_parse_string_literal_in (fuel : nat)
    (st err body out rest : chars) :
  resolves body out ->
  List.length (body ++ DQUOTE :: rest) <= fuel ->
  json_parse_string_literal fuel
    (mkParser st (DQUOTE :: body ++ DQUOTE :: rest) err)
  = Some (Some out, mkParser st rest err).
Proof.
  intros R F. unfold json_parse_string_literal.
  rewrite (json_expect_peeked _ DQUOTE) by (reflexivity || discriminate).
  unfold set_cur. cbn [cur advance tl start error].
  rewrite json_string_loop_run by (cbn [cur]; lia).
  rewrite (R _ _ [] (DQUOTE :: rest)), string_run_quote.
  unfold json_peek. cbn [cur deref]. rewrite Ascii.eqb_refl. cbn [negb].
  rewrite (json_expect_peeked _ DQUOTE) by (reflexivity || discriminate).
  reflexivity.
Qed.

Lemma json_parse_value_string (fuel : nat) (st err body out rest : chars) :
  resolves body out ->
  List.length (body ++ DQUOTE :: rest) <= fuel ->
  json_parse_value (S fuel)
    (mkParser st (DQUOTE :: body ++ DQUOTE :: rest) err)
  = Some (Some (JString (Some out)), mkParser st rest err).
Proof.
  intros R F. cbn [json_parse_value].
  rewrite json_skip_ws_id by reflexivity.
  unfold json_peek at 1. cbn [cur deref]. rewrite Ascii.eqb_refl.
  rewrite (json_parse_string_literal_in fuel st err body out rest R F).
  reflexivity.
Qed.

Section Members.

Variable parse_value : JsonParser -> option (option JsonValue * JsonParser).
Variables (fuel : nat) (object value : JsonValue).
Variables (st err key keyout text rest : chars).
Hypothesis key_resolves : resolves key keyout.
Hypothesis enough : List.length (key ++ DQUOTE :: ":"%char :: text) <= fuel.
Hypothesis text_starts : is_ws (deref text) = false.
Hypothesis text_parses :
  parse_value (mkParser st text err) = Some (Some value, mkParser st rest err).

Lemma json_object_loop_value :
  json_object_loop parse_value (S fuel) object
    (mkParser st (DQUOTE :: key ++ DQUOTE :: ":"%char :: text) err)
  = let object := json_object_put object (Some keyout) value in
    let p := json_skip_ws (mkParser st rest err) in
    if Ascii.eqb (json_peek p) "," then
      json_object_loop parse_value fuel object (json_expect p ",")
    else
      let p := if negb (Ascii.eqb (json_peek p) "}")
               then json_error p (lit "Unterminated object")
               else p in
      let p := json_expect p "}" in
      Some (Some object, p).
Proof.
  cbn [json_object_loop].
  rewrite json_skip_ws_id by reflexivity.
  unfold json_peek at 1. cbn [cur deref]. rewrite Ascii.eqb_refl.
  cbn [negb].
  rewrite (json_parse_string_literal_in fuel st err key keyout
             (":"%char :: text) key_resolves enough).
  rewrite (json_skip_ws_id (mkParser st (":"%char :: text) err))
    by reflexivity.
  rewrite (json_expect_peeked _ ":") by (reflexivity || discriminate).
  unfold set_cur at 1. cbn [cur advance tl start error].
  rewrite (json_skip_ws_id (mkParser st text err)) by exact text_starts.
  rewrite text_parses. reflexivity.
Qed.

(** A member followed by a comma: the loop goes on behind the comma. *)
Lemma json_object_loop_comma (rest' : chars) :
  rest = ","%char :: rest' ->
  json_object_loop parse_value (S fuel) object
    (mkParser st (DQUOTE :: key ++ DQUOTE :: ":"%char :: text) err)
  = json_object_loop parse_value fuel
      (json_object_put object (Some keyout) value)
      (mkParser st rest' err).
Proof.
  intros E. rewrite json_object_loop_value. cbv zeta. rewrite E.
  rewrite json_skip_ws_id by reflexivity.
  unfold json_peek. cbn [cur deref]. rewrite Ascii.eqb_refl.
  rewrite (json_expect_peeked _ ",") by (reflexivity || discriminate).
  reflexivity.
Qed.

(** A member followed by the closing brace: the object is complete. *)
Lemma json_object_loop_close (rest' : chars) :
  rest = "}"%char :: rest' ->
  json_object_loop parse_value (S fuel) object
    (mkParser st (DQUOTE :: key ++ DQUOTE :: ":"%char :: text) err)
  = Some (Some (json_object_put object (Some keyout) value),
          mkParser st rest' err).
Proof.
  intros E. rewrite json_object_loop_value. cbv zeta. rewrite E.
  rewrite json_skip_ws_id by reflexivity.
  unfold json_peek. cbn [cur deref].
  change (Ascii.eqb "}" ",") with false. cbv iota.
  rewrite Ascii.eqb_refl. cbn [negb].
  rewrite (json_expect_peeked _ "}") by (reflexivity || discriminate).
  reflexivity.
Qed.

End Members.

(** An object that starts with a string key. *)
Lemma json_parse_value_object (fuel : nat) (st err rest : chars) :
  json_parse_value (S fuel) (mkParser st ("{"%char :: DQUOTE :: rest) err)
  = json_object_loop (json_parse_value fuel) fuel (JObject [])
      (mkParser st (DQUOTE :: rest) err).
Proof.
  cbn [json_parse_value].
  rewrite json_skip_ws_id by reflexivity.
  unfold json_peek at 1 2. cbn [cur deref].
  change (Ascii.eqb "{" DQUOTE) with false. cbv iota.
  rewrite Ascii.eqb_refl.
  unfold json_parse_object.
  rewrite (json_expect_peeked _ "{") by (reflexivity || discriminate).
  unfold set_cur at 1. cbn [cur advance tl start error].
  rewrite json_skip_ws_id by reflexivity.
  unfold json_peek. cbn [cur deref].
  change (Ascii.eqb DQUOTE "}") with false. reflexivity.
Qed.

Lemma escape_newlines_resolves (s : chars) :
  forallb is_plain s = true -> resolves (escape_newlines s) s.
Proof.
  induction s as [|c s IH]; [intros _; apply resolves_nil|].
  cbn [forallb]. intros H. apply andb_true_iff in H as [Hc Hs].
  rewrite escape_newlines_cons.
  apply (resolves_app _ _ [c] s); [|now apply IH].
  destruct (Ascii.eqb_spec c LF) as [->|_].
  - apply resolves_escape. cbn. tauto.
  - now apply resolves_plain_char.
Qed.

(** The document of a request whose two literals resolve. *)
Lemma json_parse_request (q qo u uo : chars) :
  resolves q qo -> resolves u uo ->
  json_parse (request q u)
  = (Some (JObject
             [(Some (lit "query"), JString (Some qo));
              (Some (lit "variables"),
               JObject [(Some (lit "login"), JString (Some uo))])]),
     []).
Proof.
  intros Rq Ru. unfold json_parse.
  set (document := request q u).
  set (n := List.length document).
  rewrite <- (json_parse_value_fuel (S n) (S (S (S n))))
    by (cbn [cur]; lia).
  assert (E : document
              = "{"%char :: DQUOTE :: lit "query" ++ DQUOTE :: ":"%char
                :: DQUOTE :: q ++ DQUOTE :: ","%char
                :: DQUOTE :: lit "variables" ++ DQUOTE :: ":"%char
                :: "{"%char :: DQUOTE :: lit "login" ++ DQUOTE :: ":"%char
                :: DQUOTE :: u ++ DQUOTE :: "}"%char :: "}"%char :: []).
  { unfold document, request, quoted.
    cbn [lit list_ascii_of_string app]. rewrite <- !app_assoc.
    reflexivity. }
  assert (L : List.length document <= n) by (unfold n; lia).
  clearbody n. generalize document at 1 as st. intros st.
  rewrite E in L |- *. clear E document.
  repeat (cbn [List.length lit list_ascii_of_string app] in L;
          rewrite ?length_app in L).
  assert (P : json_parse_value (S (S (S n)))
                (mkParser st
                   ("{"%char :: DQUOTE :: lit "query" ++ DQUOTE :: ":"%char
                    :: DQUOTE :: q ++ DQUOTE :: ","%char
                    :: DQUOTE :: lit "variables" ++ DQUOTE :: ":"%char
                    :: "{"%char :: DQUOTE :: lit "login" ++ DQUOTE
                    :: ":"%char :: DQUOTE :: u ++ DQUOTE :: "}"%char
                    :: "}"%char :: []) [])
              = Some (Some (JObject
                              [(Some (lit "query"), JString (Some qo));
                               (Some (lit "variables"),
                                JObject [(Some (lit "login"),
                                          JString (Some uo))])]),
                      mkParser st [] [])).
  { rewrite json_parse_value_object.
    etransitivity.
    { eapply (json_object_loop_comma _ _ _ _ st [] (lit "query")
                (lit "query")).
      - apply resolves_plain. reflexivity.
      - repeat (cbn [List.length lit list_ascii_of_string app];
                rewrite ?length_app).
        lia.
      - reflexivity.
      - apply json_parse_value_string; [exact Rq|].
        repeat (cbn [List.length lit list_ascii_of_string app];
                rewrite ?length_app).
        lia.
      - reflexivity. }
    etransitivity.
    { eapply (json_object_loop_close _ _ _ _ st [] (lit "variables")
                (lit "variables")).
      - apply resolves_plain. reflexivity.
      - repeat (cbn [List.length lit list_ascii_of_string app];
                rewrite ?length_app).
        lia.
      - reflexivity.
      - rewrite json_parse_value_object.
        eapply (json_object_loop_close _ _ _ _ st [] (lit "login")
                  (lit "login")).
        + apply resolves_plain. reflexivity.
        + repeat (cbn [List.length lit list_ascii_of_string app];
                  rewrite ?length_app).
          lia.
        + reflexivity.
        + apply json_parse_value_string; [exact Ru|].
          repeat (cbn [List.length lit list_ascii_of_string app];
                  rewrite ?length_app).
          lia.
        + reflexivity.
      - reflexivity. }
    reflexivity. }
  rewrite P. reflexivity.
Qed.


Lemma query_plain : forallb is_plain query = true.
Proof. vm_compute. reflexivity. Qed.

(** X17. The payload [build_graphql_payload] makes for a user name without
    a quote and without a backslash is a document that [json_parse] reads,
    without a message, as the object of the two members [query] and
    [variables], the latter an object with the one member [login]: the
    string of [query] is the query with its newlines, and the string of
    [login] is the user name, with its newlines if it has any. *)
Theorem build_graphql_payload_parses (username : chars) :
  forallb is_plain (c_str username) = true ->
  exists payload,
    build_graphql_payload username = Ok payload
    /\ json_parse payload
       = (Some (JObject
                  [(Some (lit "query"), JString (Some query));
                   (Some (lit "variables"),
                    JObject [(Some (lit "login"),
                              JString (Some (c_str username)))])]),
          []).
Proof.
  intros Plain.
  exists (escape_newlines (payload_format query username)).
  split; [apply build_graphql_payload_expands|].
  rewrite escape_newlines_payload_format, c_str_query.
  apply json_parse_request.
  - apply escape_newlines_resolves, query_plain.
  - apply escape_newlines_resolves, Plain.
Qed.

(** [build_graphql_payload_parses] at the user name [octocat]. *)
Lemma build_graphql_payload_parses_witness :
  exists payload,
    build_graphql_payload (lit "octocat") = Ok payload
    /\ json_parse payload
       = (Some (JObject
                  [(Some (lit "query"), JString (Some query));
                   (Some (lit "variables"),
                    JObject [(Some (lit "login"),
                              JString (Some (lit "octocat")))])]),
          []).
Proof.
  apply (build_graphql_payload_parses (lit "octocat")). reflexivity.
Defined.

(** A quote in the user name ends the literal: the rest of the name is
    read as part of the document, here as one more member. *)
Example build_graphql_payload_quote :
  let username :=
    lit "x" ++ [DQUOTE] ++ lit "," ++ quoted (lit "first") ++ lit ":"
    ++ [DQUOTE] ++ lit "1" in
  match build_graphql_payload username with
  | Ok payload =>
      json_parse payload
      = (Some (JObject
                 [(Some (lit "query"), JString (Some query));
                  (Some (lit "variables"),
                   JObject [(Some (lit "login"), JString (Some (lit "x")));
                            (Some (lit "first"),
                             JString (Some (lit "1")))])]),
         [])
  | UB => False
  end.
Proof. vm_compute. reflexivity. Qed.

(** ** The repositories of the answer *)








